(** * Invariant metrics on Lie groups: a shallow embedding of
      [geomstats/geometry/invariant_metric.py]

    Conventions of the embedding.

    - Floating-point numbers are read as exact rationals ([Qc], canonical
      fractions, so that equality is Leibniz equality and the model computes).
      Where a property depends on rounding, the curvature engine is also
      given in binary64 arithmetic (module [binary64]).
    - Arrays are unbatched: a point or tangent vector is either a flat vector
      ([Vec], shape [[dim]]) or a matrix ([Mat], shape [[n, n]]); the leading
      "..." axes of the Python signatures are empty.  An operation applied to
      operands whose ranks do not fit this reading yields [ShapeError].
    - Python exceptions are values of [exn]; every method that can raise
      returns in the error monad [result].
    - Collaborators whose code is outside the file under study (the Lie
      group, the Lie-algebra basis provider, parts of the linear-algebra
      backend) are records of functions or section variables. *)

From Stdlib Require Import String Ascii List Bool Arith Lia ZArith.
From Stdlib Require Import QArith Qcanon Qcabs.
From Stdlib Require Floats.PrimFloat.
Import ListNotations.

Set Implicit Arguments.

(* ------------------------------------------------------------------ *)
(** ** Exceptions and the error monad *)
(* ------------------------------------------------------------------ *)

Inductive exn : Type :=
| AttributeError        (* attribute access on [None] *)
| ValueError            (* rejected parameter value, malformed einsum operand *)
| NotImplementedError
| ShapeError            (* operand ranks outside the unbatched reading *)
| ZeroDivision.         (* a float division by zero: numpy's inf / nan *)

Inductive result (A : Type) : Type :=
| Ok (a : A)
| Raise (e : exn).

Arguments Ok {A} a.
Arguments Raise {A} e.

Definition bind {A B : Type} (r : result A) (k : A -> result B) : result B :=
  match r with
  | Ok a => k a
  | Raise e => Raise e
  end.

Declare Scope py_scope.
Delimit Scope py_scope with py.
Notation "x <- c ;; k" := (bind c (fun x => k))
  (at level 61, c at next level, right associativity) : py_scope.
Notation "c ;;; k" := (bind c (fun _ => k))
  (at level 61, right associativity) : py_scope.

(** [[f(x) for x in xs]] with a body that may raise. *)
Fixpoint comprehension {A B : Type} (f : A -> result B) (xs : list A)
  : result (list B) :=
  match xs with
  | [] => Ok []
  | x :: xs' =>
      match f x with
      | Raise e => Raise e
      | Ok y =>
          match comprehension f xs' with
          | Raise e => Raise e
          | Ok ys => Ok (y :: ys)
          end
      end
  end.

(* ------------------------------------------------------------------ *)
(** ** The array backend ([geomstats.backend], imported as [gs]) *)
(* ------------------------------------------------------------------ *)

Module gs.

Local Open Scope Qc_scope.

Definition vec := list Qc.
Definition mat := list vec.

Inductive array : Type :=
| Vec (v : vec)
| Mat (m : mat).

Fixpoint zip_with {A B C : Type} (f : A -> B -> C)
  (xs : list A) (ys : list B) : list C :=
  match xs, ys with
  | x :: xs', y :: ys' => f x y :: zip_with f xs' ys'
  | _, _ => []
  end.

(** *** Scalars *)

Definition leb (a b : Qc) : bool := Qle_bool a b.
Definition greater (a b : Qc) : bool := negb (leb a b).
Definition less (a b : Qc) : bool := negb (leb b a).

(** [isclose(a, b)] is [|a - b| <= atol + rtol * |b|]; the two tolerances are
    defaults of the backend and stay parameters here. *)
Definition isclose (rtol atol a b : Qc) : bool :=
  leb (Qcabs (a - b)) (atol + rtol * Qcabs b).

(** Scalar [where(condition, x, y)]. *)
Definition where_ (c : bool) (x y : Qc) : Qc := if c then x else y.

(** Float division; a zero divisor gives numpy's inf or nan, which the model
    reports as [ZeroDivision]. *)
Definition divide (a b : Qc) : result Qc :=
  if Qc_eq_dec b 0 then Raise ZeroDivision else Ok (a / b).

(** *** Vectors and matrices *)

Definition vsum (v : vec) : Qc := fold_right Qcplus 0 v.
Definition vdot (u v : vec) : Qc := vsum (zip_with Qcmult u v).
Definition vneg (v : vec) : vec := map Qcopp v.
Definition vscale (c : Qc) (v : vec) : vec := map (Qcmult c) v.

Definition nrows (A : mat) : nat := length A.
Definition ncols (A : mat) : nat := length (hd [] A).
Definition column (A : mat) (j : nat) : vec := map (fun row => nth j row 0) A.
Definition entry (A : mat) (i j : nat) : Qc := nth j (nth i A []) 0.

Definition transpose (A : mat) : mat :=
  map (column A) (seq 0 (ncols A)).

(** [a @ b]: entry (i, j) is the dot product of row i of [a] with column j
    of [b]. *)
Definition matmul (A B : mat) : mat :=
  map (fun row => map (fun j => vdot row (column B j)) (seq 0 (ncols B))) A.

Definition madd (A B : mat) : mat := zip_with (zip_with Qcplus) A B.
Definition msub (A B : mat) : mat := zip_with (zip_with Qcminus) A B.
Definition hadamard (A B : mat) : mat := zip_with (zip_with Qcmult) A B.
Definition mneg (A : mat) : mat := map vneg A.
Definition mscale (c : Qc) (A : mat) : mat := map (vscale c) A.

(** [gs.sum(a, axis=(0, 1))]. *)
Definition msum (A : mat) : Qc := vsum (map vsum A).

(** [gs.eye(n)]. *)
Definition eye (n : nat) : mat :=
  map (fun i => map (fun j => if Nat.eqb i j then 1 else 0) (seq 0 n))
      (seq 0 n).

Definition zeros (r c : nat) : mat := repeat (repeat 0 c) r.

(** [einsum('...i,...ij->...j', v, m)]: the row vector [v] times [m]. *)
Definition einsum_i_ij (a : array) (M : mat) : result array :=
  match a with
  | Vec v => Ok (Vec (map (fun j => vdot v (column M j)) (seq 0 (ncols M))))
  | Mat _ => Raise ShapeError
  end.

(** [einsum('...j,...j->...', u, v)]. *)
Definition einsum_j_j (a b : array) : result Qc :=
  match a, b with
  | Vec u, Vec v => Ok (vdot u v)
  | _, _ => Raise ShapeError
  end.

(** [einsum('i...,ijk->...jk', coefficients, basis)]: the linear combination
    of the basis matrices.  With an empty basis the second operand is not a
    rank-3 array and numpy rejects the call. *)
Definition einsum_i_ijk (coefficients : list Qc) (basis : list mat)
  : result mat :=
  match zip_with mscale coefficients basis with
  | [] => Raise ValueError
  | t :: ts => Ok (fold_left madd ts t)
  end.

(** Element-wise arithmetic on arrays of equal rank. *)
Definition neg (a : array) : array :=
  match a with
  | Vec v => Vec (vneg v)
  | Mat m => Mat (mneg m)
  end.

Definition veq_close (rtol atol : Qc) (u v : vec) : bool :=
  Nat.eqb (length u) (length v)
  && forallb (fun p => isclose rtol atol (fst p) (snd p)) (combine u v).

(** [gs.allclose(a, b)]. *)
Definition allclose (rtol atol : Qc) (a b : array) : bool :=
  match a, b with
  | Vec u, Vec v => veq_close rtol atol u v
  | Mat A, Mat B =>
      Nat.eqb (length A) (length B)
      && forallb (fun p => veq_close rtol atol (fst p) (snd p)) (combine A B)
  | _, _ => false
  end.

End gs.

Import gs.
Local Open Scope Qc_scope.
Local Open Scope py_scope.
Local Open Scope string_scope.
Local Open Scope list_scope.

(** Rank-aware element-wise arithmetic of the backend on [array]. *)
Definition array_add (a b : array) : result array :=
  match a, b with
  | Vec u, Vec v => Ok (Vec (zip_with Qcplus u v))
  | Mat A, Mat B => Ok (Mat (madd A B))
  | _, _ => Raise ShapeError
  end.

Definition array_sub (a b : array) : result array :=
  match a, b with
  | Vec u, Vec v => Ok (Vec (zip_with Qcminus u v))
  | Mat A, Mat B => Ok (Mat (msub A B))
  | _, _ => Raise ShapeError
  end.

Definition array_scale (c : Qc) (a : array) : array :=
  match a with
  | Vec v => Vec (vscale c v)
  | Mat A => Mat (mscale c A)
  end.

(** [gs.sum(delta ** 2)]. *)
Definition sum_of_squares (a : array) : Qc :=
  match a with
  | Vec v => vsum (map (fun x => x * x) v)
  | Mat A => msum (map (map (fun x => x * x)) A)
  end.

Definition shape (a : array) : list nat :=
  match a with
  | Vec v => [length v]
  | Mat A => [nrows A; ncols A]
  end.

Definition flatten (a : array) : vec :=
  match a with
  | Vec v => v
  | Mat A => concat A
  end.

Fixpoint rows_of (r c : nat) (v : vec) : mat :=
  match r with
  | O => []
  | S r' => firstn c v :: rows_of r' c (skipn c v)
  end.

Definition reshape (v : vec) (sh : list nat) : array :=
  match sh with
  | [r; c] => Mat (rows_of r c v)
  | _ => Vec v
  end.

(* ------------------------------------------------------------------ *)
(** ** Collaborators *)
(* ------------------------------------------------------------------ *)

(** [geomstats.errors.check_parameter_accepted_values]. *)
Definition check_parameter_accepted_values
  (param : string) (accepted_values : list string) : result unit :=
  if existsb (String.eqb param) accepted_values then Ok tt
  else Raise ValueError.

(** Python's [sub in s] on strings: [sub] starts at some position of [s]. *)
Fixpoint str_contains (sub s : string) : bool :=
  String.prefix sub s
  || match s with
     | EmptyString => false
     | String _ s' => str_contains sub s'
     end.

(** [GeneralLinear.bracket(a, b) = a @ b - b @ a]. *)
Definition mat_bracket (x y : mat) : mat :=
  msub (matmul x y) (matmul y x).

Definition bracket (a b : array) : result array :=
  match a, b with
  | Mat x, Mat y => Ok (Mat (mat_bracket x y))
  | _, _ => Raise ShapeError
  end.

(** The Lie group: an external collaborator, seen through the attributes and
    methods the metric uses.  [regularize_tangent_vec_at_identity] receives
    the metric through its matrix at identity. *)
Record LieGroup : Type := {
  dim : nat;
  default_point_type : string;
  __str__ : string;
  identity : array;
  compose : array -> array -> array;
  inverse : array -> array;
  regularize : array -> array;
  regularize_tangent_vec_at_identity : array -> mat -> array;
  tangent_translation_map : array -> string -> bool -> array -> array;
  jacobian_translation : array -> string -> mat;
  group_exp : array -> array;
  group_log : array -> array;
  to_tangent : array -> array -> array
}.

(** The Lie-algebra basis provider (the constructor's [algebra] argument). *)
Record LieAlgebra : Type := {
  orthonormal_basis : mat -> list mat;
  reshape_metric_matrix : mat -> mat
}.

(** Which class an instance belongs to; decides the two overridden methods. *)
Inductive metric_class : Type :=
| InvariantMetric_cls
| BiInvariantMetric_cls.

(** The attributes [__init__] stores on [self]. *)
Record InvariantMetric : Type := {
  cls : metric_class;
  group : LieGroup;
  lie_algebra : option LieAlgebra;
  metric_mat_at_identity : mat;
  left_or_right : string;
  signature : nat * nat * nat
}.

(** The rest of the environment: backend defaults and routines that have no
    exact rational implementation, the parent class, the optimizer and the
    global random generator. *)
Class Environment : Type := {
  (** default tolerances of [gs.isclose] and [gs.allclose] *)
  rtol : Qc;
  atol : Qc;
  (** [Matrices.is_diagonal] *)
  is_diagonal : mat -> bool;
  (** [GeneralLinear.inverse] *)
  linalg_inv : mat -> mat;
  (** [gs.linalg.sqrtm] and [gs.linalg.eigvalsh] *)
  linalg_sqrtm : mat -> mat;
  linalg_eigvalsh : mat -> vec;
  (** [RiemannianMetric.inner_product], reached through [super()] *)
  super_inner_product :
    InvariantMetric -> array -> array -> array -> result Qc;
  (** the global generator behind [gs.random.rand] *)
  rng : Type;
  random_rand : list nat -> rng -> array * rng;
  (** [gs.autograd.value_and_grad] *)
  value_and_grad : (vec -> result Qc) -> vec -> result (Qc * vec);
  (** [scipy.optimize.minimize(fun, x0, method='L-BFGS-B', jac=True,
      options={'maxiter': max_iter}, tol=tol)], returning [res.x] *)
  minimize : (vec -> result (Qc * vec)) -> vec -> nat -> Qc -> result vec
}.

(* ------------------------------------------------------------------ *)
(** ** The integrator *)
(* ------------------------------------------------------------------ *)

(** Modelled from the spec: [geomstats.integrator.integrate] is not among the
    sources.  The spec describes it as a fixed-step integrator run for
    [n_steps] on the state [(position, velocity)], advancing the velocity by
    the supplied law and the position by the group's transport law, pluggable
    by name ("euler", "group_rk2", "group_rk4": one, two and four evaluations
    of the law per step), and returning the trajectory.  The step size is
    [end_time / n_steps] with [end_time = 1]. *)
Module integrator.

Definition state : Type := (array * array)%type.
Definition law : Type := array -> array -> result array.

(** Position update: [point . exp(dt * velocity)]. *)
Definition transport (G : LieGroup) (point : array) (dt : Qc)
  (velocity : array) : array :=
  compose G point (group_exp G (array_scale dt velocity)).

Definition euler_step (G : LieGroup) (force : law) (st : state) (dt : Qc)
  : result state :=
  let '(point, vector) := st in
  k1 <- force point vector ;;
  vector_new <- array_add vector (array_scale dt k1) ;;
  Ok (transport G point dt vector, vector_new).

Definition group_rk2_step (G : LieGroup) (force : law) (st : state) (dt : Qc)
  : result state :=
  let '(point, vector) := st in
  k1 <- force point vector ;;
  l2 <- array_add vector (array_scale (dt / Q2Qc 2) k1) ;;
  k2 <- force point l2 ;;
  vector_new <- array_add vector (array_scale dt k2) ;;
  Ok (transport G point dt l2, vector_new).

Definition group_rk4_step (G : LieGroup) (force : law) (st : state) (dt : Qc)
  : result state :=
  let '(point, vector) := st in
  let half := dt / Q2Qc 2 in
  let sixth := dt / Q2Qc 6 in
  k1 <- force point vector ;;
  l2 <- array_add vector (array_scale half k1) ;;
  k2 <- force point l2 ;;
  l3 <- array_add vector (array_scale half k2) ;;
  k3 <- force point l3 ;;
  l4 <- array_add vector (array_scale dt k3) ;;
  k4 <- force point l4 ;;
  k12 <- array_add k1 (array_scale (Q2Qc 2) k2) ;;
  k123 <- array_add k12 (array_scale (Q2Qc 2) k3) ;;
  k <- array_add k123 k4 ;;
  l12 <- array_add vector (array_scale (Q2Qc 2) l2) ;;
  l123 <- array_add l12 (array_scale (Q2Qc 2) l3) ;;
  l <- array_add l123 l4 ;;
  vector_new <- array_add vector (array_scale sixth k) ;;
  Ok (transport G point sixth l, vector_new).

Definition step_function (step : string)
  : result (LieGroup -> law -> state -> Qc -> result state) :=
  if String.eqb step "euler" then Ok euler_step
  else if String.eqb step "group_rk2" then Ok group_rk2_step
  else if String.eqb step "group_rk4" then Ok group_rk4_step
  else Raise ValueError.

(** The loop: [n] steps from [st], collecting the positions reached. *)
Fixpoint run (stepf : state -> result state) (n : nat) (st : state)
  : result (list array) :=
  match n with
  | O => Ok []
  | S n' =>
      st' <- stepf st ;;
      rest <- run stepf n' st' ;;
      Ok (fst st' :: rest)
  end.

Definition integrate (force : law) (initial_state : state) (n_steps : nat)
  (step : string) (G : LieGroup) : result (list array) :=
  stepf <- step_function step ;;
  let dt := 1 / Q2Qc (Z.of_nat n_steps # 1) in
  positions <- run (fun st => stepf G force st dt) n_steps initial_state ;;
  Ok (fst initial_state :: positions).

End integrator.

(* ------------------------------------------------------------------ *)
(** ** [InvariantMetric] *)
(* ------------------------------------------------------------------ *)

Definition EPSILON : Qc := Q2Qc (1 # 1000000).

Section Methods.

Context {env : Environment}.

Definition count (p : Qc -> bool) (v : vec) : nat :=
  length (filter p v).

(** [InvariantMetric.__init__(group, algebra, metric_mat_at_identity,
    left_or_right)]; [None] for the matrix means the keyword was left at its
    default.  [klass] records the class being instantiated. *)
Definition InvariantMetric_init (klass : metric_class) (G : LieGroup)
  (algebra : option LieAlgebra) (metric_mat : option mat)
  (lr : string) : result InvariantMetric :=
  let metric_mat :=
    match metric_mat with
    | None => eye (dim G)
    | Some M => M
    end in
  check_parameter_accepted_values lr ["left"; "right"] ;;;
  let eigenvalues := linalg_eigvalsh metric_mat in
  let n_pos_eigval := count (fun e => greater e 0) eigenvalues in
  let n_neg_eigval := count (fun e => less e 0) eigenvalues in
  let n_null_eigval := count (fun e => isclose rtol atol e 0) eigenvalues in
  Ok {| cls := klass;
        group := G;
        lie_algebra := algebra;
        metric_mat_at_identity := metric_mat;
        left_or_right := lr;
        signature := (n_pos_eigval, n_null_eigval, n_neg_eigval) |}.

(** [self.lie_algebra.<attr>]: attribute access fails on [None]. *)
Definition getattr_lie_algebra (self : InvariantMetric) : result LieAlgebra :=
  match lie_algebra self with
  | Some algebra => Ok algebra
  | None => Raise AttributeError
  end.

Definition inner_product_at_identity (self : InvariantMetric)
  (tangent_vec_a tangent_vec_b : array) : result Qc :=
  check_parameter_accepted_values
    (default_point_type (group self)) ["vector"; "matrix"] ;;;
  if String.eqb (default_point_type (group self)) "vector" then
    let inner_product_mat_at_identity := metric_mat_at_identity self in
    inner_prod <- einsum_i_ij tangent_vec_a inner_product_mat_at_identity ;;
    einsum_j_j inner_prod tangent_vec_b
  else
    match tangent_vec_a, tangent_vec_b with
    | Mat a, Mat b =>
        let aux_prod := hadamard a b in
        let metric_mat := metric_mat_at_identity self in
        let aux_prod :=
          match lie_algebra self with
          | Some algebra =>
              if is_diagonal metric_mat
              then hadamard aux_prod (reshape_metric_matrix algebra metric_mat)
              else aux_prod
          | None => aux_prod
          end in
        Ok (msum aux_prod)
    | _, _ => Raise ShapeError
    end.

Definition inner_product (self : InvariantMetric)
  (tangent_vec_a tangent_vec_b : array) (base_point : option array)
  : result Qc :=
  match base_point with
  | None => inner_product_at_identity self tangent_vec_a tangent_vec_b
  | Some base_point =>
      if String.eqb (default_point_type (group self)) "vector" then
        super_inner_product self tangent_vec_a tangent_vec_b base_point
      else
        let tangent_translation :=
          tangent_translation_map (group self) base_point
            (left_or_right self) true in
        let tangent_vec_a_at_id := tangent_translation tangent_vec_a in
        let tangent_vec_b_at_id := tangent_translation tangent_vec_b in
        inner_product_at_identity self tangent_vec_a_at_id tangent_vec_b_at_id
  end.

(** Modelled from the spec: [squared_norm] is inherited from
    [RiemannianMetric], which is not among the sources; the spec's
    squared norm of [x] is the inner product of [x] with itself. *)
Definition squared_norm (self : InvariantMetric) (vector : array)
  (base_point : option array) : result Qc :=
  inner_product self vector vector base_point.

Definition metric_matrix (self : InvariantMetric) (base_point : option array)
  : result mat :=
  if String.eqb (default_point_type (group self)) "matrix" then
    Raise NotImplementedError
  else
    let base_point :=
      match base_point with
      | None => identity (group self)
      | Some p => regularize (group self) p
      end in
    let jacobian :=
      jacobian_translation (group self) base_point (left_or_right self) in
    let inv_jacobian := linalg_inv jacobian in
    let inv_jacobian_transposed := transpose inv_jacobian in
    let metric_mat :=
      matmul inv_jacobian_transposed (metric_mat_at_identity self) in
    let metric_mat := matmul metric_mat inv_jacobian in
    Ok metric_mat.

(** Modelled from the spec: [RiemannianMetric.inner_product], the method
    [inner_product] reaches through [super()] on a vector-type group, is not
    among the sources.  The spec's [metric_matrix(base_point)] is the
    bilinear form of the metric at [base_point]; the parent's inner product of
    two vectors is that bilinear form applied to them. *)
Definition RiemannianMetric_inner_product (self : InvariantMetric)
  (tangent_vec_a tangent_vec_b base_point : array) : result Qc :=
  inner_prod_mat <- metric_matrix self (Some base_point) ;;
  aux <- einsum_i_ij tangent_vec_a inner_prod_mat ;;
  einsum_j_j aux tangent_vec_b.

Definition structure_constant (self : InvariantMetric)
  (tangent_vec_a tangent_vec_b tangent_vec_c : array) : result Qc :=
  bracket_ab <- bracket tangent_vec_a tangent_vec_b ;;
  inner_product_at_identity self bracket_ab tangent_vec_c.

Definition dual_adjoint (self : InvariantMetric)
  (tangent_vec_a tangent_vec_b : array) : result array :=
  algebra <- getattr_lie_algebra self ;;
  let basis := orthonormal_basis algebra (metric_mat_at_identity self) in
  coefficients <-
    comprehension
      (fun tan => structure_constant self (Mat tan) tangent_vec_a tangent_vec_b)
      basis ;;
  combination <- einsum_i_ijk coefficients basis ;;
  Ok (Mat (mneg combination)).

Definition connection_at_identity (self : InvariantMetric)
  (tangent_vec_a tangent_vec_b : array) : result array :=
  bracket_ab <- bracket tangent_vec_a tangent_vec_b ;;
  ad_ab <- dual_adjoint self tangent_vec_a tangent_vec_b ;;
  diff <- array_sub bracket_ab ad_ab ;;
  ad_ba <- dual_adjoint self tangent_vec_b tangent_vec_a ;;
  diff <- array_sub diff ad_ba ;;
  Ok (array_scale (1 / Q2Qc 2) diff).

Definition connection (self : InvariantMetric)
  (tangent_vec_a tangent_vec_b : array) (base_point : option array)
  : result array :=
  match base_point with
  | None => connection_at_identity self tangent_vec_a tangent_vec_b
  | Some base_point =>
      let translation_map :=
        tangent_translation_map (group self) base_point
          (left_or_right self) true in
      let tan_a_at_id := translation_map tangent_vec_a in
      let tan_b_at_id := translation_map tangent_vec_b in
      let translation_map :=
        tangent_translation_map (group self) base_point
          (left_or_right self) false in
      value_at_id <- connection_at_identity self tan_a_at_id tan_b_at_id ;;
      Ok (translation_map value_at_id)
  end.

Definition curvature_at_identity (self : InvariantMetric)
  (tangent_vec_a tangent_vec_b tangent_vec_c : array) : result array :=
  bracket_ab <- bracket tangent_vec_a tangent_vec_b ;;
  bracket_term <- connection_at_identity self bracket_ab tangent_vec_c ;;
  nabla_bc <- connection_at_identity self tangent_vec_b tangent_vec_c ;;
  left_term <- connection_at_identity self tangent_vec_a nabla_bc ;;
  nabla_ac <- connection_at_identity self tangent_vec_a tangent_vec_c ;;
  right_term <- connection_at_identity self tangent_vec_b nabla_ac ;;
  diff <- array_sub bracket_term left_term ;;
  array_add diff right_term.

Definition curvature (self : InvariantMetric)
  (tangent_vec_a tangent_vec_b tangent_vec_c : array)
  (base_point : option array) : result array :=
  match base_point with
  | None =>
      curvature_at_identity self tangent_vec_a tangent_vec_b tangent_vec_c
  | Some base_point =>
      let translation_map :=
        tangent_translation_map (group self) base_point
          (left_or_right self) true in
      let tan_a_at_id := translation_map tangent_vec_a in
      let tan_b_at_id := translation_map tangent_vec_b in
      let tan_c_at_id := translation_map tangent_vec_c in
      let translation_map :=
        tangent_translation_map (group self) base_point
          (left_or_right self) false in
      value_at_id <-
        curvature_at_identity self tan_a_at_id tan_b_at_id tan_c_at_id ;;
      Ok (translation_map value_at_id)
  end.

Definition sectional_curvature_at_identity (self : InvariantMetric)
  (tangent_vec_a tangent_vec_b : array) : result Qc :=
  curvature <-
    curvature_at_identity self tangent_vec_a tangent_vec_b tangent_vec_a ;;
  num <- inner_product self tangent_vec_b curvature None ;;
  sq_norm_a <- squared_norm self tangent_vec_a None ;;
  sq_norm_a' <- squared_norm self tangent_vec_a None ;;
  inner_ab <- inner_product self tangent_vec_a tangent_vec_b None ;;
  let denom := sq_norm_a * sq_norm_a' - inner_ab * inner_ab in
  let condition := isclose rtol atol denom 0 in
  let denom := where_ condition EPSILON denom in
  quotient <- divide num denom ;;
  Ok (where_ (negb condition) quotient 0).

Definition sectional_curvature (self : InvariantMetric)
  (tangent_vec_a tangent_vec_b : array) (base_point : option array)
  : result Qc :=
  match base_point with
  | None => sectional_curvature_at_identity self tangent_vec_a tangent_vec_b
  | Some base_point =>
      let translation_map :=
        tangent_translation_map (group self) base_point
          (left_or_right self) true in
      let tan_a_at_id := translation_map tangent_vec_a in
      let tan_b_at_id := translation_map tangent_vec_b in
      sectional_curvature_at_identity self tan_a_at_id tan_b_at_id
  end.

Definition curvature_derivative_at_identity (self : InvariantMetric)
  (tangent_vec_a tangent_vec_b tangent_vec_c tangent_vec_d : array)
  : result array :=
  curv_bcd <-
    curvature_at_identity self tangent_vec_b tangent_vec_c tangent_vec_d ;;
  first_term <- connection_at_identity self tangent_vec_a curv_bcd ;;
  nabla_ab <- connection_at_identity self tangent_vec_a tangent_vec_b ;;
  second_term <-
    curvature_at_identity self nabla_ab tangent_vec_c tangent_vec_d ;;
  nabla_ac <- connection_at_identity self tangent_vec_a tangent_vec_c ;;
  third_term <-
    curvature_at_identity self tangent_vec_b nabla_ac tangent_vec_d ;;
  nabla_ad <- connection_at_identity self tangent_vec_a tangent_vec_d ;;
  fourth_term <-
    curvature_at_identity self tangent_vec_b tangent_vec_c nabla_ad ;;
  diff <- array_sub first_term second_term ;;
  diff <- array_sub diff third_term ;;
  array_sub diff fourth_term.

Definition curvature_derivative (self : InvariantMetric)
  (tangent_vec_a tangent_vec_b tangent_vec_c tangent_vec_d : array)
  (base_point : option array) : result array :=
  match base_point with
  | None =>
      curvature_derivative_at_identity self
        tangent_vec_a tangent_vec_b tangent_vec_c tangent_vec_d
  | Some base_point =>
      let translation_map :=
        tangent_translation_map (group self) base_point
          (left_or_right self) true in
      let tan_a_at_id := translation_map tangent_vec_a in
      let tan_b_at_id := translation_map tangent_vec_b in
      let tan_c_at_id := translation_map tangent_vec_c in
      let tan_d_at_id := translation_map tangent_vec_d in
      value_at_id <-
        curvature_derivative_at_identity self
          tan_a_at_id tan_b_at_id tan_c_at_id tan_d_at_id ;;
      let translation_map :=
        tangent_translation_map (group self) base_point
          (left_or_right self) false in
      Ok (translation_map value_at_id)
  end.

Definition left_exp_from_identity (self : InvariantMetric)
  (tangent_vec : array) : result array :=
  let tangent_vec :=
    regularize_tangent_vec_at_identity (group self) tangent_vec
      (metric_mat_at_identity self) in
  let sqrt_inner_product_mat := linalg_sqrtm (metric_mat_at_identity self) in
  let mat := transpose sqrt_inner_product_mat in
  exp <- einsum_i_ij tangent_vec mat ;;
  Ok (regularize (group self) exp).

Definition exp_from_identity (self : InvariantMetric) (tangent_vec : array)
  : result array :=
  exp <-
    (if String.eqb (left_or_right self) "left" then
       left_exp_from_identity self tangent_vec
     else
       opp_left_exp <- left_exp_from_identity self (neg tangent_vec) ;;
       Ok (inverse (group self) opp_left_exp)) ;;
  Ok (regularize (group self) exp).

(** [BiInvariantMetric.exp_from_identity] and [log_from_identity]. *)
Definition BiInvariantMetric_exp_from_identity (self : InvariantMetric)
  (tangent_vec : array) : result array :=
  Ok (group_exp (group self) tangent_vec).

Definition BiInvariantMetric_log_from_identity (self : InvariantMetric)
  (point : array) : result array :=
  Ok (group_log (group self) point).

(** [self.exp_from_identity(...)]: resolved on the class of the instance. *)
Definition self_exp_from_identity (self : InvariantMetric)
  (tangent_vec : array) : result array :=
  match cls self with
  | InvariantMetric_cls => exp_from_identity self tangent_vec
  | BiInvariantMetric_cls => BiInvariantMetric_exp_from_identity self tangent_vec
  end.

Definition exp (self : InvariantMetric) (tangent_vec : array)
  (base_point : option array) : result array :=
  let identity := identity (group self) in
  let base_point :=
    match base_point with
    | None => identity
    | Some p => p
    end in
  let base_point := regularize (group self) base_point in
  if allclose rtol atol base_point identity then
    self_exp_from_identity self tangent_vec
  else
    let tangent_vec_at_id :=
      tangent_translation_map (group self) base_point
        (left_or_right self) true tangent_vec in
    exp_from_id <- self_exp_from_identity self tangent_vec_at_id ;;
    let exp :=
      if String.eqb (left_or_right self) "left" then
        compose (group self) base_point exp_from_id
      else
        compose (group self) exp_from_id base_point in
    Ok (regularize (group self) exp).

Definition left_log_from_identity (self : InvariantMetric) (point : array)
  : result array :=
  let point := regularize (group self) point in
  let inner_prod_mat := metric_mat_at_identity self in
  let inv_inner_prod_mat := linalg_inv inner_prod_mat in
  let sqrt_inv_inner_prod_mat := linalg_sqrtm inv_inner_prod_mat in
  log <- einsum_i_ij point sqrt_inv_inner_prod_mat ;;
  Ok (regularize_tangent_vec_at_identity (group self) log
        (metric_mat_at_identity self)).

Definition log_from_identity (self : InvariantMetric) (point : array)
  : result array :=
  let point := regularize (group self) point in
  if String.eqb (left_or_right self) "left" then
    left_log_from_identity self point
  else
    let inv_point := inverse (group self) point in
    left_log <- left_log_from_identity self inv_point ;;
    Ok (neg left_log).

Definition self_log_from_identity (self : InvariantMetric) (point : array)
  : result array :=
  match cls self with
  | InvariantMetric_cls => log_from_identity self point
  | BiInvariantMetric_cls => BiInvariantMetric_log_from_identity self point
  end.

Definition log (self : InvariantMetric) (point : array)
  (base_point : option array) : result array :=
  let identity := identity (group self) in
  let base_point :=
    match base_point with
    | None => identity
    | Some p => regularize (group self) p
    end in
  if allclose rtol atol base_point identity then
    self_log_from_identity self point
  else
    let point := regularize (group self) point in
    let point_near_id :=
      if String.eqb (left_or_right self) "left" then
        compose (group self) (inverse (group self) base_point) point
      else
        compose (group self) point (inverse (group self) base_point) in
    log_from_id <- self_log_from_identity self point_near_id ;;
    Ok (tangent_translation_map (group self) base_point
          (left_or_right self) false log_from_id).

(** The velocity law of [euler_poincarre_geodesic]. *)
Definition lie_acceleration (self : InvariantMetric) (basis : list mat)
  (_ vector : array) : result array :=
  coefficients <-
    comprehension
      (fun basis_vector =>
         structure_constant self vector (Mat basis_vector) vector)
      basis ;;
  acceleration <- einsum_i_ijk coefficients basis ;;
  Ok (Mat acceleration).

Definition euler_poincarre_geodesic (self : InvariantMetric)
  (tangent_vec base_point : array) (n_steps : nat) (step : string)
  : result array :=
  let group := group self in
  algebra <- getattr_lie_algebra self ;;
  let basis := orthonormal_basis algebra (metric_mat_at_identity self) in
  let left_angular_vel :=
    compose group (inverse group base_point) tangent_vec in
  let initial_state := (base_point, regularize group left_angular_vel) in
  flow <-
    integrator.integrate (lie_acceleration self basis) initial_state
      n_steps step group ;;
  Ok (last flow base_point).

(** [euler_poincarre_log] draws its initial guess from the global generator:
    the generator state is threaded through the call. *)
Definition euler_poincarre_log (self : InvariantMetric)
  (point base_point : array) (n_steps : nat) (step : string)
  (max_iter : nat) (tol : Qc) (generator : rng) : result array * rng :=
  let max_shape := shape base_point in
  let objective (velocity : vec) : result Qc :=
    let velocity := reshape velocity max_shape in
    endpoint <-
      euler_poincarre_geodesic self velocity base_point n_steps step ;;
    delta <- array_sub endpoint point ;;
    Ok (sum_of_squares delta) in
  let objective_with_grad := value_and_grad objective in
  let '(sample, generator) := random_rand max_shape generator in
  let tangent_vec := flatten sample in
  (res_x <- minimize objective_with_grad tangent_vec max_iter tol ;;
   let tangent_vec := reshape res_x max_shape in
   Ok (to_tangent (group self) tangent_vec base_point),
   generator).

(* ------------------------------------------------------------------ *)
(** ** [BiInvariantMetric] *)
(* ------------------------------------------------------------------ *)

Definition BiInvariantMetric_init (G : LieGroup) : result InvariantMetric :=
  self <-
    InvariantMetric_init BiInvariantMetric_cls G None
      (Some (eye (dim G))) "left" ;;
  let cond :=
    negb (str_contains "SpecialOrthogonal" (__str__ G))
    && negb (str_contains "SO" (__str__ G))
    && negb (str_contains "SpecialOrthogonal3" (__str__ G)) in
  if cond then Raise ValueError else Ok self.

(* ------------------------------------------------------------------ *)
(** ** The public interface as a whole *)
(* ------------------------------------------------------------------ *)

(** A call of a public method with its arguments. *)
Inductive call : Type :=
| Inner_product_at_identity (a b : array)
| Inner_product (a b : array) (base_point : option array)
| Metric_matrix (base_point : option array)
| Structure_constant (a b c : array)
| Dual_adjoint (a b : array)
| Connection_at_identity (a b : array)
| Connection (a b : array) (base_point : option array)
| Curvature_at_identity (a b c : array)
| Curvature (a b c : array) (base_point : option array)
| Sectional_curvature_at_identity (a b : array)
| Sectional_curvature (a b : array) (base_point : option array)
| Curvature_derivative_at_identity (a b c d : array)
| Curvature_derivative (a b c d : array) (base_point : option array)
| Left_exp_from_identity (tangent_vec : array)
| Exp_from_identity (tangent_vec : array)
| Exp (tangent_vec : array) (base_point : option array)
| Left_log_from_identity (point : array)
| Log_from_identity (point : array)
| Log (point : array) (base_point : option array)
| Euler_poincarre_geodesic (tangent_vec base_point : array)
    (n_steps : nat) (step : string)
| Euler_poincarre_log (point base_point : array)
    (n_steps : nat) (step : string) (max_iter : nat) (tol : Qc).

Inductive value : Type :=
| Scalar (q : Qc)
| Array (a : array).

Definition scalar (r : result Qc) : result value :=
  x <- r ;; Ok (Scalar x).
Definition arr (r : result array) : result value :=
  x <- r ;; Ok (Array x).

(** Running a call on a metric, from a state of the process (the global
    random generator) to a result and the state the next call will find. *)
Definition perform (self : InvariantMetric) (c : call) (generator : rng)
  : result value * rng :=
  match c with
  | Inner_product_at_identity a b =>
      (scalar (inner_product_at_identity self a b), generator)
  | Inner_product a b p => (scalar (inner_product self a b p), generator)
  | Metric_matrix p =>
      (m <- metric_matrix self p ;; Ok (Array (Mat m)), generator)
  | Structure_constant a b c =>
      (scalar (structure_constant self a b c), generator)
  | Dual_adjoint a b => (arr (dual_adjoint self a b), generator)
  | Connection_at_identity a b =>
      (arr (connection_at_identity self a b), generator)
  | Connection a b p => (arr (connection self a b p), generator)
  | Curvature_at_identity a b c =>
      (arr (curvature_at_identity self a b c), generator)
  | Curvature a b c p => (arr (curvature self a b c p), generator)
  | Sectional_curvature_at_identity a b =>
      (scalar (sectional_curvature_at_identity self a b), generator)
  | Sectional_curvature a b p =>
      (scalar (sectional_curvature self a b p), generator)
  | Curvature_derivative_at_identity a b c d =>
      (arr (curvature_derivative_at_identity self a b c d), generator)
  | Curvature_derivative a b c d p =>
      (arr (curvature_derivative self a b c d p), generator)
  | Left_exp_from_identity v =>
      (arr (left_exp_from_identity self v), generator)
  | Exp_from_identity v => (arr (self_exp_from_identity self v), generator)
  | Exp v p => (arr (exp self v p), generator)
  | Left_log_from_identity q =>
      (arr (left_log_from_identity self q), generator)
  | Log_from_identity q => (arr (self_log_from_identity self q), generator)
  | Log q p => (arr (log self q p), generator)
  | Euler_poincarre_geodesic v p n step =>
      (arr (euler_poincarre_geodesic self v p n step), generator)
  | Euler_poincarre_log q p n step max_iter tol =>
      let '(r, generator) :=
        euler_poincarre_log self q p n step max_iter tol generator in
      (arr r, generator)
  end.

End Methods.

(* ------------------------------------------------------------------ *)
(** ** The curvature engine read on matrices *)
(* ------------------------------------------------------------------ *)

(** On a matrix-type group with a basis provider, every intermediate value of
    the curvature engine is a matrix; these are the same computations with
    the error plumbing removed.  They are related to the methods above by the
    [*_Mat] lemmas below. *)
Section MatrixReading.

Context {env : Environment}.
Variable self : InvariantMetric.
Variable basis : list mat.

Definition ip_mat (a b : mat) : Qc :=
  let aux_prod := hadamard a b in
  let metric_mat := metric_mat_at_identity self in
  msum
    match lie_algebra self with
    | Some algebra =>
        if is_diagonal metric_mat
        then hadamard aux_prod (reshape_metric_matrix algebra metric_mat)
        else aux_prod
    | None => aux_prod
    end.

Definition lincomb (coefficients : list Qc) (bs : list mat) : mat :=
  match zip_with mscale coefficients bs with
  | [] => []
  | t :: ts => fold_left madd ts t
  end.

Definition dual_adjoint_mat (a b : mat) : mat :=
  mneg (lincomb (map (fun tan => ip_mat (mat_bracket tan a) b) basis) basis).

Definition connection_mat (a b : mat) : mat :=
  mscale (1 / Q2Qc 2)
    (msub (msub (mat_bracket a b) (dual_adjoint_mat a b))
          (dual_adjoint_mat b a)).

Definition curvature_mat (a b c : mat) : mat :=
  madd
    (msub (connection_mat (mat_bracket a b) c)
          (connection_mat a (connection_mat b c)))
    (connection_mat b (connection_mat a c)).

Definition acceleration_mat (v : mat) : mat :=
  lincomb (map (fun e => ip_mat (mat_bracket v e) v) basis) basis.

End MatrixReading.

(** The row vector [v] times the first [c] columns of [A]: the vector the
    first einsum of [inner_product_at_identity] and the closed-form
    exponential and logarithm compute. *)
Definition rowvec_mat (c : nat) (v : vec) (A : mat) : vec :=
  map (fun j => vdot v (column A j)) (seq 0 c).

(** Shapes and zero matrices. *)
Definition has_shape (r c : nat) (A : mat) : Prop :=
  length A = r /\ Forall (fun row => length row = c) A.

Definition all_zero (A : mat) : Prop :=
  Forall (Forall (fun x => x = 0)) A.

(** A metric on a matrix-type group of [n x n] matrices, configured with a
    basis provider whose basis is non-empty and made of [n x n] matrices. *)
Definition matrix_metric_ready (self : InvariantMetric)
  (algebra : LieAlgebra) (n : nat) : Prop :=
  default_point_type (group self) = "matrix"
  /\ lie_algebra self = Some algebra
  /\ orthonormal_basis algebra (metric_mat_at_identity self) <> []
  /\ Forall (has_shape n n)
       (orthonormal_basis algebra (metric_mat_at_identity self))
  /\ has_shape n n
       (reshape_metric_matrix algebra (metric_mat_at_identity self)).

(** The sectional curvature as the specification words it: the inner product
    of [R(x, y)x] with [y] over the squared norm of [x] times the squared norm
    of [y] minus the squared inner product of [x] and [y], and [0] when that
    denominator is within [1e-6] of zero. *)
Definition sectional_curvature_at_identity_spec {env : Environment}
  (self : InvariantMetric) (x y : array) : result Qc :=
  curvature <- curvature_at_identity self x y x ;;
  num <- inner_product_at_identity self curvature y ;;
  sq_norm_x <- inner_product_at_identity self x x ;;
  sq_norm_y <- inner_product_at_identity self y y ;;
  inner_xy <- inner_product_at_identity self x y ;;
  let denom := sq_norm_x * sq_norm_y - inner_xy * inner_xy in
  if leb (Qcabs denom) EPSILON then Ok 0 else divide num denom.

(** Python's [sub in s], declaratively. *)
Definition mentions (sub s : string) : Prop :=
  exists pre post : string, s = (pre ++ sub ++ post)%string.

(** The calls that reach the Lie-algebra basis provider. *)
Definition needs_algebra (c : call) : bool :=
  match c with
  | Dual_adjoint _ _
  | Connection_at_identity _ _
  | Connection _ _ _
  | Curvature_at_identity _ _ _
  | Curvature _ _ _ _
  | Sectional_curvature_at_identity _ _
  | Sectional_curvature _ _ _
  | Curvature_derivative_at_identity _ _ _ _
  | Curvature_derivative _ _ _ _ _
  | Euler_poincarre_geodesic _ _ _ _
  | Euler_poincarre_log _ _ _ _ _ _ => true
  | _ => false
  end.

(** The inner-product, metric-matrix and closed-form exp / log calls. *)
Definition inner_product_or_closed_form (c : call) : bool :=
  match c with
  | Inner_product_at_identity _ _
  | Inner_product _ _ _
  | Metric_matrix _
  | Left_exp_from_identity _
  | Exp_from_identity _
  | Exp _ _
  | Left_log_from_identity _
  | Log_from_identity _
  | Log _ _ => true
  | _ => false
  end.


(** The call raised: it returned no value. *)
Definition raises {A : Type} (r : result A) : Prop :=
  exists e : exn, r = Raise e.

(** [X] is the inverse of the [n x n] matrix [A]. *)
Definition is_inverse_of (n : nat) (X A : mat) : Prop :=
  has_shape n n X /\ matmul A X = eye n.

(** [S] is the principal square root of the [n x n] matrix [A]: the symmetric
    positive semi-definite matrix whose square is [A]. *)
Definition apply_mat (S : mat) (v : vec) : vec :=
  map (fun row => vdot row v) S.

Definition principal_sqrt (n : nat) (S A : mat) : Prop :=
  has_shape n n S
  /\ transpose S = S
  /\ (forall v : vec, length v = n -> 0 <= vdot v (apply_mat S v))
  /\ matmul S S = A.

(** Decidable equality on values of the model, for evaluating it. *)
Definition vec_eqb (u v : vec) : bool :=
  Nat.eqb (length u) (length v)
  && forallb (fun p => Qc_eq_bool (fst p) (snd p)) (combine u v).

Definition mat_eqb (A B : mat) : bool :=
  Nat.eqb (length A) (length B)
  && forallb (fun p => vec_eqb (fst p) (snd p)) (combine A B).

Definition array_eqb (a b : array) : bool :=
  match a, b with
  | Vec u, Vec v => vec_eqb u v
  | Mat A, Mat B => mat_eqb A B
  | _, _ => false
  end.

Definition scalar_result_eqb (r : result Qc) (q : Qc) : bool :=
  match r with
  | Ok x => Qc_eq_bool x q
  | Raise _ => false
  end.

Definition array_result_eqb (r : result array) (a : array) : bool :=
  match r with
  | Ok x => array_eqb x a
  | Raise _ => false
  end.

(* ------------------------------------------------------------------ *)
(** ** The curvature engine in binary64 arithmetic *)
(* ------------------------------------------------------------------ *)

(** The methods of the curvature engine with the floating-point numbers of
    the source read as IEEE-754 binary64 values (the kernel's primitive
    floats: every operation rounds to nearest, ties to even, as numpy's
    [float64] does).  This is the branch each method takes on a matrix-type
    metric with a basis provider, operation for operation and in the order
    of the source; on that branch no exception arises for square matrices of
    one size, and a float division never raises, so results are plain
    values.  Sums run over the entries in index order. *)
Module binary64.

Import PrimFloat.
Local Open Scope float_scope.

Definition vec := list float.
Definition mat := list vec.

Definition vsum (v : vec) : float := fold_right add 0 v.
Definition vdot (u v : vec) : float := vsum (gs.zip_with mul u v).
Definition vscale (c : float) (v : vec) : vec := map (mul c) v.

Definition ncols (A : mat) : nat := length (hd [] A).
Definition column (A : mat) (j : nat) : vec := map (fun row => nth j row 0) A.

Definition matmul (A B : mat) : mat :=
  map (fun row => map (fun j => vdot row (column B j)) (seq 0 (ncols B))) A.

Definition madd (A B : mat) : mat := gs.zip_with (gs.zip_with add) A B.
Definition msub (A B : mat) : mat := gs.zip_with (gs.zip_with sub) A B.
Definition hadamard (A B : mat) : mat := gs.zip_with (gs.zip_with mul) A B.
Definition mneg (A : mat) : mat := map (map opp) A.
Definition mscale (c : float) (A : mat) : mat := map (vscale c) A.
Definition msum (A : mat) : float := vsum (map vsum A).

(** [gs.isclose(a, b)]: [|a - b| <= atol + rtol * |b|]. *)
Definition isclose (rtol atol a b : float) : bool :=
  abs (a - b) <=? atol + rtol * abs b.

Definition mat_bracket (x y : mat) : mat :=
  msub (matmul x y) (matmul y x).

(** What the methods read from [self]: the orthonormal basis the provider
    returns for the metric matrix, the reshaped metric matrix that multiplies
    the entry-wise product (present when the metric matrix is diagonal), and
    the default tolerances of the backend. *)
Record metric : Type := {
  basis : list mat;
  weights : option mat;
  rtol : float;
  atol : float
}.

Definition EPSILON : float := 1 / 1000000.

Section Engine.

Variable self : metric.

Definition inner_product_at_identity (tangent_vec_a tangent_vec_b : mat)
  : float :=
  let aux_prod := hadamard tangent_vec_a tangent_vec_b in
  let aux_prod :=
    match weights self with
    | Some w => hadamard aux_prod w
    | None => aux_prod
    end in
  msum aux_prod.

Definition structure_constant (tangent_vec_a tangent_vec_b tangent_vec_c : mat)
  : float :=
  let bracket := mat_bracket tangent_vec_a tangent_vec_b in
  inner_product_at_identity bracket tangent_vec_c.

(** [einsum('i...,ijk->...jk', coefficients, basis)]. *)
Definition lincomb (coefficients : list float) (bs : list mat) : mat :=
  match gs.zip_with mscale coefficients bs with
  | [] => []
  | t :: ts => fold_left madd ts t
  end.

Definition dual_adjoint (tangent_vec_a tangent_vec_b : mat) : mat :=
  mneg
    (lincomb
       (map (fun tan => structure_constant tan tangent_vec_a tangent_vec_b)
          (basis self))
       (basis self)).

Definition connection_at_identity (tangent_vec_a tangent_vec_b : mat) : mat :=
  mscale (1 / 2)
    (msub
       (msub (mat_bracket tangent_vec_a tangent_vec_b)
             (dual_adjoint tangent_vec_a tangent_vec_b))
       (dual_adjoint tangent_vec_b tangent_vec_a)).

Definition curvature_at_identity
  (tangent_vec_a tangent_vec_b tangent_vec_c : mat) : mat :=
  let bracket := mat_bracket tangent_vec_a tangent_vec_b in
  let bracket_term := connection_at_identity bracket tangent_vec_c in
  let left_term :=
    connection_at_identity tangent_vec_a
      (connection_at_identity tangent_vec_b tangent_vec_c) in
  let right_term :=
    connection_at_identity tangent_vec_b
      (connection_at_identity tangent_vec_a tangent_vec_c) in
  madd (msub bracket_term left_term) right_term.

(** The denominator [sectional_curvature_at_identity] computes, and the one
    its documentation and the specification describe. *)
Definition denominator (tangent_vec_a tangent_vec_b : mat) : float :=
  inner_product_at_identity tangent_vec_a tangent_vec_a
  * inner_product_at_identity tangent_vec_a tangent_vec_a
  - inner_product_at_identity tangent_vec_a tangent_vec_b
    * inner_product_at_identity tangent_vec_a tangent_vec_b.

Definition documented_denominator (x y : mat) : float :=
  inner_product_at_identity x x * inner_product_at_identity y y
  - inner_product_at_identity x y * inner_product_at_identity x y.

Definition sectional_curvature_at_identity (tangent_vec_a tangent_vec_b : mat)
  : float :=
  let curvature :=
    curvature_at_identity tangent_vec_a tangent_vec_b tangent_vec_a in
  let num := inner_product_at_identity tangent_vec_b curvature in
  let denom := denominator tangent_vec_a tangent_vec_b in
  let condition := isclose (rtol self) (atol self) denom 0 in
  let denom := if condition then EPSILON else denom in
  if negb condition then num / denom else 0.

End Engine.

(** The metric of the runs below: the algebra of the affine group of the
    line with the basis [E11], [E12], the identity metric matrix (reshaped to
    the matrix of ones) and numpy's default tolerances. *)
Definition affine_metric : metric := {|
  basis := [[[1; 0]; [0; 0]]; [[0; 1]; [0; 0]]];
  weights := Some [[1; 1]; [1; 1]];
  rtol := 1 / 100000;
  atol := 1 / 100000000
|}.

(** Two linearly dependent vectors of that algebra: [dependent_x] is
    [2^-30 [[123456789, 987654321], [0, 0]]] and [dependent_y] is
    [5 * dependent_x]; every entry is a binary64 value and the product by [5]
    is exact ([five_times_x] spells it out). *)
Definition dependent_x : mat :=
  mscale (1 / 1073741824) [[123456789; 987654321]; [0; 0]].

Definition dependent_y : mat := mscale 5 dependent_x.

Definition five_times_x : mat :=
  mscale (1 / 1073741824) [[617283945; 4938271605]; [0; 0]].

(** What the method returns on them, about [1.15e-16]. *)
Definition rounding_residue : float := 0x1.09c087cd7dd82p-53.

Definition zero : float := 0.

End binary64.

(* ------------------------------------------------------------------ *)
(** ** Concrete collaborators, for running the model *)
(* ------------------------------------------------------------------ *)

Module Concrete.

Definition z (n : Z) : Qc := Q2Qc (inject_Z n).
Definition frac (n : Z) (d : positive) : Qc := Q2Qc (n # d).

(** *** A small exact environment *)

Definition off_diagonal_zero (M : mat) : bool :=
  forallb
    (fun i =>
       forallb
         (fun j => Nat.eqb i j || Qc_eq_bool (nth j (nth i M []) 0) 0)
         (seq 0 (ncols M)))
    (seq 0 (nrows M)).

(** The inverse of a 2 x 2 matrix by cofactors (other shapes are returned
    unchanged: this environment is only run on 1 x 1 and 2 x 2 inputs). *)
Definition inv_small (M : mat) : mat :=
  match M with
  | [[a]] => [[1 / a]]
  | [[a; b]; [c; d]] =>
      let det := a * d - b * c in
      [[d / det; - b / det]; [- c / det; a / det]]
  | _ => M
  end.

(** Entry-wise square root of a non-negative rational with square numerator
    and denominator; on a diagonal matrix of such entries this is the
    principal matrix square root. *)
Definition sqrt_entry (x : Qc) : Qc :=
  Q2Qc (Z.sqrt (Qnum x) # Pos.sqrt (Qden x)).

Definition sqrt_entrywise (M : mat) : mat := map (map sqrt_entry) M.

Definition diagonal (M : mat) : vec :=
  map (fun i => nth i (nth i M []) 0) (seq 0 (nrows M)).

(** A parent-class inner product: the contraction of the two vectors with
    [metric_matrix(base_point)], computed with the given inverse. *)
Definition pullback_inner_product (inv : mat -> mat)
  (self : InvariantMetric) (a b base_point : array) : result Qc :=
  if String.eqb (default_point_type (group self)) "matrix" then
    Raise NotImplementedError
  else
    let p := regularize (group self) base_point in
    let J := inv (jacobian_translation (group self) p (left_or_right self)) in
    let M := matmul (matmul (transpose J) (metric_mat_at_identity self)) J in
    aux <- einsum_i_ij a M ;;
    einsum_j_j aux b.

Definition size (sh : list nat) : nat := fold_right Nat.mul 1%nat sh.

(** A counter as random generator: the n-th draw fills the array with n. *)
Definition counter_rand (sh : list nat) (n : nat) : array * nat :=
  (reshape (repeat (z (Z.of_nat n)) (size sh)) sh, S n).

(** An optimizer that evaluates its objective at the initial guess and
    returns the guess (zero iterations). *)
Definition evaluate_once (f : vec -> result (Qc * vec)) (x0 : vec)
  (max_iter : nat) (tol : Qc) : result vec :=
  f x0 ;;; Ok x0.

Definition value_with_zero_grad (f : vec -> result Qc) (x : vec)
  : result (Qc * vec) :=
  v <- f x ;; Ok (v, map (fun _ => 0) x).

Definition exact_env : Environment := {|
  rtol := frac 1 100000;
  atol := frac 1 100000000;
  is_diagonal := off_diagonal_zero;
  linalg_inv := inv_small;
  linalg_sqrtm := sqrt_entrywise;
  linalg_eigvalsh := diagonal;
  super_inner_product := pullback_inner_product inv_small;
  rng := nat;
  random_rand := counter_rand;
  value_and_grad := value_with_zero_grad;
  minimize := evaluate_once
|}.

(** *** Groups *)

(** The vector group (R^n, +). *)
Definition Euclidean (n : nat) : LieGroup := {|
  dim := n;
  default_point_type := "vector";
  __str__ := "Euclidean";
  identity := Vec (repeat 0 n);
  compose := fun a b =>
    match a, b with
    | Vec u, Vec v => Vec (zip_with Qcplus u v)
    | _, _ => a
    end;
  inverse := neg;
  regularize := fun p => p;
  regularize_tangent_vec_at_identity := fun v _ => v;
  tangent_translation_map := fun _ _ _ v => v;
  jacobian_translation := fun _ _ => eye n;
  group_exp := fun v => v;
  group_log := fun p => p;
  to_tangent := fun v _ => v
|}.

(** The matrix group of the unipotent matrices [[1, t], [0, 1]]: composition
    is the matrix product, [P^-1 = 2 I - P], [exp(A) = I + A] and
    [log(P) = P - I] (exact, since [A @ A = 0] on its Lie algebra). *)
Definition on_mat (f : mat -> mat) (a : array) : array :=
  match a with
  | Mat A => Mat (f A)
  | Vec _ => a
  end.

Definition Unipotent : LieGroup := {|
  dim := 1;
  default_point_type := "matrix";
  __str__ := "Unipotent";
  identity := Mat (eye 2);
  compose := fun a b =>
    match a, b with
    | Mat A, Mat B => Mat (matmul A B)
    | _, _ => a
    end;
  inverse := on_mat (fun P => msub (mscale (z 2) (eye 2)) P);
  regularize := fun p => p;
  regularize_tangent_vec_at_identity := fun v _ => v;
  tangent_translation_map := fun p _ inv v =>
    match (if inv then on_mat (fun P => msub (mscale (z 2) (eye 2)) P) p
           else p), v with
    | Mat P, Mat V => Mat (matmul P V)
    | _, _ => v
    end;
  jacobian_translation := fun _ _ => eye 1;
  group_exp := on_mat (fun A => madd (eye 2) A);
  group_log := on_mat (fun P => msub P (eye 2));
  to_tangent := fun v _ => v
|}.

(** A matrix-type group of which only the name, the dimension and the point
    type are read: the calls made on it below stay at the identity. *)
Definition named_matrix_group (name : string) (d : nat) : LieGroup := {|
  dim := d;
  default_point_type := "matrix";
  __str__ := name;
  identity := Mat (eye d);
  compose := fun a _ => a;
  inverse := fun a => a;
  regularize := fun p => p;
  regularize_tangent_vec_at_identity := fun v _ => v;
  tangent_translation_map := fun _ _ _ v => v;
  jacobian_translation := fun _ _ => eye d;
  group_exp := fun v => v;
  group_log := fun p => p;
  to_tangent := fun v _ => v
|}.

(** The affine group of the line in vector coordinates: the point
    [[a; b]] stands for the map [t -> a t + b], so that
    [[a; b] . [c; d] = [a c; a d + b]] and the identity is [[1; 0]].  The
    Jacobian of the left translation by [[a; b]] is [[a, 0], [0, a]], that of
    the right translation is [[a, 0], [b, 1]]; the tangent translation map
    is the action of this Jacobian (of its inverse when [inverse] is set). *)
Definition affine_line_jacobian (p : array) (lr : string) : mat :=
  match p with
  | Vec [a; b] =>
      if String.eqb lr "left" then [[a; 0]; [0; a]] else [[a; 0]; [b; 1]]
  | _ => eye 2
  end.

Definition AffineLine : LieGroup := {|
  dim := 2;
  default_point_type := "vector";
  __str__ := "AffineLine";
  identity := Vec [1; 0];
  compose := fun p q =>
    match p, q with
    | Vec [a; b], Vec [c; d] => Vec [a * c; a * d + b]
    | _, _ => p
    end;
  inverse := fun p =>
    match p with
    | Vec [a; b] => Vec [1 / a; - b / a]
    | _ => p
    end;
  regularize := fun p => p;
  regularize_tangent_vec_at_identity := fun v _ => v;
  tangent_translation_map := fun p lr inv v =>
    let J := affine_line_jacobian p lr in
    match v with
    | Vec w => Vec (apply_mat (if inv then inv_small J else J) w)
    | Mat _ => v
    end;
  jacobian_translation := affine_line_jacobian;
  group_exp := fun v => v;
  group_log := fun p => p;
  to_tangent := fun v _ => v
|}.

(** The same group as a matrix group: the point is the matrix
    [[a, b], [0, 1]], composition is the matrix product, and a tangent vector
    is translated by multiplying it by the point, on the left for the left
    translation and on the right for the right translation. *)
Definition AffineMatrices : LieGroup := {|
  dim := 2;
  default_point_type := "matrix";
  __str__ := "AffineMatrices";
  identity := Mat (eye 2);
  compose := fun a b =>
    match a, b with
    | Mat A, Mat B => Mat (matmul A B)
    | _, _ => a
    end;
  inverse := on_mat inv_small;
  regularize := fun p => p;
  regularize_tangent_vec_at_identity := fun v _ => v;
  tangent_translation_map := fun p lr inv v =>
    match (if inv then on_mat inv_small p else p), v with
    | Mat P, Mat V =>
        if String.eqb lr "left" then Mat (matmul P V) else Mat (matmul V P)
    | _, _ => v
    end;
  jacobian_translation := fun _ _ => eye 2;
  group_exp := fun v => v;
  group_log := fun p => p;
  to_tangent := fun v _ => v
|}.

(** A group whose [default_point_type] is neither "vector" nor "matrix". *)
Definition Untyped : LieGroup := {|
  dim := 2;
  default_point_type := "quaternion";
  __str__ := "Untyped";
  identity := Vec [1; 0; 0; 0];
  compose := fun a _ => a;
  inverse := fun a => a;
  regularize := fun p => p;
  regularize_tangent_vec_at_identity := fun v _ => v;
  tangent_translation_map := fun _ _ _ v => v;
  jacobian_translation := fun _ _ => eye 2;
  group_exp := fun v => v;
  group_log := fun p => p;
  to_tangent := fun v _ => v
|}.

(** *** Lie algebras *)

Definition E11 : mat := [[1; 0]; [0; 0]].
Definition E12 : mat := [[0; 1]; [0; 0]].
Definition ones2 : mat := [[1; 1]; [1; 1]].

(** The algebra of the affine group of the line, spanned by [E11] and [E12]
    with [[E11, E12] = E12]; the basis is orthonormal for the entry-wise
    inner product. *)
Definition affine_algebra : LieAlgebra := {|
  orthonormal_basis := fun _ => [E11; E12];
  reshape_metric_matrix := fun _ => ones2
|}.

Definition unipotent_algebra : LieAlgebra := {|
  orthonormal_basis := fun _ => [E12];
  reshape_metric_matrix := fun _ => ones2
|}.

(** *** Metrics *)

Definition metric_on (G : LieGroup) (algebra : option LieAlgebra)
  (M : mat) (lr : string) : InvariantMetric := {|
  cls := InvariantMetric_cls;
  group := G;
  lie_algebra := algebra;
  metric_mat_at_identity := M;
  left_or_right := lr;
  signature := (length M, 0%nat, 0%nat)
|}.

Definition affine_metric : InvariantMetric :=
  metric_on (named_matrix_group "Affine" 2) (Some affine_algebra)
    (eye 2) "left".

Definition unipotent_metric : InvariantMetric :=
  metric_on Unipotent (Some unipotent_algebra) (eye 1) "left".

Definition diag14 : mat := [[1; 0]; [0; z 4]].

Definition euclidean_metric (lr : string) : InvariantMetric :=
  metric_on (Euclidean 2) None diag14 lr.

Definition flat_metric : InvariantMetric :=
  metric_on (Euclidean 2) None (eye 2) "left".

Definition affine_line_metric (lr : string) : InvariantMetric :=
  metric_on AffineLine None diag14 lr.

Definition affine_matrix_metric (lr : string) : InvariantMetric :=
  metric_on AffineMatrices (Some affine_algebra) (eye 2) lr.

Definition untyped_metric : InvariantMetric :=
  metric_on Untyped None (eye 2) "left".

(** The affine metric constructed with [algebra=None]. *)
Definition bare_metric : InvariantMetric :=
  metric_on (named_matrix_group "Affine" 2) None (eye 2) "left".

(** Printed forms of a rotation group and of a group of rigid motions. *)
Definition SO3_name : string :=
  "<geomstats.geometry.special_orthogonal._SpecialOrthogonalMatrices object>".
Definition SE3_name : string :=
  "<geomstats.geometry.special_euclidean._SpecialEuclideanMatrices object>".


End Concrete.

(* ------------------------------------------------------------------ *)
(** * Properties *)
(* ------------------------------------------------------------------ *)

(** ** The error monad *)

Lemma bind_Ok {A B : Type} (a : A) (k : A -> result B) :
  bind (Ok a) k = k a.
Proof. reflexivity. Qed.

Lemma bind_Raise {A B : Type} (e : exn) (k : A -> result B) :
  bind (Raise e) k = Raise e.
Proof. reflexivity. Qed.

Lemma comprehension_Ok {A B : Type} (f : A -> result B) (g : A -> B)
  (xs : list A) :
  (forall x, In x xs -> f x = Ok (g x)) ->
  comprehension f xs = Ok (map g xs).
Proof.
  induction xs as [|x xs IH]; intros H; simpl.
  - reflexivity.
  - rewrite (H x (or_introl eq_refl)), IH; auto.
    intros y Hy. apply H. now right.
Qed.

(** ** Linear algebra of the backend

    The element-wise operations truncate to the shorter operand, so the
    scaling laws below hold for all lists, with no side condition on
    shapes. *)

Lemma zip_with_nil_r {A B C : Type} (f : A -> B -> C) (xs : list A) :
  zip_with f xs [] = [].
Proof. destruct xs; reflexivity. Qed.

Lemma zip_with_map_l {A A' B C : Type} (f : A' -> B -> C) (g : A -> A')
  (xs : list A) (ys : list B) :
  zip_with f (map g xs) ys = zip_with (fun x y => f (g x) y) xs ys.
Proof.
  revert ys; induction xs as [|x xs IH]; intros [|y ys]; simpl; auto.
  now rewrite IH.
Qed.

Lemma zip_with_map_r {A B B' C : Type} (f : A -> B' -> C) (g : B -> B')
  (xs : list A) (ys : list B) :
  zip_with f xs (map g ys) = zip_with (fun x y => f x (g y)) xs ys.
Proof.
  revert ys; induction xs as [|x xs IH]; intros [|y ys]; simpl; auto.
  now rewrite IH.
Qed.

Lemma map_zip_with {A B C D : Type} (f : A -> B -> C) (g : C -> D)
  (xs : list A) (ys : list B) :
  map g (zip_with f xs ys) = zip_with (fun x y => g (f x y)) xs ys.
Proof.
  revert ys; induction xs as [|x xs IH]; intros [|y ys]; simpl; auto.
  now rewrite IH.
Qed.

Lemma zip_with_ext {A B C : Type} (f g : A -> B -> C)
  (xs : list A) (ys : list B) :
  (forall x y, In x xs -> In y ys -> f x y = g x y) ->
  zip_with f xs ys = zip_with g xs ys.
Proof.
  revert ys; induction xs as [|x xs IH]; intros [|y ys] H; simpl; auto.
  f_equal.
  - apply H; now left.
  - apply IH. intros; apply H; now right.
Qed.

Lemma vsum_vscale (c : Qc) (v : vec) : vsum (vscale c v) = c * vsum v.
Proof.
  induction v as [|x v IH]; simpl.
  - ring.
  - unfold vsum, vscale in *. simpl. rewrite IH. ring.
Qed.

Lemma vdot_vscale_l (c : Qc) (u v : vec) :
  vdot (vscale c u) v = c * vdot u v.
Proof.
  unfold vdot. rewrite <- vsum_vscale. f_equal.
  unfold vscale. rewrite zip_with_map_l, map_zip_with.
  apply zip_with_ext; intros; ring.
Qed.

Lemma vdot_vscale_r (c : Qc) (u v : vec) :
  vdot u (vscale c v) = c * vdot u v.
Proof.
  unfold vdot. rewrite <- vsum_vscale. f_equal.
  unfold vscale. rewrite zip_with_map_r, map_zip_with.
  apply zip_with_ext; intros; ring.
Qed.

Lemma vneg_vscale (v : vec) : vneg v = vscale (- (1)) v.
Proof. apply map_ext; intros; ring. Qed.

Lemma mneg_mscale (A : mat) : mneg A = mscale (- (1)) A.
Proof. apply map_ext; intros; apply vneg_vscale. Qed.

Lemma vscale_vscale (c d : Qc) (v : vec) :
  vscale c (vscale d v) = vscale (c * d) v.
Proof. unfold vscale. rewrite map_map. apply map_ext; intros; ring. Qed.

Lemma mscale_mscale (c d : Qc) (A : mat) :
  mscale c (mscale d A) = mscale (c * d) A.
Proof.
  unfold mscale. rewrite map_map. apply map_ext; intros; apply vscale_vscale.
Qed.

Lemma nth_vscale (c : Qc) (v : vec) (j : nat) :
  nth j (vscale c v) 0 = c * nth j v 0.
Proof.
  revert j; induction v as [|x v IH]; intros [|j]; simpl; auto; ring.
Qed.

Lemma column_mscale (c : Qc) (B : mat) (j : nat) :
  column (mscale c B) j = vscale c (column B j).
Proof.
  unfold column, mscale, vscale at 2. rewrite !map_map.
  apply map_ext; intros; apply nth_vscale.
Qed.

Lemma ncols_mscale (c : Qc) (B : mat) : ncols (mscale c B) = ncols B.
Proof. destruct B; simpl; auto. unfold ncols; simpl. apply length_map. Qed.

Lemma matmul_mscale_l (c : Qc) (A B : mat) :
  matmul (mscale c A) B = mscale c (matmul A B).
Proof.
  unfold matmul, mscale. rewrite !map_map.
  apply map_ext; intros row. unfold vscale at 2. rewrite map_map.
  apply map_ext; intros j. apply vdot_vscale_l.
Qed.

Lemma matmul_mscale_r (c : Qc) (A B : mat) :
  matmul A (mscale c B) = mscale c (matmul A B).
Proof.
  unfold matmul. rewrite ncols_mscale. unfold mscale at 2. rewrite map_map.
  apply map_ext; intros row. unfold vscale. rewrite map_map.
  apply map_ext; intros j. rewrite column_mscale. apply vdot_vscale_r.
Qed.

Lemma msub_mscale (c : Qc) (A B : mat) :
  msub (mscale c A) (mscale c B) = mscale c (msub A B).
Proof.
  unfold msub, mscale. rewrite zip_with_map_l, zip_with_map_r, map_zip_with.
  apply zip_with_ext; intros u v _ _.
  unfold vscale. rewrite zip_with_map_l, zip_with_map_r, map_zip_with.
  apply zip_with_ext; intros; ring.
Qed.

Lemma madd_mscale (c : Qc) (A B : mat) :
  madd (mscale c A) (mscale c B) = mscale c (madd A B).
Proof.
  unfold madd, mscale. rewrite zip_with_map_l, zip_with_map_r, map_zip_with.
  apply zip_with_ext; intros u v _ _.
  unfold vscale. rewrite zip_with_map_l, zip_with_map_r, map_zip_with.
  apply zip_with_ext; intros; ring.
Qed.

Lemma hadamard_mscale_l (c : Qc) (A B : mat) :
  hadamard (mscale c A) B = mscale c (hadamard A B).
Proof.
  unfold hadamard, mscale. rewrite zip_with_map_l, map_zip_with.
  apply zip_with_ext; intros u v _ _.
  unfold vscale. rewrite zip_with_map_l, map_zip_with.
  apply zip_with_ext; intros; ring.
Qed.

Lemma hadamard_mscale_r (c : Qc) (A B : mat) :
  hadamard A (mscale c B) = mscale c (hadamard A B).
Proof.
  unfold hadamard, mscale. rewrite zip_with_map_r, map_zip_with.
  apply zip_with_ext; intros u v _ _.
  unfold vscale. rewrite zip_with_map_r, map_zip_with.
  apply zip_with_ext; intros; ring.
Qed.

Lemma msum_mscale (c : Qc) (A : mat) : msum (mscale c A) = c * msum A.
Proof.
  unfold msum, mscale. rewrite map_map.
  rewrite <- vsum_vscale. f_equal. unfold vscale at 2. rewrite map_map.
  apply map_ext; intros; apply vsum_vscale.
Qed.

Lemma mat_bracket_mscale_l (c : Qc) (x y : mat) :
  mat_bracket (mscale c x) y = mscale c (mat_bracket x y).
Proof.
  unfold mat_bracket.
  now rewrite matmul_mscale_l, matmul_mscale_r, msub_mscale.
Qed.

Lemma mat_bracket_mscale_r (c : Qc) (x y : mat) :
  mat_bracket x (mscale c y) = mscale c (mat_bracket x y).
Proof.
  unfold mat_bracket.
  now rewrite matmul_mscale_l, matmul_mscale_r, msub_mscale.
Qed.

Lemma mat_bracket_swap (x y : mat) :
  mat_bracket y x = mneg (mat_bracket x y).
Proof.
  unfold mat_bracket, msub, mneg. rewrite map_zip_with.
  generalize (matmul x y) (matmul y x); intros U V.
  revert V; induction U as [|u U IH]; intros [|v V]; simpl; auto.
  f_equal; auto.
  unfold vneg. rewrite map_zip_with.
  clear. revert v; induction u as [|a u IH]; intros [|b v]; simpl; auto.
  f_equal; auto. ring.
Qed.

Lemma mneg_mscale_comm (c : Qc) (A : mat) :
  mneg (mscale c A) = mscale c (mneg A).
Proof.
  rewrite (mneg_mscale (mscale c A)), (mneg_mscale A), !mscale_mscale.
  replace (- (1) * c) with (c * - (1)) by ring. reflexivity.
Qed.

Lemma fold_madd_mscale (c : Qc) (ts : list mat) (t : mat) :
  fold_left madd (map (mscale c) ts) (mscale c t)
  = mscale c (fold_left madd ts t).
Proof.
  revert t; induction ts as [|s ts IH]; intros t; simpl; auto.
  now rewrite madd_mscale, IH.
Qed.

Lemma lincomb_scale (c : Qc) (cs : list Qc) (bs : list mat) :
  lincomb (map (Qcmult c) cs) bs = mscale c (lincomb cs bs).
Proof.
  unfold lincomb.
  assert (E : zip_with mscale (map (Qcmult c) cs) bs
              = map (mscale c) (zip_with mscale cs bs)).
  { rewrite zip_with_map_l, map_zip_with.
    apply zip_with_ext; intros. now rewrite mscale_mscale. }
  rewrite E. destruct (zip_with mscale cs bs) as [|t ts]; simpl; auto.
  apply fold_madd_mscale.
Qed.

Lemma einsum_i_ijk_lincomb (f : mat -> Qc) (bs : list mat) :
  bs <> [] ->
  einsum_i_ijk (map f bs) bs = Ok (lincomb (map f bs) bs).
Proof.
  unfold einsum_i_ijk, lincomb. destruct bs as [|b bs]; [congruence|].
  reflexivity.
Qed.

(** The three-term sums of [curvature_at_identity], entry by entry. *)
Lemma vadd_vsub_flip (b l r : vec) :
  zip_with Qcplus (zip_with Qcminus b l) r
  = vneg (zip_with Qcplus (zip_with Qcminus (vneg b) r) l).
Proof.
  revert l r; induction b as [|x b IH]; intros [|y l] [|w r]; simpl; auto.
  f_equal; [ring | apply IH].
Qed.

Lemma madd_msub_flip (B L R : mat) :
  madd (msub B L) R = mneg (madd (msub (mneg B) R) L).
Proof.
  unfold madd, msub, mneg.
  revert L R; induction B as [|b B IH]; intros [|l L] [|r R]; simpl; auto.
  f_equal; [apply vadd_vsub_flip | apply IH].
Qed.

(** ** The curvature engine on a matrix-type group *)

Section CurvatureEngine.

Context {env : Environment}.
Variable self : InvariantMetric.

Lemma ip_mat_mscale_l (c : Qc) (a b : mat) :
  ip_mat self (mscale c a) b = c * ip_mat self a b.
Proof.
  unfold ip_mat. rewrite hadamard_mscale_l.
  destruct (lie_algebra self) as [algebra|];
    [destruct (is_diagonal _)|];
    rewrite ?hadamard_mscale_l; apply msum_mscale.
Qed.

Lemma ip_mat_mscale_r (c : Qc) (a b : mat) :
  ip_mat self a (mscale c b) = c * ip_mat self a b.
Proof.
  unfold ip_mat. rewrite hadamard_mscale_r.
  destruct (lie_algebra self) as [algebra|];
    [destruct (is_diagonal _)|];
    rewrite ?hadamard_mscale_l; apply msum_mscale.
Qed.

Hypothesis matrix_type : default_point_type (group self) = "matrix".

Lemma inner_product_at_identity_Mat (a b : mat) :
  inner_product_at_identity self (Mat a) (Mat b) = Ok (ip_mat self a b).
Proof.
  unfold inner_product_at_identity. rewrite matrix_type. reflexivity.
Qed.

Lemma structure_constant_Mat (a b c : mat) :
  structure_constant self (Mat a) (Mat b) (Mat c)
  = Ok (ip_mat self (mat_bracket a b) c).
Proof.
  unfold structure_constant. simpl. apply inner_product_at_identity_Mat.
Qed.

Variable algebra : LieAlgebra.
Hypothesis has_algebra : lie_algebra self = Some algebra.

Variable basis : list mat.
Hypothesis basis_provided :
  orthonormal_basis algebra (metric_mat_at_identity self) = basis.
Hypothesis basis_not_empty : basis <> [].

Lemma dual_adjoint_Mat (a b : mat) :
  dual_adjoint self (Mat a) (Mat b)
  = Ok (Mat (dual_adjoint_mat self basis a b)).
Proof.
  unfold dual_adjoint, getattr_lie_algebra. rewrite has_algebra. simpl.
  rewrite basis_provided.
  rewrite (comprehension_Ok _
             (fun tan => ip_mat self (mat_bracket tan a) b)).
  - simpl. rewrite einsum_i_ijk_lincomb by exact basis_not_empty.
    reflexivity.
  - intros; apply structure_constant_Mat.
Qed.

Lemma connection_at_identity_Mat (a b : mat) :
  connection_at_identity self (Mat a) (Mat b)
  = Ok (Mat (connection_mat self basis a b)).
Proof.
  unfold connection_at_identity. simpl. rewrite !dual_adjoint_Mat.
  reflexivity.
Qed.

Lemma curvature_at_identity_Mat (a b c : mat) :
  curvature_at_identity self (Mat a) (Mat b) (Mat c)
  = Ok (Mat (curvature_mat self basis a b c)).
Proof.
  unfold curvature_at_identity. simpl.
  rewrite !connection_at_identity_Mat. simpl.
  rewrite !connection_at_identity_Mat. reflexivity.
Qed.

Lemma dual_adjoint_mat_mscale_l (c : Qc) (a b : mat) :
  dual_adjoint_mat self basis (mscale c a) b
  = mscale c (dual_adjoint_mat self basis a b).
Proof.
  unfold dual_adjoint_mat.
  rewrite <- mneg_mscale_comm, <- lincomb_scale, map_map.
  do 2 f_equal. apply map_ext; intros tan.
  now rewrite mat_bracket_mscale_r, ip_mat_mscale_l.
Qed.

Lemma dual_adjoint_mat_mscale_r (c : Qc) (a b : mat) :
  dual_adjoint_mat self basis a (mscale c b)
  = mscale c (dual_adjoint_mat self basis a b).
Proof.
  unfold dual_adjoint_mat.
  rewrite <- mneg_mscale_comm, <- lincomb_scale, map_map.
  do 2 f_equal. apply map_ext; intros tan.
  now rewrite ip_mat_mscale_r.
Qed.

Lemma connection_mat_mscale_l (c : Qc) (a b : mat) :
  connection_mat self basis (mscale c a) b
  = mscale c (connection_mat self basis a b).
Proof.
  unfold connection_mat.
  rewrite mat_bracket_mscale_l, dual_adjoint_mat_mscale_l,
    dual_adjoint_mat_mscale_r, !msub_mscale, !mscale_mscale.
  f_equal. ring.
Qed.

Lemma connection_mat_mscale_r (c : Qc) (a b : mat) :
  connection_mat self basis a (mscale c b)
  = mscale c (connection_mat self basis a b).
Proof.
  unfold connection_mat.
  rewrite mat_bracket_mscale_r, dual_adjoint_mat_mscale_l,
    dual_adjoint_mat_mscale_r, !msub_mscale, !mscale_mscale.
  f_equal. ring.
Qed.

Lemma connection_mat_mneg_l (a b : mat) :
  connection_mat self basis (mneg a) b = mneg (connection_mat self basis a b).
Proof. rewrite !mneg_mscale. apply connection_mat_mscale_l. Qed.

Lemma curvature_mat_antisymmetric (x y z : mat) :
  curvature_mat self basis x y z = mneg (curvature_mat self basis y x z).
Proof.
  unfold curvature_mat.
  rewrite (mat_bracket_swap x y), connection_mat_mneg_l.
  apply madd_msub_flip.
Qed.

End CurvatureEngine.

(** ** Zero matrices *)

Lemma vsum_zero (v : vec) : Forall (fun x => x = 0) v -> vsum v = 0.
Proof.
  induction 1 as [|x v Hx _ IH]; simpl; auto.
  unfold vsum in *; simpl. rewrite Hx, IH. ring.
Qed.

Lemma msum_zero (A : mat) : all_zero A -> msum A = 0.
Proof.
  intros H. unfold msum. apply vsum_zero.
  induction H as [|r A Hr _ IH]; simpl; constructor; auto.
  now apply vsum_zero.
Qed.

Lemma zip_zero_l (u v : vec) :
  Forall (fun x => x = 0) u -> Forall (fun x => x = 0) (zip_with Qcmult u v).
Proof.
  intros H; revert v; induction H as [|x u Hx _ IH]; intros [|y v]; simpl;
    constructor; auto.
  rewrite Hx; ring.
Qed.

Lemma zip_zero_r (u v : vec) :
  Forall (fun x => x = 0) v -> Forall (fun x => x = 0) (zip_with Qcmult u v).
Proof.
  intros H; revert u; induction H as [|y v Hy _ IH]; intros [|x u]; simpl;
    constructor; auto.
  rewrite Hy; ring.
Qed.

Lemma vdot_zero_l (u v : vec) : Forall (fun x => x = 0) u -> vdot u v = 0.
Proof. intros; apply vsum_zero; now apply zip_zero_l. Qed.

Lemma vdot_zero_r (u v : vec) : Forall (fun x => x = 0) v -> vdot u v = 0.
Proof. intros; apply vsum_zero; now apply zip_zero_r. Qed.

Lemma nth_zero (v : vec) (j : nat) :
  Forall (fun x => x = 0) v -> nth j v 0 = 0.
Proof.
  intros H; revert j; induction H as [|x v Hx _ IH]; intros [|j]; simpl; auto.
Qed.

Lemma column_zero (A : mat) (j : nat) :
  all_zero A -> Forall (fun x => x = 0) (column A j).
Proof.
  induction 1 as [|r A Hr _ IH]; simpl; constructor; auto.
  now apply nth_zero.
Qed.

Lemma all_zero_matmul_l (A B : mat) : all_zero A -> all_zero (matmul A B).
Proof.
  induction 1 as [|r A Hr _ IH]; simpl; constructor; auto.
  apply Forall_forall. intros x Hx. apply in_map_iff in Hx.
  destruct Hx as [j [<- _]]. now apply vdot_zero_l.
Qed.

Lemma all_zero_matmul_r (A B : mat) : all_zero B -> all_zero (matmul A B).
Proof.
  intros HB. unfold all_zero, matmul. apply Forall_forall.
  intros r Hr. apply in_map_iff in Hr. destruct Hr as [row [<- _]].
  apply Forall_forall. intros x Hx. apply in_map_iff in Hx.
  destruct Hx as [j [<- _]]. apply vdot_zero_r. now apply column_zero.
Qed.

Lemma all_zero_zip_with (f : Qc -> Qc -> Qc) (A B : mat) :
  f 0 0 = 0 -> all_zero A -> all_zero B ->
  all_zero (zip_with (zip_with f) A B).
Proof.
  intros Hf HA; revert B.
  induction HA as [|r A Hr _ IH]; intros B HB; simpl; [constructor|].
  destruct HB as [|s B Hs HB]; constructor.
  - clear - Hf Hr Hs. revert s Hs.
    induction Hr as [|x r Hx _ IH]; intros s Hs; simpl; [constructor|].
    destruct Hs as [|y s Hy Hs]; constructor.
    + now rewrite Hx, Hy.
    + now apply IH.
  - now apply IH.
Qed.

Lemma all_zero_msub (A B : mat) :
  all_zero A -> all_zero B -> all_zero (msub A B).
Proof. apply all_zero_zip_with. ring. Qed.

Lemma all_zero_madd (A B : mat) :
  all_zero A -> all_zero B -> all_zero (madd A B).
Proof. apply all_zero_zip_with. ring. Qed.

Lemma all_zero_msub_self (A : mat) : all_zero (msub A A).
Proof.
  induction A as [|r A IH]; simpl; constructor; auto.
  clear. induction r as [|x r IH]; simpl; constructor; auto. ring.
Qed.

Lemma all_zero_mscale (c : Qc) (A : mat) : all_zero A -> all_zero (mscale c A).
Proof.
  induction 1 as [|r A Hr _ IH]; simpl; constructor; auto.
  clear - Hr. induction Hr as [|x r Hx _ IH]; simpl; constructor; auto.
  rewrite Hx; ring.
Qed.

Lemma all_zero_mscale_0 (A : mat) : all_zero (mscale 0 A).
Proof.
  induction A as [|r A IH]; simpl; constructor; auto.
  clear. induction r as [|x r IH]; simpl; constructor; auto. ring.
Qed.

Lemma all_zero_mneg (A : mat) : all_zero A -> all_zero (mneg A).
Proof. rewrite mneg_mscale. apply all_zero_mscale. Qed.

Lemma all_zero_hadamard_l (A B : mat) : all_zero A -> all_zero (hadamard A B).
Proof.
  intros HA; revert B.
  induction HA as [|r A Hr _ IH]; intros [|s B]; simpl; constructor.
  - now apply zip_zero_l.
  - apply IH.
Qed.

Lemma all_zero_hadamard_r (A B : mat) : all_zero B -> all_zero (hadamard A B).
Proof.
  intros HB; revert A.
  induction HB as [|s B Hs _ IH]; intros [|r A]; simpl; constructor.
  - now apply zip_zero_r.
  - apply IH.
Qed.

Lemma all_zero_mat_bracket_l (A B : mat) :
  all_zero A -> all_zero (mat_bracket A B).
Proof.
  intros; apply all_zero_msub;
    [now apply all_zero_matmul_l | now apply all_zero_matmul_r].
Qed.

Lemma all_zero_mat_bracket_r (A B : mat) :
  all_zero B -> all_zero (mat_bracket A B).
Proof.
  intros; apply all_zero_msub;
    [now apply all_zero_matmul_r | now apply all_zero_matmul_l].
Qed.

Lemma all_zero_fold_madd (ts : list mat) (t : mat) :
  all_zero t -> Forall all_zero ts -> all_zero (fold_left madd ts t).
Proof.
  intros Ht Hts; revert t Ht.
  induction Hts as [|s ts Hs _ IH]; intros t Ht; simpl; auto.
  apply IH. now apply all_zero_madd.
Qed.

Lemma all_zero_lincomb (cs : list Qc) (bs : list mat) :
  Forall (fun x => x = 0) cs -> all_zero (lincomb cs bs).
Proof.
  intros H. unfold lincomb.
  assert (Hz : Forall all_zero (zip_with mscale cs bs)).
  { revert bs; induction H as [|c cs Hc _ IH]; intros [|b bs]; simpl;
      constructor.
    - rewrite Hc. apply all_zero_mscale_0.
    - apply IH. }
  destruct Hz as [|t ts Ht Hts]; [constructor|].
  now apply all_zero_fold_madd.
Qed.

(** [0 - l + l] entry by entry. *)
Lemma all_zero_madd_msub_cancel (B L : mat) :
  all_zero B -> all_zero (madd (msub B L) L).
Proof.
  intros HB; revert L.
  induction HB as [|b B Hb _ IH]; intros [|l L]; simpl; constructor.
  - clear - Hb. revert l.
    induction Hb as [|x b Hx _ IH]; intros [|y l]; simpl; constructor.
    + rewrite Hx; ring.
    + apply IH.
  - apply IH.
Qed.

(** ** The guarded division of [sectional_curvature_at_identity] *)

Lemma leb_le (a b : Qc) : leb a b = true <-> a <= b.
Proof. unfold leb. apply Qle_bool_iff. Qed.

Lemma EPSILON_not_zero : EPSILON <> 0.
Proof. intros H. apply (f_equal this) in H. vm_compute in H. discriminate. Qed.

Lemma isclose_zero_zero (rt at_ : Qc) : 0 <= at_ -> isclose rt at_ 0 0 = true.
Proof.
  intros H. unfold isclose. apply leb_le.
  replace (0 - 0) with 0 by ring.
  rewrite (Qcabs_pos 0) by apply Qcle_refl.
  now replace (at_ + rt * 0) with at_ by ring.
Qed.

Lemma guarded_denominator_not_zero (rt at_ denom : Qc) :
  0 <= at_ ->
  where_ (isclose rt at_ denom 0) EPSILON denom <> 0.
Proof.
  intros Hat. destruct (isclose rt at_ denom 0) eqn:E; simpl.
  - apply EPSILON_not_zero.
  - intros ->. rewrite isclose_zero_zero in E by assumption. discriminate.
Qed.

Lemma guarded_quotient_of_zero (rt at_ denom : Qc) :
  0 <= at_ ->
  (let condition := isclose rt at_ denom 0 in
   quotient <- divide 0 (where_ condition EPSILON denom) ;;
   Ok (where_ (negb condition) quotient 0)) = Ok 0.
Proof.
  intros Hat. cbv zeta.
  pose proof (guarded_denominator_not_zero rt denom Hat) as Hd.
  unfold divide. destruct (Qc_eq_dec _ 0) as [E|_]; [contradiction|].
  simpl. destruct (isclose rt at_ denom 0); simpl; auto.
  f_equal. unfold Qcdiv. ring.
Qed.

(** ** Evaluating the model *)

Lemma vec_eqb_eq (u v : vec) : vec_eqb u v = true -> u = v.
Proof.
  unfold vec_eqb. revert v; induction u as [|x u IH]; intros [|y v]; simpl;
    try discriminate; auto.
  intros H. apply andb_prop in H. destruct H as [Hl H].
  apply andb_prop in H. destruct H as [Hxy H].
  apply Qc_eq_bool_correct in Hxy. subst y. f_equal.
  apply IH. now rewrite Hl, H.
Qed.

Lemma mat_eqb_eq (A B : mat) : mat_eqb A B = true -> A = B.
Proof.
  unfold mat_eqb. revert B; induction A as [|u A IH]; intros [|v B]; simpl;
    try discriminate; auto.
  intros H. apply andb_prop in H. destruct H as [Hl H].
  apply andb_prop in H. destruct H as [Huv H].
  apply vec_eqb_eq in Huv. subst v. f_equal.
  apply IH. now rewrite Hl, H.
Qed.

Lemma array_eqb_eq (a b : array) : array_eqb a b = true -> a = b.
Proof.
  destruct a, b; simpl; try discriminate; intros H; f_equal;
    [now apply vec_eqb_eq | now apply mat_eqb_eq].
Qed.

Lemma scalar_result_eqb_eq (r : result Qc) (q : Qc) :
  scalar_result_eqb r q = true -> r = Ok q.
Proof.
  destruct r; simpl; try discriminate.
  intros H. now rewrite (Qc_eq_bool_correct _ _ H).
Qed.

Lemma array_result_eqb_eq (r : result array) (a : array) :
  array_result_eqb r a = true -> r = Ok a.
Proof.
  destruct r; simpl; try discriminate.
  intros H. now rewrite (array_eqb_eq _ _ H).
Qed.

(** ** Substrings *)

Lemma prefix_app (sub s : string) :
  String.prefix sub s = true <-> exists post, s = (sub ++ post)%string.
Proof.
  revert s; induction sub as [|a sub IH]; intros [|b s]; simpl.
  - split; auto. intros _. now exists ""%string.
  - split; auto. intros _. now exists (String b s).
  - split; [discriminate | intros [post H]; discriminate].
  - destruct (ascii_dec a b) as [->|Hab].
    + rewrite IH. split; intros [post H]; exists post.
      * now rewrite H.
      * now inversion H.
    + split; [discriminate|]. intros [post H]. inversion H. congruence.
Qed.

Lemma str_contains_nil (sub : string) :
  str_contains sub "" = String.prefix sub "" || false.
Proof. reflexivity. Qed.

Lemma str_contains_cons (sub : string) (a : ascii) (s : string) :
  str_contains sub (String a s)
  = String.prefix sub (String a s) || str_contains sub s.
Proof. reflexivity. Qed.

Lemma str_contains_mentions (sub s : string) :
  str_contains sub s = true <-> mentions sub s.
Proof.
  split.
  - induction s as [|a s IH]; intros H.
    + rewrite str_contains_nil, orb_false_r in H.
      apply prefix_app in H. destruct H as [post H].
      exists ""%string, post. exact H.
    + rewrite str_contains_cons in H. apply orb_prop in H.
      destruct H as [H|H].
      * apply prefix_app in H. destruct H as [post H].
        exists ""%string, post. exact H.
      * destruct (IH H) as [pre [post E]].
        exists (String a pre), post. simpl. now rewrite E.
  - intros [pre [post E]]. revert s E.
    induction pre as [|a pre IH]; intros s E.
    + simpl in E.
      assert (P : String.prefix sub s = true)
        by (apply prefix_app; now exists post).
      destruct s; [rewrite str_contains_nil | rewrite str_contains_cons];
        now rewrite P.
    + subst s.
      change (String a pre ++ sub ++ post)%string
        with (String a (pre ++ sub ++ post)%string).
      rewrite str_contains_cons, (IH _ eq_refl).
      apply orb_true_r.
Qed.

Lemma not_mentions (sub s : string) :
  str_contains sub s = false <-> ~ mentions sub s.
Proof.
  rewrite <- str_contains_mentions. destruct (str_contains sub s); split;
    intros H; try discriminate; auto.
  exfalso; now apply H.
Qed.

Lemma mentions_longer (sub extra s : string) :
  mentions (sub ++ extra) s -> mentions sub s.
Proof.
  intros [pre [post E]]. exists pre, (extra ++ post)%string.
  rewrite E. f_equal. clear. induction sub; simpl; auto. now rewrite IHsub.
Qed.


(** ** More linear algebra of the backend *)

Lemma zip_with_comm {A B : Type} (f : A -> A -> B) (xs ys : list A) :
  (forall x y, f x y = f y x) -> zip_with f xs ys = zip_with f ys xs.
Proof.
  intros Hf. revert ys; induction xs as [|x xs IH]; intros [|y ys];
    cbn [zip_with]; auto.
  now rewrite Hf, IH.
Qed.

Lemma hadamard_comm (A B : mat) : hadamard A B = hadamard B A.
Proof.
  unfold hadamard. apply zip_with_comm. intros u v.
  apply zip_with_comm. intros; ring.
Qed.

(** ** Shapes *)

Lemma has_shape_zip_with (f : Qc -> Qc -> Qc) (r c : nat) (A B : mat) :
  has_shape r c A -> has_shape r c B ->
  has_shape r c (zip_with (zip_with f) A B).
Proof.
  intros [HA FA] [HB FB]. subst r. revert B HB FB.
  induction FA as [|u A Hu _ IH]; intros [|v B] HB FB; try discriminate.
  - split; [reflexivity | constructor].
  - inversion FB as [|? ? Hv FB']; subst. injection HB as HB.
    destruct (IH B HB FB') as [L F]. split.
    + cbn [zip_with length]. now rewrite L.
    + cbn [zip_with]. constructor; [|exact F].
      clear - Hv. revert v Hv.
      induction u as [|x u IHu]; intros [|y v] Hv; try discriminate; auto.
      cbn [zip_with length]. f_equal. apply IHu. now injection Hv.
Qed.

Lemma has_shape_mscale (k : Qc) (r c : nat) (A : mat) :
  has_shape r c A -> has_shape r c (mscale k A).
Proof.
  intros [HA FA]. split.
  - unfold mscale. now rewrite length_map.
  - unfold mscale. apply Forall_map.
    eapply Forall_impl; [|exact FA]. intros row H.
    unfold vscale. now rewrite length_map.
Qed.

Lemma has_shape_mneg (r c : nat) (A : mat) :
  has_shape r c A -> has_shape r c (mneg A).
Proof. rewrite mneg_mscale. apply has_shape_mscale. Qed.

Lemma has_shape_matmul (n : nat) (A B : mat) :
  has_shape n n A -> has_shape n n B -> has_shape n n (matmul A B).
Proof.
  intros [HA FA] [HB FB]. split.
  - unfold matmul. now rewrite length_map.
  - unfold matmul. apply Forall_map, Forall_forall. intros row _.
    rewrite length_map, length_seq.
    destruct B as [|b B].
    + cbn [length] in HB. subst n. destruct A; [|discriminate].
      reflexivity.
    + inversion FB; subst. assumption.
Qed.

Lemma has_shape_mat_bracket (n : nat) (A B : mat) :
  has_shape n n A -> has_shape n n B -> has_shape n n (mat_bracket A B).
Proof.
  intros HA HB. apply has_shape_zip_with; now apply has_shape_matmul.
Qed.

Lemma has_shape_fold_madd (r c : nat) (ts : list mat) (t : mat) :
  has_shape r c t -> Forall (has_shape r c) ts ->
  has_shape r c (fold_left madd ts t).
Proof.
  intros Ht Hts; revert t Ht.
  induction Hts as [|s ts Hs _ IH]; intros t Ht; cbn [fold_left]; auto.
  apply IH. now apply has_shape_zip_with.
Qed.

Lemma has_shape_lincomb (n : nat) (f : mat -> Qc) (bs : list mat) :
  bs <> [] -> Forall (has_shape n n) bs ->
  has_shape n n (lincomb (map f bs) bs).
Proof.
  intros Hne Hs. unfold lincomb.
  assert (F : Forall (has_shape n n) (zip_with mscale (map f bs) bs)).
  { clear Hne. induction Hs as [|b bs Hb _ IH]; cbn [map zip_with];
      constructor; auto.
    now apply has_shape_mscale. }
  destruct bs as [|b bs]; [congruence|].
  cbn [map zip_with] in *. inversion F; subst.
  now apply has_shape_fold_madd.
Qed.

Lemma all_zero_shape (r c : nat) (A : mat) :
  has_shape r c A -> all_zero A -> A = zeros r c.
Proof.
  intros [HL HR] HZ. subst r. unfold zeros.
  induction HR as [|row A Hrow HR IH]; [reflexivity|].
  apply Forall_cons_iff in HZ. destruct HZ as [Zrow HZ].
  cbn [length repeat]. rewrite <- (IH HZ). f_equal.
  subst c. clear - Zrow.
  induction Zrow as [|x row Hx _ IHrow]; [reflexivity|].
  cbn [length repeat]. now rewrite Hx, <- IHrow.
Qed.

Lemma half_twice : 1 / Q2Qc 2 + 1 / Q2Qc 2 = 1.
Proof. apply Qc_is_canon. reflexivity. Qed.

Lemma torsion_rows (b d1 d2 : vec) (c : nat) :
  length b = c -> length d1 = c -> length d2 = c ->
  zip_with Qcminus
    (vscale (1 / Q2Qc 2) (zip_with Qcminus (zip_with Qcminus b d1) d2))
    (vscale (1 / Q2Qc 2)
       (zip_with Qcminus (zip_with Qcminus (vneg b) d2) d1))
  = b.
Proof.
  revert b d1 d2; induction c as [|c IH]; intros [|x b] [|y d1] [|w d2];
    try discriminate; intros Hb H1 H2; [reflexivity|].
  cbn [vneg vscale map zip_with]. f_equal.
  - transitivity ((1 / Q2Qc 2 + 1 / Q2Qc 2) * x); [ring|].
    rewrite half_twice. ring.
  - cbn [length] in *. apply IH; congruence.
Qed.

Lemma torsion_entries (r c : nat) (B D1 D2 : mat) :
  has_shape r c B -> has_shape r c D1 -> has_shape r c D2 ->
  msub (mscale (1 / Q2Qc 2) (msub (msub B D1) D2))
       (mscale (1 / Q2Qc 2) (msub (msub (mneg B) D2) D1))
  = B.
Proof.
  intros [HB FB] [H1 F1] [H2 F2]. subst r.
  revert D1 D2 H1 F1 H2 F2.
  induction FB as [|b B Hb _ IH]; intros [|d1 D1] [|d2 D2] H1 F1 H2 F2;
    try discriminate; [reflexivity|].
  apply Forall_cons_iff in F1. destruct F1 as [Hd1 F1].
  apply Forall_cons_iff in F2. destruct F2 as [Hd2 F2].
  cbn [msub mscale mneg map zip_with]. f_equal.
  - now apply torsion_rows with (c := c).
  - cbn [length] in *. apply IH; auto; congruence.
Qed.

(** ** Row vectors times matrices *)

Lemma nth_map_seq (f : nat -> Qc) (s n j : nat) (d : Qc) :
  (j < n)%nat -> nth j (map f (seq s n)) d = f (s + j)%nat.
Proof.
  revert s j; induction n as [|n IH]; intros s j Hj; [lia|].
  destruct j as [|j]; cbn [seq map nth].
  - now rewrite Nat.add_0_r.
  - rewrite IH by lia. f_equal. lia.
Qed.

Lemma map_nth_seq_id (v : vec) :
  map (fun j => nth j v 0) (seq 0 (length v)) = v.
Proof.
  induction v as [|x v IH]; [reflexivity|].
  cbn [length seq map nth]. f_equal.
  rewrite <- seq_shift, map_map. exact IH.
Qed.

Lemma zip_with_map_same {A B C D : Type} (f : B -> C -> D)
  (g : A -> B) (h : A -> C) (l : list A) :
  zip_with f (map g l) (map h l) = map (fun i => f (g i) (h i)) l.
Proof. induction l as [|a l IH]; cbn [map zip_with]; congruence. Qed.

Lemma vdot_zip_plus (u w col : vec) :
  length u = length w ->
  vdot (zip_with Qcplus u w) col = vdot u col + vdot w col.
Proof.
  unfold vdot. revert w col; induction u as [|x u IH]; intros [|y w] col H;
    try discriminate.
  - cbn [zip_with vsum fold_right]. ring.
  - destruct col as [|c col]; cbn [zip_with vsum fold_right].
    + ring.
    + unfold vsum in IH. rewrite IH by (now injection H). ring.
Qed.

Lemma rowvec_mat_nil (c : nat) (A : mat) :
  Forall (fun x => x = 0) (rowvec_mat c [] A).
Proof.
  unfold rowvec_mat. apply Forall_forall. intros x Hx.
  apply in_map_iff in Hx. now destruct Hx as [j [<- _]].
Qed.

Lemma rowvec_mat_cons (c : nat) (x : Qc) (v r : vec) (A : mat) :
  length r = c ->
  rowvec_mat c (x :: v) (r :: A)
  = zip_with Qcplus (vscale x r) (rowvec_mat c v A).
Proof.
  intros Hr. unfold rowvec_mat.
  assert (E : vscale x r = map (fun j => x * nth j r 0) (seq 0 c)).
  { subst c. unfold vscale.
    transitivity
      (map (Qcmult x) (map (fun j => nth j r 0) (seq 0 (length r))));
      [now rewrite map_nth_seq_id | apply map_map]. }
  rewrite E, zip_with_map_same.
  apply map_ext. intros j. reflexivity.
Qed.

Lemma length_rowvec_mat (c : nat) (v : vec) (A : mat) :
  length (rowvec_mat c v A) = c.
Proof. unfold rowvec_mat. now rewrite length_map, length_seq. Qed.

Lemma vdot_rowvec_mat (c : nat) (v : vec) (A : mat) (col : vec) :
  length v = length A ->
  Forall (fun row => length row = c) A ->
  vdot (rowvec_mat c v A) col
  = vdot v (map (fun row => vdot row col) A).
Proof.
  intros HL HA. revert v HL.
  induction HA as [|r A Hr _ IH]; intros [|x v] HL; try discriminate.
  - rewrite vdot_zero_l by apply rowvec_mat_nil. reflexivity.
  - rewrite rowvec_mat_cons by exact Hr.
    rewrite vdot_zip_plus
      by (unfold vscale; now rewrite length_map, length_rowvec_mat).
    rewrite vdot_vscale_l, IH by (now injection HL).
    reflexivity.
Qed.

Lemma ncols_shape (n : nat) (A : mat) : has_shape n n A -> ncols A = n.
Proof.
  intros [HL HF]. destruct A as [|r A].
  - now subst n.
  - now inversion HF.
Qed.

Lemma column_matmul (A B : mat) (j : nat) :
  (j < ncols B)%nat ->
  column (matmul A B) j = map (fun row => vdot row (column B j)) A.
Proof.
  intros Hj. unfold matmul. unfold column at 1. rewrite map_map.
  apply map_ext. intros row. now rewrite nth_map_seq.
Qed.

(** [(v A) B = v (A B)] for a row vector and square matrices of one size. *)
Lemma rowvec_mat_assoc (n : nat) (v : vec) (A B : mat) :
  length v = n -> has_shape n n A -> has_shape n n B ->
  rowvec_mat (ncols B) (rowvec_mat (ncols A) v A) B
  = rowvec_mat (ncols (matmul A B)) v (matmul A B).
Proof.
  intros Hv HA HB.
  rewrite (ncols_shape (has_shape_matmul HA HB)), (ncols_shape HA),
    (ncols_shape HB).
  unfold rowvec_mat at 1 3. apply map_ext_in. intros j Hj.
  apply in_seq in Hj.
  rewrite column_matmul by (rewrite (ncols_shape HB); lia).
  destruct HA as [HLA HFA]. apply vdot_rowvec_mat; congruence.
Qed.

Lemma vdot_indicator (v : vec) (j s : nat) :
  vdot v (map (fun i => if Nat.eqb i j then 1 else 0) (seq s (length v)))
  = if Nat.leb s j then nth (j - s) v 0 else 0.
Proof.
  unfold vdot. revert s; induction v as [|x v IH]; intros s.
  - cbn [length seq map zip_with vsum fold_right].
    destruct (Nat.leb s j); [now destruct (j - s)%nat | reflexivity].
  - cbn [length seq map zip_with vsum fold_right].
    unfold vsum in IH. rewrite IH.
    destruct (Nat.eqb s j) eqn:E.
    + apply Nat.eqb_eq in E. subst j.
      rewrite Nat.leb_refl, Nat.sub_diag.
      replace (Nat.leb (S s) s) with false
        by (symmetry; apply Nat.leb_gt; lia).
      cbn [nth]. ring.
    + apply Nat.eqb_neq in E. destruct (Nat.leb s j) eqn:L.
      * apply Nat.leb_le in L.
        replace (Nat.leb (S s) j) with true
          by (symmetry; apply Nat.leb_le; lia).
        replace (j - s)%nat with (S (j - S s)) by lia.
        cbn [nth]. ring.
      * apply Nat.leb_gt in L.
        replace (Nat.leb (S s) j) with false
          by (symmetry; apply Nat.leb_gt; lia).
        ring.
Qed.

Lemma column_eye (n j : nat) :
  (j < n)%nat ->
  column (eye n) j = map (fun i => if Nat.eqb i j then 1 else 0) (seq 0 n).
Proof.
  intros Hj. unfold column, eye. rewrite map_map.
  apply map_ext. intros i. now rewrite nth_map_seq.
Qed.

Lemma has_shape_eye (n : nat) : has_shape n n (eye n).
Proof.
  unfold eye. split.
  - now rewrite length_map, length_seq.
  - apply Forall_map, Forall_forall. intros i _.
    now rewrite length_map, length_seq.
Qed.

(** [v I = v]. *)
Lemma rowvec_mat_eye (v : vec) :
  rowvec_mat (ncols (eye (length v))) v (eye (length v)) = v.
Proof.
  rewrite (ncols_shape (has_shape_eye (length v))).
  transitivity (map (fun j => nth j v 0) (seq 0 (length v)));
    [|apply map_nth_seq_id].
  unfold rowvec_mat. apply map_ext_in. intros j Hj. apply in_seq in Hj.
  rewrite column_eye by lia. rewrite vdot_indicator.
  cbn [Nat.leb]. now rewrite Nat.sub_0_r.
Qed.

Lemma einsum_i_ij_Vec (v : vec) (M : mat) :
  einsum_i_ij (Vec v) M = Ok (Vec (rowvec_mat (ncols M) v M)).
Proof. reflexivity. Qed.

Lemma vneg_involutive (v : vec) : vneg (vneg v) = v.
Proof.
  unfold vneg. rewrite map_map.
  transitivity (map (fun x : Qc => x) v); [|apply map_id].
  apply map_ext. intros; ring.
Qed.

Lemma rowvec_mat_vneg (c : nat) (v : vec) (A : mat) :
  rowvec_mat c (vneg v) A = vneg (rowvec_mat c v A).
Proof.
  unfold rowvec_mat, vneg at 2. rewrite map_map. apply map_ext. intros j.
  rewrite vneg_vscale, vdot_vscale_l. ring.
Qed.

Lemma vdot_comm (u v : vec) : vdot u v = vdot v u.
Proof.
  unfold vdot. f_equal. apply zip_with_comm. intros; ring.
Qed.

Lemma apply_mat_symmetric (n : nat) (M : mat) (v : vec) :
  has_shape n n M -> transpose M = M ->
  map (fun row => vdot row v) M = rowvec_mat n v M.
Proof.
  intros HM Hsym. rewrite <- Hsym at 1. unfold transpose.
  rewrite (ncols_shape HM), map_map. unfold rowvec_mat.
  apply map_ext. intros j. apply vdot_comm.
Qed.

Lemma rows_times_eye (n : nat) (M : mat) :
  has_shape n n M -> matmul M (eye n) = M.
Proof.
  intros [_ HF]. unfold matmul.
  transitivity (map (fun row : vec => row) M); [|apply map_id].
  apply map_ext_in. intros row Hrow.
  rewrite Forall_forall in HF. rewrite <- (HF row Hrow).
  apply rowvec_mat_eye.
Qed.

Lemma eye_row (n i : nat) :
  (i < n)%nat ->
  nth i (eye n) [] = map (fun j => if Nat.eqb i j then 1 else 0) (seq 0 n).
Proof.
  intros Hi. unfold eye.
  rewrite (nth_indep _ [] (map (fun j => if Nat.eqb 0 j then 1 else 0)
                             (seq 0 n)))
    by (now rewrite length_map, length_seq).
  rewrite (map_nth (fun i => map (fun j => if Nat.eqb i j then 1 else 0)
                               (seq 0 n)) (seq 0 n) 0%nat i).
  now rewrite seq_nth.
Qed.

Lemma transpose_eye (n : nat) : transpose (eye n) = eye n.
Proof.
  unfold transpose. rewrite (ncols_shape (has_shape_eye n)).
  unfold eye at 2. apply map_ext_in. intros j Hj. apply in_seq in Hj.
  rewrite column_eye by lia. apply map_ext. intros i.
  now rewrite Nat.eqb_sym.
Qed.

Lemma nth_column (M : mat) (i j : nat) :
  nth i (column M j) 0 = nth j (nth i M []) 0.
Proof.
  unfold column. revert i; induction M as [|r M IH]; intros [|i];
    cbn [map nth]; auto; now destruct j.
Qed.

Lemma length_column (M : mat) (j : nat) : length (column M j) = length M.
Proof. unfold column. apply length_map. Qed.

Lemma rebuild_rows (n : nat) (M : mat) :
  has_shape n n M ->
  map (fun i => map (fun j => nth j (nth i M []) 0) (seq 0 n)) (seq 0 n) = M.
Proof.
  intros [HL HF]. subst n.
  assert (G : forall (c : nat) (A : mat),
             Forall (fun row => length row = c) A ->
             map (fun i => map (fun j => nth j (nth i A []) 0) (seq 0 c))
               (seq 0 (length A)) = A).
  { intros c A HA. induction HA as [|r A Hr _ IH]; [reflexivity|].
    cbn [length seq map nth]. f_equal.
    - subst c. apply map_nth_seq_id.
    - rewrite <- seq_shift, map_map. exact IH. }
  now apply G.
Qed.

Lemma eye_times_rows (n : nat) (M : mat) :
  has_shape n n M -> matmul (eye n) M = M.
Proof.
  intros HM. unfold matmul. rewrite (ncols_shape HM).
  transitivity
    (map (fun i => map (fun j => nth j (nth i M []) 0) (seq 0 n)) (seq 0 n));
    [|exact (rebuild_rows HM)].
  unfold eye. rewrite map_map. apply map_ext_in. intros i Hi.
  apply in_seq in Hi. apply map_ext_in. intros j Hj.
  rewrite vdot_comm.
  assert (E : n = length (column M j))
    by (rewrite length_column; now destruct HM).
  rewrite (map_ext (fun k => if Nat.eqb i k then 1 else 0)
             (fun k => if Nat.eqb k i then 1 else 0))
    by (intros k; now rewrite Nat.eqb_sym).
  rewrite E at 1. rewrite vdot_indicator. cbn [Nat.leb].
  now rewrite Nat.sub_0_r, nth_column.
Qed.


(** *** Transposes and products *)

Lemma matmul_rows (A B : mat) :
  matmul A B = map (fun row => rowvec_mat (ncols B) row B) A.
Proof. reflexivity. Qed.

Lemma matmul_assoc (n : nat) (A B C : mat) :
  has_shape n n A -> has_shape n n B -> has_shape n n C ->
  matmul (matmul A B) C = matmul A (matmul B C).
Proof.
  intros HA HB HC. rewrite !matmul_rows, map_map.
  apply map_ext_in. intros row Hrow.
  destruct HA as [_ HA]. rewrite Forall_forall in HA.
  exact (@rowvec_mat_assoc n row B C (HA row Hrow) HB HC).
Qed.

Lemma column_transpose (n : nat) (J : mat) (j : nat) :
  has_shape n n J -> (j < n)%nat -> column (transpose J) j = nth j J [].
Proof.
  intros HJ Hj. unfold transpose. rewrite (ncols_shape HJ).
  unfold column at 1. rewrite map_map.
  destruct HJ as [HL HF]. rewrite Forall_forall in HF.
  assert (Hr : length (nth j J []) = n)
    by (apply HF, nth_In; now rewrite HL).
  transitivity (map (fun i => nth i (nth j J []) 0) (seq 0 n)).
  - apply map_ext. intros i. apply nth_column.
  - rewrite <- Hr. apply map_nth_seq_id.
Qed.

Lemma has_shape_transpose (n : nat) (J : mat) :
  has_shape n n J -> has_shape n n (transpose J).
Proof.
  intros HJ. unfold transpose. rewrite (ncols_shape HJ). split.
  - now rewrite length_map, length_seq.
  - apply Forall_map, Forall_forall. intros j _.
    rewrite length_column. now destruct HJ.
Qed.

Lemma apply_mat_rows (n : nat) (J : mat) (v : vec) :
  length J = n ->
  apply_mat J v = map (fun j => vdot (nth j J []) v) (seq 0 n).
Proof.
  intros <-. unfold apply_mat.
  induction J as [|r J IH]; [reflexivity|].
  cbn [length seq map nth]. f_equal.
  rewrite <- seq_shift, map_map. exact IH.
Qed.

(** The row vector [v] times the transpose of [J] is [J] applied to [v]. *)
Lemma rowvec_mat_transpose (n : nat) (J : mat) (v : vec) :
  has_shape n n J -> rowvec_mat n v (transpose J) = apply_mat J v.
Proof.
  intros HJ. rewrite (@apply_mat_rows n J v) by now destruct HJ.
  unfold rowvec_mat. apply map_ext_in. intros j Hj. apply in_seq in Hj.
  rewrite (@column_transpose n J j HJ) by lia. apply vdot_comm.
Qed.

Lemma length_apply_mat (J : mat) (v : vec) :
  length (apply_mat J v) = length J.
Proof. unfold apply_mat. apply length_map. Qed.
(** ** Sectional curvature *)

Section SectionalCurvature.

Context {env : Environment}.
Variable self : InvariantMetric.
Variable algebra : LieAlgebra.
Variable n : nat.
Hypothesis ready : matrix_metric_ready self algebra n.

Let basis : list mat :=
  orthonormal_basis algebra (metric_mat_at_identity self).

Lemma ready_curvature_at_identity (a b c : mat) :
  curvature_at_identity self (Mat a) (Mat b) (Mat c)
  = Ok (Mat (curvature_mat self basis a b c)).
Proof.
  destruct ready as (Hm & Ha & Hb & _).
  now apply curvature_at_identity_Mat with (algebra := algebra).
Qed.

(** What the method computes on matrices: the denominator is the squared
    norm of the first vector times itself, minus the squared inner product. *)
Lemma sectional_curvature_at_identity_Mat (x y : mat) :
  sectional_curvature_at_identity self (Mat x) (Mat y)
  = (let num := ip_mat self y (curvature_mat self basis x y x) in
     let denom :=
       ip_mat self x x * ip_mat self x x
       - ip_mat self x y * ip_mat self x y in
     let condition := isclose rtol atol denom 0 in
     quotient <- divide num (where_ condition EPSILON denom) ;;
     Ok (where_ (negb condition) quotient 0)).
Proof.
  unfold sectional_curvature_at_identity.
  rewrite ready_curvature_at_identity, bind_Ok.
  unfold squared_norm, inner_product.
  destruct ready as (Hm & _).
  rewrite !inner_product_at_identity_Mat by assumption.
  now rewrite !bind_Ok.
Qed.

Lemma curvature_mat_dependent (x : mat) (lambda : Qc) :
  all_zero (curvature_mat self basis x (mscale lambda x) x).
Proof.
  unfold curvature_mat.
  rewrite connection_mat_mscale_l, connection_mat_mscale_l,
    connection_mat_mscale_r.
  apply all_zero_madd_msub_cancel.
  unfold connection_mat. apply all_zero_mscale.
  assert (Hz : all_zero (mat_bracket x (mscale lambda x))).
  { rewrite mat_bracket_mscale_r. apply all_zero_mscale.
    apply all_zero_msub_self. }
  apply all_zero_msub; [apply all_zero_msub|].
  - now apply all_zero_mat_bracket_l.
  - apply all_zero_mneg, all_zero_lincomb, Forall_forall.
    intros c Hc. apply in_map_iff in Hc. destruct Hc as [e [<- _]].
    unfold ip_mat. apply msum_zero.
    assert (Hh : all_zero
                   (hadamard (mat_bracket e (mat_bracket x (mscale lambda x)))
                      x))
      by now apply all_zero_hadamard_l, all_zero_mat_bracket_r.
    destruct (lie_algebra self); [destruct (is_diagonal _)|]; auto.
    now apply all_zero_hadamard_l.
  - apply all_zero_mneg, all_zero_lincomb, Forall_forall.
    intros c Hc. apply in_map_iff in Hc. destruct Hc as [e [<- _]].
    unfold ip_mat. apply msum_zero.
    assert (Hh : all_zero
                   (hadamard (mat_bracket e x)
                      (mat_bracket x (mscale lambda x))))
      by now apply all_zero_hadamard_r.
    destruct (lie_algebra self); [destruct (is_diagonal _)|]; auto.
    now apply all_zero_hadamard_l.
Qed.

Lemma ip_mat_zero_r (a b : mat) : all_zero b -> ip_mat self a b = 0.
Proof.
  intros Hb. unfold ip_mat. apply msum_zero.
  assert (Hh : all_zero (hadamard a b)) by now apply all_zero_hadamard_r.
  destruct (lie_algebra self); [destruct (is_diagonal _)|]; auto.
  now apply all_zero_hadamard_l.
Qed.

(** In exact arithmetic the numerator [<R(x, y)x, y>] cancels on linearly
    dependent vectors [x] and [y = lambda x]: on a configured matrix-type
    metric and with a non-negative [isclose] tolerance the method returns
    [0], whether the guard fires or not. *)
Lemma sectional_curvature_dependent_exact (x : mat) (lambda : Qc) :
  0 <= atol ->
  has_shape n n x ->
  sectional_curvature_at_identity self (Mat x) (Mat (mscale lambda x))
  = Ok 0.
Proof.
  intros Hatol _.
  rewrite sectional_curvature_at_identity_Mat. cbv zeta.
  rewrite (ip_mat_zero_r _ (curvature_mat_dependent x lambda)).
  now apply guarded_quotient_of_zero.
Qed.

(** C8. On a configured matrix-type metric,
    [curvature_at_identity(x, y, z) = - curvature_at_identity(y, x, z)]
    for all tangent vectors [x], [y], [z] at identity, and both calls
    return. *)
Theorem curvature_at_identity_antisymmetric (x y z : mat) :
  has_shape n n x -> has_shape n n y -> has_shape n n z ->
  exists r : array,
    curvature_at_identity self (Mat y) (Mat x) (Mat z) = Ok r
    /\ curvature_at_identity self (Mat x) (Mat y) (Mat z) = Ok (neg r).
Proof.
  intros _ _ _. exists (Mat (curvature_mat self basis y x z)).
  rewrite !ready_curvature_at_identity. split; [reflexivity|].
  simpl. do 2 f_equal.
  destruct ready as (Hm & Ha & Hb & _).
  now apply curvature_mat_antisymmetric.
Qed.

End SectionalCurvature.

(** ** Construction of a bi-invariant metric *)

Section Construction.

Context {env : Environment}.

Lemma InvariantMetric_init_left (klass : metric_class) (G : LieGroup)
  (algebra : option LieAlgebra) (M : mat) :
  exists self,
    InvariantMetric_init klass G algebra (Some M) "left" = Ok self
    /\ cls self = klass
    /\ group self = G
    /\ lie_algebra self = algebra
    /\ metric_mat_at_identity self = M
    /\ left_or_right self = "left".
Proof.
  unfold InvariantMetric_init. simpl. eexists. split; [reflexivity|].
  simpl. repeat split.
Qed.

(** C6. [BiInvariantMetric(group)] raises [ValueError] from the constructor
    when the printed form of the group mentions neither "SpecialOrthogonal"
    nor "SO"; when it mentions one of them the constructor returns a metric
    on that group whose matrix at identity is the identity matrix of size
    [group.dim]. *)
Theorem BiInvariantMetric_init_only_orthogonal (G : LieGroup) :
  (~ mentions "SpecialOrthogonal" (__str__ G)
   /\ ~ mentions "SO" (__str__ G) ->
   BiInvariantMetric_init G = Raise ValueError)
  /\ (mentions "SpecialOrthogonal" (__str__ G)
      \/ mentions "SO" (__str__ G) ->
      exists self,
        BiInvariantMetric_init G = Ok self
        /\ cls self = BiInvariantMetric_cls
        /\ group self = G
        /\ metric_mat_at_identity self = eye (dim G)).
Proof.
  unfold BiInvariantMetric_init.
  destruct (InvariantMetric_init_left BiInvariantMetric_cls G None
              (eye (dim G))) as (self & -> & Hc & Hg & _ & Hm & _).
  simpl. split.
  - intros [H1 H2].
    apply not_mentions in H1. apply not_mentions in H2.
    assert (H3 : str_contains "SpecialOrthogonal3" (__str__ G) = false).
    { apply not_mentions. intros H. apply not_mentions in H1. apply H1.
      now apply (mentions_longer "SpecialOrthogonal" "3"). }
    now rewrite H1, H2, H3.
  - intros H. exists self. repeat split; auto.
    destruct H as [H|H]; apply str_contains_mentions in H; rewrite H; simpl;
      auto.
    now rewrite andb_false_r.
Qed.

End Construction.

(** ** Delegation of [inner_product] and [exp] *)

Section Delegation.

Context {env : Environment}.
Variable self : InvariantMetric.

Let G : LieGroup := group self.
Let M : mat := metric_mat_at_identity self.

(** On a vector-type group the inner product at identity of two vectors is
    the bilinear form of the metric matrix. *)
Lemma inner_product_at_identity_Vec (n : nat) (a b : vec) :
  default_point_type G = "vector" ->
  has_shape n n M ->
  inner_product_at_identity self (Vec a) (Vec b)
  = Ok (vdot (rowvec_mat n a M) b).
Proof.
  intros Hv HM. unfold inner_product_at_identity. fold G. rewrite Hv.
  cbn [check_parameter_accepted_values existsb String.eqb Ascii.eqb
         Bool.eqb orb].
  rewrite bind_Ok. cbv iota zeta. fold M.
  rewrite einsum_i_ij_Vec, bind_Ok, (ncols_shape HM). reflexivity.
Qed.

(** The bilinear form [J^T M J] on [a], [b] is the bilinear form [M] on
    [J a], [J b]. *)
Lemma pulled_back_bilinear_form (n : nat) (J : mat) (a b : vec) :
  has_shape n n M -> has_shape n n J -> length a = n ->
  vdot (rowvec_mat n a (matmul (matmul (transpose J) M) J)) b
  = vdot (rowvec_mat n (apply_mat J a) M) (apply_mat J b).
Proof.
  intros HM HJ Ha.
  pose proof (has_shape_transpose HJ) as HJt.
  pose proof (has_shape_matmul HJt HM) as HX.
  pose proof (@rowvec_mat_assoc n a (matmul (transpose J) M) J Ha HX HJ)
    as E1.
  rewrite (ncols_shape HX), (ncols_shape HJ),
    (ncols_shape (has_shape_matmul HX HJ)) in E1.
  rewrite <- E1.
  pose proof (@rowvec_mat_assoc n a (transpose J) M Ha HJt HM) as E2.
  rewrite (ncols_shape HJt), (ncols_shape HM),
    (ncols_shape HX) in E2.
  rewrite <- E2, (rowvec_mat_transpose a HJ).
  destruct HJ as [HL HF].
  rewrite (@vdot_rowvec_mat n (rowvec_mat n (apply_mat J a) M) J b)
    by (rewrite ?length_rowvec_mat; congruence).
  reflexivity.
Qed.

(** C3.  Without a base point [inner_product] is [inner_product_at_identity];
    with a base point [p] it is [inner_product_at_identity] of the two vectors
    translated to the identity by the inverse tangent-translation map at [p]
    of the metric's orientation.  On a group that is not vector-type this is
    what the method computes.  On a vector-type group the method calls the
    parent class instead, and the two agree on vectors of length [n] when the
    parent's inner product is the bilinear form of [metric_matrix(p)] and the
    inverse translation map at [p] is the action of the inverse [n x n]
    Jacobian that [metric_matrix] uses. *)
Theorem inner_product_delegation (u v : array) :
  inner_product self u v None = inner_product_at_identity self u v
  /\ forall p : array,
       let to_identity :=
         tangent_translation_map G p (left_or_right self) true in
       (default_point_type G <> "vector" ->
        inner_product self u v (Some p)
        = inner_product_at_identity self (to_identity u) (to_identity v))
       /\ (default_point_type G = "vector" ->
           forall (n : nat) (a b : vec),
             let J :=
               linalg_inv
                 (jacobian_translation G (regularize G p)
                    (left_or_right self)) in
             u = Vec a -> v = Vec b ->
             length a = n -> length b = n ->
             has_shape n n M -> has_shape n n J ->
             super_inner_product self u v p
             = RiemannianMetric_inner_product self u v p ->
             to_identity u = Vec (apply_mat J a) ->
             to_identity v = Vec (apply_mat J b) ->
             inner_product self u v (Some p)
             = inner_product_at_identity self
                 (to_identity u) (to_identity v)).
Proof.
  split; [reflexivity|]. intros p to_identity. split.
  - intros Hv. apply String.eqb_neq in Hv.
    unfold inner_product. fold G. now rewrite Hv.
  - intros Hv n a b J -> -> Ha Hb HM HJ Hparent Hu Hw.
    rewrite Hu, Hw.
    rewrite (@inner_product_at_identity_Vec n _ _ Hv HM).
    unfold inner_product. fold G. rewrite Hv.
    cbn [String.eqb Ascii.eqb Bool.eqb].
    rewrite Hparent.
    unfold RiemannianMetric_inner_product, metric_matrix. fold G M.
    rewrite Hv. cbn [String.eqb Ascii.eqb Bool.eqb]. cbv zeta. fold J.
    rewrite bind_Ok, einsum_i_ij_Vec, bind_Ok.
    cbn [einsum_j_j]. f_equal.
    pose proof (has_shape_matmul
                  (has_shape_matmul (has_shape_transpose HJ) HM) HJ) as HP.
    rewrite (ncols_shape HP).
    now apply pulled_back_bilinear_form.
Qed.

Hypothesis regularize_idempotent :
  forall x, regularize G (regularize G x) = regularize G x.
Hypothesis inverse_regularized :
  forall x, regularize G (inverse G (regularize G x))
            = inverse G (regularize G x).

(** C5.  On a group whose [regularize] is idempotent and whose [inverse] maps
    regularized points to regularized points, [exp_from_identity(v)] is
    [left_exp_from_identity(v)] for a left-invariant metric and
    [group.inverse(left_exp_from_identity(-v))] for a right-invariant one.
    At a base point [p] that is not the identity within the tolerance of
    [allclose], [exp(v, p)] translates [v] to the identity at the
    (regularized) base point, applies [self.exp_from_identity], composes the
    base point on the left of the result for a left-invariant metric and on
    the right for a right-invariant one, and regularizes the product; on an
    instance of [InvariantMetric] itself the result is therefore
    [regularize(p . left_exp_from_identity(v'))], respectively
    [regularize(group.inverse(left_exp_from_identity(-v')) . p)], with [v']
    the translated vector. *)
Theorem exp_delegation (v : array) :
  (left_or_right self = "left" ->
   exp_from_identity self v = left_exp_from_identity self v)
  /\ (left_or_right self = "right" ->
      exp_from_identity self v
      = (e <- left_exp_from_identity self (neg v) ;;
         Ok (inverse G e)))
  /\ forall p : array,
       let base_point := regularize G p in
       let v' :=
         tangent_translation_map G base_point (left_or_right self) true v in
       allclose rtol atol base_point (identity G) = false ->
       (left_or_right self = "left" ->
        exp self v (Some p)
        = (e <- self_exp_from_identity self v' ;;
           Ok (regularize G (compose G base_point e))))
       /\ (left_or_right self = "right" ->
           exp self v (Some p)
           = (e <- self_exp_from_identity self v' ;;
              Ok (regularize G (compose G e base_point))))
       /\ (cls self = InvariantMetric_cls ->
           (left_or_right self = "left" ->
            exp self v (Some p)
            = (e <- left_exp_from_identity self v' ;;
               Ok (regularize G (compose G base_point e))))
           /\ (left_or_right self = "right" ->
               exp self v (Some p)
               = (e <- left_exp_from_identity self (neg v') ;;
                  Ok (regularize G
                        (compose G (inverse G e) base_point))))).
Proof.
  assert (L : forall w, left_or_right self = "left" ->
                exp_from_identity self w = left_exp_from_identity self w).
  { intros w Hleft. unfold exp_from_identity, left_exp_from_identity.
    fold G. rewrite Hleft. cbn [String.eqb Ascii.eqb Bool.eqb].
    destruct (einsum_i_ij _ _); cbn [bind]; [|reflexivity].
    now rewrite regularize_idempotent. }
  assert (R : forall w, left_or_right self = "right" ->
                exp_from_identity self w
                = (e <- left_exp_from_identity self (neg w) ;;
                   Ok (inverse G e))).
  { intros w Hright. unfold exp_from_identity, left_exp_from_identity.
    fold G. rewrite Hright. cbn [String.eqb Ascii.eqb Bool.eqb].
    destruct (einsum_i_ij _ _); cbn [bind]; [|reflexivity].
    now rewrite inverse_regularized. }
  split; [apply L|]. split; [apply R|].
  intros p base_point v' Hfar.
  assert (E : exp self v (Some p)
              = (e <- self_exp_from_identity self v' ;;
                 Ok (regularize G
                       (if String.eqb (left_or_right self) "left"
                        then compose G base_point e
                        else compose G e base_point)))).
  { unfold exp. fold G. cbv zeta. fold base_point. now rewrite Hfar. }
  split; [|split].
  - intros Hleft. rewrite E, Hleft. reflexivity.
  - intros Hright. rewrite E, Hright. reflexivity.
  - intros Hcls. unfold self_exp_from_identity in E. rewrite Hcls in E.
    split.
    + intros Hleft. rewrite E, (L v' Hleft), Hleft. reflexivity.
    + intros Hright. rewrite E, (R v' Hright), Hright.
      cbn [String.eqb Ascii.eqb Bool.eqb].
      destruct (left_exp_from_identity self (neg v')); reflexivity.
Qed.

End Delegation.

(** ** The closed-form logarithm on the Euclidean group *)

Section ClosedFormLog.

Import Concrete.
Context {env : Environment}.

Lemma frac_1_4_times_4 : frac 1 4 * z 4 = 1.
Proof. apply Qc_is_canon. reflexivity. Qed.

Lemma frac_1_2_squared : frac 1 2 * frac 1 2 = frac 1 4.
Proof. apply Qc_is_canon. reflexivity. Qed.

Lemma frac_1_4_not_1 : frac 1 4 <> 1.
Proof. intros H. apply (f_equal this) in H. vm_compute in H. discriminate. Qed.

Lemma shape_2_2 (X : mat) :
  has_shape 2 2 X -> exists a b c d : Qc, X = [[a; b]; [c; d]].
Proof.
  intros [HL HR].
  destruct X as [|r1 [|r2 [|r3 X]]]; try discriminate.
  inversion HR as [|? ? H1 HR']; subst.
  inversion HR' as [|? ? H2 _]; subst.
  destruct r1 as [|a [|b [|? ?]]]; try discriminate.
  destruct r2 as [|c [|d [|? ?]]]; try discriminate.
  now exists a, b, c, d.
Qed.

Lemma nonneg_sum_zero (a d : Qc) : 0 <= a -> 0 <= d -> a + d = 0 -> a = 0.
Proof.
  intros Ha Hd H. apply Qcle_antisym; auto.
  replace a with (- d) by (rewrite <- (Qcplus_0_l (- d)), <- H; ring).
  replace 0 with (- 0) by ring. now apply Qcopp_le_compat.
Qed.

Lemma square_root_nonneg (r x : Qc) : 0 <= r -> 0 <= x -> x * x = r * r -> x = r.
Proof.
  intros Hr Hx H.
  assert (E : (x - r) * (x + r) = 0)
    by (replace ((x - r) * (x + r)) with (x * x - r * r) by ring;
        rewrite H; ring).
  apply Qcmult_integral in E. destruct E as [E|E].
  - rewrite <- (Qcplus_0_l r), <- E. ring.
  - pose proof (nonneg_sum_zero Hx Hr E) as Hx0.
    rewrite Hx0, Qcplus_0_l in E. now rewrite Hx0, E.
Qed.

Lemma inverse_of_diag14 (X : mat) :
  is_inverse_of 2 X diag14 -> X = [[1; 0]; [0; frac 1 4]].
Proof.
  intros [Hs H]. destruct (shape_2_2 Hs) as (a & b & c & d & ->).
  cbv [matmul map vdot column zip_with vsum fold_right nth seq ncols hd
         length diag14 eye Nat.eqb] in H.
  pose proof (f_equal (fun M => entry M 0 0) H) as Ha.
  pose proof (f_equal (fun M => entry M 0 1) H) as Hb.
  pose proof (f_equal (fun M => entry M 1 0) H) as Hc.
  pose proof (f_equal (fun M => entry M 1 1) H) as Hd.
  cbv [entry nth] in Ha, Hb, Hc, Hd. clear H.
  assert (Ea : a = 1) by (rewrite <- Ha; ring).
  assert (Eb : b = 0) by (rewrite <- Hb; ring).
  assert (Ec : c = 0).
  { transitivity (frac 1 4 * z 4 * c); [rewrite frac_1_4_times_4; ring|].
    transitivity (frac 1 4 * (0 * a + (z 4 * c + 0))); [ring|].
    rewrite Hc; ring. }
  assert (Ed : d = frac 1 4).
  { transitivity (frac 1 4 * z 4 * d); [rewrite frac_1_4_times_4; ring|].
    transitivity (frac 1 4 * (0 * b + (z 4 * d + 0))); [ring|].
    rewrite Hd; ring. }
  now subst.
Qed.

Lemma principal_sqrt_of_inverse_diag14 (S : mat) :
  principal_sqrt 2 S [[1; 0]; [0; frac 1 4]] -> S = [[1; 0]; [0; frac 1 2]].
Proof.
  intros (Hs & Ht & Hpos & H).
  destruct (shape_2_2 Hs) as (a & b & c & d & ->).
  cbv [transpose map column seq ncols hd length nth] in Ht.
  pose proof (f_equal (fun M => entry M 1 0) Ht) as Hcb.
  cbv [entry nth] in Hcb. clear Ht. subst c.
  assert (Ha : 0 <= a).
  { pose proof (Hpos [1; 0] eq_refl) as P.
    cbv [apply_mat map vdot zip_with vsum fold_right] in P.
    now replace (1 * (a * 1 + (b * 0 + 0)) + (0 * (b * 1 + (d * 0 + 0)) + 0))
      with a in P by ring. }
  assert (Hd : 0 <= d).
  { pose proof (Hpos [0; 1] eq_refl) as P.
    cbv [apply_mat map vdot zip_with vsum fold_right] in P.
    now replace (0 * (a * 0 + (b * 1 + 0)) + (1 * (b * 0 + (d * 1 + 0)) + 0))
      with d in P by ring. }
  cbv [matmul map vdot column zip_with vsum fold_right nth seq ncols hd
         length] in H.
  pose proof (f_equal (fun M => entry M 0 0) H) as Haa.
  pose proof (f_equal (fun M => entry M 0 1) H) as Hab.
  pose proof (f_equal (fun M => entry M 1 1) H) as Hdd.
  cbv [entry nth] in Haa, Hab, Hdd. clear H.
  assert (Hb : b = 0).
  { assert (E : b * (a + d) = 0) by (rewrite <- Hab; ring).
    apply Qcmult_integral in E. destruct E as [E|E]; auto.
    pose proof (nonneg_sum_zero Ha Hd E) as Ha0. subst a.
    rewrite Qcplus_0_l in E. subst d.
    exfalso. apply frac_1_4_not_1. rewrite <- Hdd, <- Haa. ring. }
  subst b.
  assert (Ea : a = 1).
  { apply square_root_nonneg; auto.
    - unfold Qcle; simpl; discriminate.
    - rewrite <- Haa at 2. ring. }
  assert (Ed : d = frac 1 2).
  { apply square_root_nonneg; auto.
    - unfold Qcle; simpl; discriminate.
    - rewrite frac_1_2_squared, <- Hdd. ring. }
  now subst.
Qed.

Lemma left_log_from_identity_Euclidean (lr : string) (p : array) :
  left_log_from_identity (euclidean_metric lr) p
  = einsum_i_ij p (linalg_sqrtm (linalg_inv diag14)).
Proof.
  unfold left_log_from_identity.
  destruct (einsum_i_ij _ _); reflexivity.
Qed.

(** C9. On the Euclidean vector group with metric matrix [diag(1, 4)], when
    the backend's inverse and matrix square root return the inverse and the
    principal square root, [log_from_identity([2, 4])] is exactly [[2, 2]],
    for a left- as for a right-invariant metric. *)
Theorem log_from_identity_diag_1_4 :
  is_inverse_of 2 (linalg_inv diag14) diag14 ->
  principal_sqrt 2 (linalg_sqrtm (linalg_inv diag14)) (linalg_inv diag14) ->
  log_from_identity (euclidean_metric "left") (Vec [z 2; z 4])
  = Ok (Vec [z 2; z 2])
  /\ log_from_identity (euclidean_metric "right") (Vec [z 2; z 4])
     = Ok (Vec [z 2; z 2]).
Proof.
  intros Hinv Hsqrt.
  apply inverse_of_diag14 in Hinv. rewrite Hinv in Hsqrt.
  apply principal_sqrt_of_inverse_diag14 in Hsqrt.
  unfold log_from_identity.
  change (String.eqb (left_or_right (euclidean_metric "left")) "left")
    with true.
  change (String.eqb (left_or_right (euclidean_metric "right")) "left")
    with false.
  cbv iota. rewrite !left_log_from_identity_Euclidean, Hinv, Hsqrt.
  split; apply array_result_eqb_eq; vm_compute; reflexivity.
Qed.

End ClosedFormLog.

(** ** The Euler-Poincare geodesic from a zero velocity *)

Lemma repeat_zero_all (c : nat) : Forall (fun x : Qc => x = 0) (repeat 0 c).
Proof. induction c; simpl; constructor; auto. Qed.

Lemma all_zero_zeros (r c : nat) : all_zero (zeros r c).
Proof.
  unfold zeros. induction r; simpl; constructor; auto.
  apply repeat_zero_all.
Qed.

Lemma vscale_0_shape (c : nat) (row : vec) :
  length row = c -> vscale 0 row = repeat 0 c.
Proof.
  revert c; induction row as [|x row IH]; intros [|c] H;
    cbn [length repeat vscale map] in *; try discriminate; auto.
  injection H as H. unfold vscale in IH. rewrite (IH c H). f_equal; try ring.
Qed.

Lemma mscale_0_shape (r c : nat) (A : mat) :
  has_shape r c A -> mscale 0 A = zeros r c.
Proof.
  intros [HL HR]. subst r. unfold zeros.
  induction HR as [|row A Hrow _ IH]; simpl; auto.
  f_equal; [now apply vscale_0_shape | exact IH].
Qed.

Lemma vscale_zeros (k : Qc) (c : nat) : vscale k (repeat 0 c) = repeat 0 c.
Proof.
  induction c; cbn [repeat vscale map]; auto.
  unfold vscale in IHc. rewrite IHc. f_equal; try ring.
Qed.

Lemma mscale_zeros (k : Qc) (r c : nat) : mscale k (zeros r c) = zeros r c.
Proof.
  unfold zeros. induction r; simpl; auto.
  f_equal; [apply vscale_zeros | exact IHr].
Qed.

Lemma vadd_zeros (c : nat) :
  zip_with Qcplus (repeat 0 c) (repeat 0 c) = repeat 0 c.
Proof.
  induction c; cbn [repeat zip_with]; auto.
  rewrite IHc. f_equal; try ring.
Qed.

Lemma madd_zeros (r c : nat) : madd (zeros r c) (zeros r c) = zeros r c.
Proof.
  unfold madd, zeros. induction r; simpl; auto.
  f_equal; [apply vadd_zeros | exact IHr].
Qed.

Lemma fold_madd_zeros (r c : nat) (ts : list mat) :
  Forall (fun t => t = zeros r c) ts ->
  fold_left madd ts (zeros r c) = zeros r c.
Proof.
  induction 1 as [|t ts Ht _ IH]; simpl; auto.
  now rewrite Ht, madd_zeros.
Qed.

Lemma lincomb_zero_coefficients (n : nat) (bs : list mat) :
  bs <> [] -> Forall (has_shape n n) bs ->
  lincomb (map (fun _ => 0) bs) bs = zeros n n.
Proof.
  intros Hne Hs. unfold lincomb.
  assert (E : Forall (fun t => t = zeros n n)
                (zip_with mscale (map (fun _ : mat => 0) bs) bs)).
  { clear Hne. induction Hs as [|b bs Hb _ IH]; simpl; constructor; auto.
    now apply mscale_0_shape. }
  destruct bs as [|b bs]; [congruence|]. simpl in *.
  inversion E as [|? ? E1 E2]; subst.
  rewrite E1. now apply fold_madd_zeros.
Qed.

Section ZeroVelocity.

Context {env : Environment}.
Variable self : InvariantMetric.
Variable algebra : LieAlgebra.
Variable n : nat.
Hypothesis ready : matrix_metric_ready self algebra n.

Let G : LieGroup := group self.
Let basis : list mat :=
  orthonormal_basis algebra (metric_mat_at_identity self).
Let zero : array := Mat (zeros n n).

Lemma lie_acceleration_zero (point : array) :
  lie_acceleration self basis point zero = Ok zero.
Proof.
  destruct ready as (Hm & Ha & Hne & Hs & _).
  unfold lie_acceleration, zero.
  rewrite (comprehension_Ok _ (fun _ : mat => 0)).
  - rewrite bind_Ok, einsum_i_ijk_lincomb by exact Hne.
    rewrite bind_Ok. now rewrite (@lincomb_zero_coefficients n basis Hne Hs).
  - intros e _. rewrite structure_constant_Mat by exact Hm.
    f_equal. apply ip_mat_zero_r, all_zero_zeros.
Qed.

Lemma array_add_zero (k : Qc) :
  array_add zero (array_scale k zero) = Ok zero.
Proof.
  unfold zero. simpl. now rewrite mscale_zeros, madd_zeros.
Qed.

Lemma array_add_zero_zero : array_add zero zero = Ok zero.
Proof. unfold zero. simpl. now rewrite madd_zeros. Qed.

Variable p : array.
Hypothesis exp_zero : group_exp G zero = identity G.
Hypothesis compose_identity : compose G p (identity G) = p.

Lemma transport_zero (dt : Qc) : integrator.transport G p dt zero = p.
Proof.
  unfold integrator.transport, zero. simpl array_scale.
  rewrite mscale_zeros. fold zero. now rewrite exp_zero.
Qed.

Ltac stage :=
  cbv beta iota zeta;
  repeat (progress (rewrite ?lie_acceleration_zero, ?array_add_zero,
                      ?array_add_zero_zero, ?bind_Ok;
                    cbv beta iota zeta)).

Lemma euler_step_zero (dt : Qc) :
  integrator.euler_step G (lie_acceleration self basis) (p, zero) dt
  = Ok (p, zero).
Proof.
  unfold integrator.euler_step. stage.
  do 2 f_equal. apply transport_zero.
Qed.

Lemma group_rk2_step_zero (dt : Qc) :
  integrator.group_rk2_step G (lie_acceleration self basis) (p, zero) dt
  = Ok (p, zero).
Proof.
  unfold integrator.group_rk2_step. stage.
  do 2 f_equal. apply transport_zero.
Qed.

Lemma group_rk4_step_zero (dt : Qc) :
  integrator.group_rk4_step G (lie_acceleration self basis) (p, zero) dt
  = Ok (p, zero).
Proof.
  unfold integrator.group_rk4_step. stage.
  do 2 f_equal. apply transport_zero.
Qed.

Lemma run_fixed (stepf : integrator.state -> result integrator.state)
  (st : integrator.state) (k : nat) :
  stepf st = Ok st -> integrator.run stepf k st = Ok (repeat (fst st) k).
Proof.
  intros H. induction k as [|k IH]; [reflexivity|].
  cbn [integrator.run]. rewrite H, bind_Ok, IH, bind_Ok. reflexivity.
Qed.

Lemma last_repeat (k : nat) : last (p :: repeat p k) p = p.
Proof.
  induction k as [|k IH]; [reflexivity | exact IH].
Qed.

(** C7. On a configured matrix-type metric, for every base point [p] at which
    the group laws [exp(0) = identity], [p . identity = p] and
    [regularize(p^-1 . 0) = 0] hold, every number of steps and each of the
    schemes "euler", "group_rk2" and "group_rk4",
    [euler_poincarre_geodesic] with the zero tangent vector returns [p]. *)
Theorem euler_poincarre_geodesic_zero_velocity (n_steps : nat) (step : string) :
  In step ["euler"; "group_rk2"; "group_rk4"] ->
  regularize G (compose G (inverse G p) zero) = zero ->
  euler_poincarre_geodesic self zero p n_steps step = Ok p.
Proof.
  intros Hstep Hinit.
  unfold euler_poincarre_geodesic, getattr_lie_algebra.
  destruct ready as (_ & Ha & _). rewrite Ha, bind_Ok. cbv zeta.
  fold G basis. rewrite Hinit.
  unfold integrator.integrate.
  assert (Hrun :
    exists stepf,
      integrator.step_function step = Ok stepf
      /\ forall dt,
           stepf G (lie_acceleration self basis) (p, zero) dt
           = Ok (p, zero)).
  { simpl in Hstep. destruct Hstep as [<-|[<-|[<-|[]]]]; eexists;
      (split; [reflexivity|]).
    - apply euler_step_zero.
    - apply group_rk2_step_zero.
    - apply group_rk4_step_zero. }
  destruct Hrun as (stepf & -> & Hfix). rewrite bind_Ok.
  rewrite (@run_fixed
             (fun st => stepf G (lie_acceleration self basis) st _)
             (p, zero) n_steps (Hfix _)).
  rewrite !bind_Ok. f_equal. apply last_repeat.
Qed.

End ZeroVelocity.

(** ** A metric constructed without a basis provider *)

Lemma raises_bind_l {A B : Type} (r : result A) (k : A -> result B) :
  raises r -> raises (bind r k).
Proof. intros [e ->]. now exists e. Qed.

Lemma raises_bind_r {A B : Type} (r : result A) (k : A -> result B) :
  (forall a, raises (k a)) -> raises (bind r k).
Proof. intros H. destruct r as [a|e]; [apply H | now exists e]. Qed.

Lemma raises_Raise {A : Type} (e : exn) : raises (@Raise A e).
Proof. now exists e. Qed.

Lemma bind_no_attribute_error {A B : Type} (r : result A)
  (k : A -> result B) :
  r <> Raise AttributeError ->
  (forall a, k a <> Raise AttributeError) ->
  bind r k <> Raise AttributeError.
Proof.
  intros Hr Hk. destruct r as [a|e]; cbn [bind]; [apply Hk|].
  intros H. apply Hr. now injection H as ->.
Qed.

Lemma einsum_i_ij_no_attribute_error (a : array) (M : mat) :
  einsum_i_ij a M <> Raise AttributeError.
Proof. destruct a; discriminate. Qed.

Lemma einsum_j_j_no_attribute_error (a b : array) :
  einsum_j_j a b <> Raise AttributeError.
Proof. destruct a, b; discriminate. Qed.

Lemma bracket_no_attribute_error (a b : array) :
  bracket a b <> Raise AttributeError.
Proof. destruct a, b; discriminate. Qed.

Lemma check_no_attribute_error (param : string) (accepted : list string) :
  check_parameter_accepted_values param accepted <> Raise AttributeError.
Proof.
  unfold check_parameter_accepted_values.
  destruct (existsb _ _); discriminate.
Qed.

Section WithoutBasisProvider.

Context {env : Environment}.
Variable self : InvariantMetric.

(** The calls that never touch the provider. *)

Lemma inner_product_at_identity_no_attribute_error (a b : array) :
  inner_product_at_identity self a b <> Raise AttributeError.
Proof.
  unfold inner_product_at_identity.
  apply bind_no_attribute_error; [apply check_no_attribute_error|].
  intros _. destruct (String.eqb _ _).
  - apply bind_no_attribute_error; [apply einsum_i_ij_no_attribute_error|].
    intros; apply einsum_j_j_no_attribute_error.
  - destruct a, b; discriminate.
Qed.

Lemma structure_constant_no_attribute_error (a b c : array) :
  structure_constant self a b c <> Raise AttributeError.
Proof.
  unfold structure_constant.
  apply bind_no_attribute_error; [apply bracket_no_attribute_error|].
  intros; apply inner_product_at_identity_no_attribute_error.
Qed.

Lemma metric_matrix_no_attribute_error (p : option array) :
  metric_matrix self p <> Raise AttributeError.
Proof. unfold metric_matrix. destruct (String.eqb _ _); discriminate. Qed.

Lemma left_exp_from_identity_no_attribute_error (v : array) :
  left_exp_from_identity self v <> Raise AttributeError.
Proof.
  unfold left_exp_from_identity.
  apply bind_no_attribute_error; [apply einsum_i_ij_no_attribute_error|].
  discriminate.
Qed.

Lemma self_exp_from_identity_no_attribute_error (v : array) :
  self_exp_from_identity self v <> Raise AttributeError.
Proof.
  unfold self_exp_from_identity, exp_from_identity,
    BiInvariantMetric_exp_from_identity.
  destruct (cls self); [|discriminate].
  apply bind_no_attribute_error; [|discriminate].
  destruct (String.eqb _ _).
  - apply left_exp_from_identity_no_attribute_error.
  - apply bind_no_attribute_error; [|discriminate].
    apply left_exp_from_identity_no_attribute_error.
Qed.

Lemma exp_no_attribute_error (v : array) (p : option array) :
  exp self v p <> Raise AttributeError.
Proof.
  unfold exp. cbv zeta. destruct (allclose _ _ _ _).
  - apply self_exp_from_identity_no_attribute_error.
  - apply bind_no_attribute_error; [|discriminate].
    apply self_exp_from_identity_no_attribute_error.
Qed.

Lemma left_log_from_identity_no_attribute_error (q : array) :
  left_log_from_identity self q <> Raise AttributeError.
Proof.
  unfold left_log_from_identity.
  apply bind_no_attribute_error; [apply einsum_i_ij_no_attribute_error|].
  discriminate.
Qed.

Lemma self_log_from_identity_no_attribute_error (q : array) :
  self_log_from_identity self q <> Raise AttributeError.
Proof.
  unfold self_log_from_identity, log_from_identity,
    BiInvariantMetric_log_from_identity.
  destruct (cls self); [|discriminate].
  cbv zeta. destruct (String.eqb _ _).
  - apply left_log_from_identity_no_attribute_error.
  - apply bind_no_attribute_error; [|discriminate].
    apply left_log_from_identity_no_attribute_error.
Qed.

Lemma log_no_attribute_error (q : array) (p : option array) :
  log self q p <> Raise AttributeError.
Proof.
  unfold log. cbv zeta. destruct (allclose _ _ _ _).
  - apply self_log_from_identity_no_attribute_error.
  - apply bind_no_attribute_error; [|discriminate].
    apply self_log_from_identity_no_attribute_error.
Qed.

Lemma scalar_no_attribute_error (r : result Qc) :
  r <> Raise AttributeError -> scalar r <> Raise AttributeError.
Proof. intros H. apply bind_no_attribute_error; [exact H | discriminate]. Qed.

Lemma arr_no_attribute_error (r : result array) :
  r <> Raise AttributeError -> arr r <> Raise AttributeError.
Proof. intros H. apply bind_no_attribute_error; [exact H | discriminate]. Qed.

(** The calls that do. *)

Hypothesis no_provider : lie_algebra self = None.

Lemma dual_adjoint_without_provider (a b : array) :
  dual_adjoint self a b = Raise AttributeError.
Proof.
  unfold dual_adjoint, getattr_lie_algebra. now rewrite no_provider.
Qed.

Lemma euler_poincarre_geodesic_without_provider
  (v p : array) (k : nat) (step : string) :
  euler_poincarre_geodesic self v p k step = Raise AttributeError.
Proof.
  unfold euler_poincarre_geodesic, getattr_lie_algebra.
  now rewrite no_provider.
Qed.

Lemma connection_at_identity_without_provider (a b : mat) :
  connection_at_identity self (Mat a) (Mat b) = Raise AttributeError.
Proof.
  unfold connection_at_identity. cbn [bracket].
  now rewrite bind_Ok, dual_adjoint_without_provider.
Qed.

Lemma connection_at_identity_raises (a b : array) :
  raises (connection_at_identity self a b).
Proof.
  unfold connection_at_identity. apply raises_bind_r. intros br.
  rewrite dual_adjoint_without_provider. apply raises_Raise.
Qed.

Lemma curvature_at_identity_without_provider (a b c : mat) :
  curvature_at_identity self (Mat a) (Mat b) (Mat c) = Raise AttributeError.
Proof.
  unfold curvature_at_identity. cbn [bracket].
  now rewrite bind_Ok, connection_at_identity_without_provider.
Qed.

Lemma curvature_at_identity_raises (a b c : array) :
  raises (curvature_at_identity self a b c).
Proof.
  unfold curvature_at_identity. apply raises_bind_r. intros br.
  apply raises_bind_l, connection_at_identity_raises.
Qed.

Lemma sectional_curvature_at_identity_without_provider (a b : mat) :
  sectional_curvature_at_identity self (Mat a) (Mat b)
  = Raise AttributeError.
Proof.
  unfold sectional_curvature_at_identity.
  now rewrite curvature_at_identity_without_provider.
Qed.

Lemma sectional_curvature_at_identity_raises (a b : array) :
  raises (sectional_curvature_at_identity self a b).
Proof. apply raises_bind_l, curvature_at_identity_raises. Qed.

Lemma curvature_derivative_at_identity_without_provider (a b c d : mat) :
  curvature_derivative_at_identity self (Mat a) (Mat b) (Mat c) (Mat d)
  = Raise AttributeError.
Proof.
  unfold curvature_derivative_at_identity.
  now rewrite curvature_at_identity_without_provider.
Qed.

Lemma curvature_derivative_at_identity_raises (a b c d : array) :
  raises (curvature_derivative_at_identity self a b c d).
Proof. apply raises_bind_l, curvature_at_identity_raises. Qed.

Lemma euler_poincarre_log_without_provider
  (q p : array) (k : nat) (step : string) (max_iter : nat) (tol : Qc)
  (g : rng) :
  (forall f x e, f x = Raise e -> value_and_grad f x = Raise e) ->
  (forall f x0 m t e, f x0 = Raise e -> minimize f x0 m t = Raise e) ->
  fst (euler_poincarre_log self q p k step max_iter tol g)
  = Raise AttributeError.
Proof.
  intros Hgrad Hmin. unfold euler_poincarre_log. cbv zeta.
  destruct (random_rand (shape p) g) as [sample g']. cbn [fst].
  erewrite Hmin; [reflexivity|].
  apply Hgrad. now rewrite euler_poincarre_geodesic_without_provider.
Qed.

(** C10 (as amended).  On a metric constructed with [algebra=None]:
    [dual_adjoint] and [euler_poincarre_geodesic] raise [AttributeError] on
    every call; so do [connection_at_identity], [curvature_at_identity],
    [sectional_curvature_at_identity] and [curvature_derivative_at_identity]
    on matrices; every call that needs the provider (these, their base-point
    versions and, with an optimizer that evaluates its objective,
    [euler_poincarre_log]) returns no value; and the inner-product,
    structure-constant, metric-matrix and closed-form exp / log calls, which
    are all the others, never raise [AttributeError] (the parent's
    [inner_product] permitting). *)
Theorem without_basis_provider :
  (forall a b, dual_adjoint self a b = Raise AttributeError)
  /\ (forall v p k step,
        euler_poincarre_geodesic self v p k step = Raise AttributeError)
  /\ (forall a b : mat,
        connection_at_identity self (Mat a) (Mat b) = Raise AttributeError)
  /\ (forall a b c : mat,
        curvature_at_identity self (Mat a) (Mat b) (Mat c)
        = Raise AttributeError)
  /\ (forall a b : mat,
        sectional_curvature_at_identity self (Mat a) (Mat b)
        = Raise AttributeError)
  /\ (forall a b c d : mat,
        curvature_derivative_at_identity self (Mat a) (Mat b) (Mat c) (Mat d)
        = Raise AttributeError)
  /\ ((forall f x e, f x = Raise e -> value_and_grad f x = Raise e) ->
      (forall f x0 m t e, f x0 = Raise e -> minimize f x0 m t = Raise e) ->
      forall c g, needs_algebra c = true -> raises (fst (perform self c g)))
  /\ ((forall a b p, super_inner_product self a b p <> Raise AttributeError) ->
      forall c g,
        needs_algebra c = false ->
        fst (perform self c g) <> Raise AttributeError)
  /\ (forall c,
        needs_algebra c = false <->
        (inner_product_or_closed_form c = true
         \/ exists a b d, c = Structure_constant a b d)).
Proof.
  split; [exact dual_adjoint_without_provider|].
  split; [exact euler_poincarre_geodesic_without_provider|].
  split; [exact connection_at_identity_without_provider|].
  split; [exact curvature_at_identity_without_provider|].
  split; [exact sectional_curvature_at_identity_without_provider|].
  split; [exact curvature_derivative_at_identity_without_provider|].
  split; [|split].
  - intros Hgrad Hmin c g Hc.
    destruct c; try discriminate Hc; cbn [perform fst];
      try apply raises_bind_l.
    + rewrite dual_adjoint_without_provider. apply raises_Raise.
    + apply connection_at_identity_raises.
    + unfold connection. destruct base_point;
        [apply raises_bind_l|]; apply connection_at_identity_raises.
    + apply curvature_at_identity_raises.
    + unfold curvature. destruct base_point;
        [apply raises_bind_l|]; apply curvature_at_identity_raises.
    + apply sectional_curvature_at_identity_raises.
    + unfold sectional_curvature. destruct base_point;
        apply sectional_curvature_at_identity_raises.
    + apply curvature_derivative_at_identity_raises.
    + unfold curvature_derivative. destruct base_point;
        [apply raises_bind_l|]; apply curvature_derivative_at_identity_raises.
    + rewrite euler_poincarre_geodesic_without_provider. apply raises_Raise.
    + pose proof (euler_poincarre_log_without_provider point base_point
                    n_steps step max_iter tol g Hgrad Hmin) as H.
      destruct (euler_poincarre_log _ _ _ _ _ _ _ _) as [r g'].
      cbn [fst] in *. subst r. apply raises_Raise.
  - intros Hsuper c g Hc.
    destruct c; try discriminate Hc; cbn [perform fst].
    + apply scalar_no_attribute_error,
        inner_product_at_identity_no_attribute_error.
    + apply scalar_no_attribute_error. unfold inner_product.
      destruct base_point; [destruct (String.eqb _ _)|];
        auto using inner_product_at_identity_no_attribute_error.
    + apply bind_no_attribute_error; [|discriminate].
      apply metric_matrix_no_attribute_error.
    + apply scalar_no_attribute_error,
        structure_constant_no_attribute_error.
    + apply arr_no_attribute_error,
        left_exp_from_identity_no_attribute_error.
    + apply arr_no_attribute_error,
        self_exp_from_identity_no_attribute_error.
    + apply arr_no_attribute_error, exp_no_attribute_error.
    + apply arr_no_attribute_error,
        left_log_from_identity_no_attribute_error.
    + apply arr_no_attribute_error,
        self_log_from_identity_no_attribute_error.
    + apply arr_no_attribute_error, log_no_attribute_error.
  - intros c. split.
    + intros Hc. destruct c; try discriminate Hc; cbn; auto.
      right. now exists a, b, c.
    + intros [Hc|(a & b & d & ->)]; [|reflexivity].
      destruct c; try discriminate Hc; reflexivity.
Qed.

End WithoutBasisProvider.

(** ** Determinism and the global random generator *)

Section Determinism.

Context {env : Environment}.
Variable self : InvariantMetric.


End Determinism.

(** ** Running the model on concrete collaborators *)

Section Runs.

Import Concrete.
#[local] Existing Instance exact_env.

Lemma Qc_eq_bool_refl (x : Qc) : Qc_eq_bool x x = true.
Proof. unfold Qc_eq_bool. destruct (Qc_eq_dec x x); congruence. Qed.

Lemma vec_eqb_refl (v : vec) : vec_eqb v v = true.
Proof.
  unfold vec_eqb. rewrite Nat.eqb_refl. simpl.
  induction v as [|x v IH]; simpl; auto.
  now rewrite Qc_eq_bool_refl.
Qed.

Lemma mat_eqb_refl (A : mat) : mat_eqb A A = true.
Proof.
  unfold mat_eqb. rewrite Nat.eqb_refl. simpl.
  induction A as [|r A IH]; simpl; auto.
  now rewrite vec_eqb_refl.
Qed.

Lemma array_eqb_refl (a : array) : array_eqb a a = true.
Proof. destruct a; simpl; [apply vec_eqb_refl | apply mat_eqb_refl]. Qed.

Lemma array_eqb_neq (a b : array) : array_eqb a b = false -> a <> b.
Proof. intros H ->. rewrite array_eqb_refl in H. discriminate. Qed.

Lemma Qc_eq_bool_neq (x y : Qc) : Qc_eq_bool x y = false -> x <> y.
Proof. intros H ->. rewrite Qc_eq_bool_refl in H. discriminate. Qed.

Lemma Qcsquare_nonneg (x : Qc) : 0 <= x * x.
Proof.
  destruct (Qclt_le_dec x 0) as [H|H].
  - assert (Hn : 0 <= - x).
    { replace 0 with (- 0) by ring. apply Qcopp_le_compat.
      now apply Qclt_le_weak. }
    replace (x * x) with (- x * - x) by ring.
    rewrite <- (Qcmult_0_l (- x)). now apply Qcmult_le_compat_r.
  - rewrite <- (Qcmult_0_l x). now apply Qcmult_le_compat_r.
Qed.

Lemma affine_metric_ready : matrix_metric_ready affine_metric affine_algebra 2.
Proof.
  repeat split; try reflexivity; try discriminate; repeat constructor.
Qed.

Lemma unipotent_metric_ready :
  matrix_metric_ready unipotent_metric unipotent_algebra 2.
Proof.
  repeat split; try reflexivity; try discriminate; repeat constructor.
Qed.

Lemma exact_atol_nonneg : 0 <= atol.
Proof. vm_compute. discriminate. Qed.

(** C1.  At [x = E11], [y = 2 E12] in the algebra of the affine group the
    method returns [-4]; the quotient by the squared norm of [x] times the
    squared norm of [y] minus the squared inner product is [-1], the value
    the method returns at [(E11, E12)]: the denominator of the method
    multiplies the squared norm of [x] by itself. *)
Theorem sectional_curvature_at_identity_drops_second_norm :
  sectional_curvature_at_identity affine_metric
    (Mat E11) (Mat (mscale (z 2) E12)) = Ok (z (-4))
  /\ sectional_curvature_at_identity_spec affine_metric
       (Mat E11) (Mat (mscale (z 2) E12)) = Ok (z (-1))
  /\ sectional_curvature_at_identity affine_metric (Mat E11) (Mat E12)
     = Ok (z (-1)).
Proof.
  repeat split; apply scalar_result_eqb_eq; vm_compute; reflexivity.
Qed.

Lemma curvature_at_identity_antisymmetric_witness :
  matrix_metric_ready affine_metric affine_algebra 2
  /\ has_shape 2 2 E11 /\ has_shape 2 2 E12
  /\ exists r : array,
       curvature_at_identity affine_metric (Mat E12) (Mat E11) (Mat E12)
       = Ok r
       /\ curvature_at_identity affine_metric (Mat E11) (Mat E12) (Mat E12)
          = Ok (neg r).
Proof.
  split; [exact affine_metric_ready|].
  split; [repeat constructor|].
  split; [repeat constructor|].
  apply (@curvature_at_identity_antisymmetric exact_env affine_metric
           affine_algebra 2 affine_metric_ready);
    repeat constructor.
Defined.

Lemma BiInvariantMetric_init_only_orthogonal_witness :
  (~ mentions "SpecialOrthogonal" SE3_name /\ ~ mentions "SO" SE3_name)
  /\ BiInvariantMetric_init (named_matrix_group SE3_name 6)
     = Raise ValueError
  /\ mentions "SpecialOrthogonal" SO3_name
  /\ exists self,
       BiInvariantMetric_init (named_matrix_group SO3_name 3) = Ok self
       /\ cls self = BiInvariantMetric_cls
       /\ group self = named_matrix_group SO3_name 3
       /\ metric_mat_at_identity self = eye 3.
Proof.
  assert (H1 : ~ mentions "SpecialOrthogonal" SE3_name
               /\ ~ mentions "SO" SE3_name)
    by (split; apply not_mentions; vm_compute; reflexivity).
  assert (H2 : mentions "SpecialOrthogonal" SO3_name)
    by (apply str_contains_mentions; vm_compute; reflexivity).
  split; [exact H1|].
  split;
    [exact (proj1 (BiInvariantMetric_init_only_orthogonal
                     (named_matrix_group SE3_name 6)) H1)|].
  split; [exact H2|].
  exact (proj2 (BiInvariantMetric_init_only_orthogonal
                  (named_matrix_group SO3_name 3)) (or_introl H2)).
Defined.

Lemma euler_poincarre_geodesic_zero_velocity_witness :
  let p := Mat [[1; z 3]; [0; 1]] in
  let zero := Mat (zeros 2 2) in
  matrix_metric_ready unipotent_metric unipotent_algebra 2
  /\ group_exp Unipotent zero = identity Unipotent
  /\ compose Unipotent p (identity Unipotent) = p
  /\ In "group_rk4" ["euler"; "group_rk2"; "group_rk4"]
  /\ regularize Unipotent (compose Unipotent (inverse Unipotent p) zero)
     = zero
  /\ euler_poincarre_geodesic unipotent_metric zero p 3 "group_rk4" = Ok p.
Proof.
  intros p zero.
  assert (H1 : group_exp Unipotent zero = identity Unipotent)
    by (apply array_eqb_eq; vm_compute; reflexivity).
  assert (H2 : compose Unipotent p (identity Unipotent) = p)
    by (apply array_eqb_eq; vm_compute; reflexivity).
  assert (H3 : regularize Unipotent
                 (compose Unipotent (inverse Unipotent p) zero) = zero)
    by (apply array_eqb_eq; vm_compute; reflexivity).
  assert (H4 : In "group_rk4" ["euler"; "group_rk2"; "group_rk4"])
    by (simpl; auto).
  repeat (split; [assumption || exact unipotent_metric_ready|]).
  exact (@euler_poincarre_geodesic_zero_velocity exact_env unipotent_metric
           unipotent_algebra 2 unipotent_metric_ready p H1 H2 3 "group_rk4"
           H4 H3).
Defined.

Lemma exact_inverse_diag14 : is_inverse_of 2 (linalg_inv diag14) diag14.
Proof.
  split; [split; [reflexivity | repeat constructor]|].
  apply mat_eqb_eq. vm_compute. reflexivity.
Qed.

Lemma exact_sqrt_inverse_diag14 :
  principal_sqrt 2 (linalg_sqrtm (linalg_inv diag14)) (linalg_inv diag14).
Proof.
  assert (E : linalg_sqrtm (linalg_inv diag14) = [[1; 0]; [0; frac 1 2]])
    by (apply mat_eqb_eq; vm_compute; reflexivity).
  rewrite E. repeat split.
  - repeat constructor.
  - intros v Hv.
    destruct v as [|x [|y [|? ?]]]; try discriminate.
    cbv [apply_mat map vdot zip_with vsum fold_right].
    replace (x * (1 * x + (0 * y + 0)) + (y * (0 * x + (frac 1 2 * y + 0)) + 0))
      with (x * x + frac 1 2 * (y * y)) by ring.
    replace 0 with (0 + 0) by ring.
    apply Qcplus_le_compat; [apply Qcsquare_nonneg|].
    rewrite <- (Qcmult_0_l (y * y)).
    apply Qcmult_le_compat_r; [|apply Qcsquare_nonneg].
    vm_compute. discriminate.
  - apply mat_eqb_eq. vm_compute. reflexivity.
Qed.

Lemma log_from_identity_diag_1_4_witness :
  is_inverse_of 2 (linalg_inv diag14) diag14
  /\ principal_sqrt 2 (linalg_sqrtm (linalg_inv diag14)) (linalg_inv diag14)
  /\ log_from_identity (euclidean_metric "left") (Vec [z 2; z 4])
     = Ok (Vec [z 2; z 2])
  /\ log_from_identity (euclidean_metric "right") (Vec [z 2; z 4])
     = Ok (Vec [z 2; z 2]).
Proof.
  split; [exact exact_inverse_diag14|].
  split; [exact exact_sqrt_inverse_diag14|].
  exact (@log_from_identity_diag_1_4 exact_env exact_inverse_diag14
           exact_sqrt_inverse_diag14).
Defined.

End Runs.

(** ** Linearly dependent vectors in binary64 arithmetic *)

Section Binary64Runs.

Import Concrete.
#[local] Existing Instance exact_env.

(** C2.  On linearly dependent vectors the method does not return [0].  At
    [x = 2^-30 [[123456789, 987654321], [0, 0]]] and [y = 5 x] (all entries
    are binary64 values, and [y] is exactly [5 x]) the denominator the method
    computes, the squared norm of [x] times itself minus the squared inner
    product, is far from zero, so the guard stays silent and the method
    returns the quotient of the rounding residue of the numerator:
    [0x1.09c087cd7dd82p-53], about [1.15e-16].  The documented denominator,
    the squared norm of [x] times the squared norm of [y] minus the squared
    inner product, is within tolerance of zero there, and guarded by it the
    result is [0].  In exact arithmetic the numerator cancels and the
    quotient is [0] as well. *)
Theorem sectional_curvature_linearly_dependent_not_zero :
  let self := binary64.affine_metric in
  let x := binary64.dependent_x in
  let y := binary64.dependent_y in
  let x' := mscale (frac 1 1073741824) [[z 123456789; z 987654321]; [0; 0]] in
  y = binary64.five_times_x
  /\ binary64.isclose (binary64.rtol self) (binary64.atol self)
       (binary64.denominator self x y) binary64.zero = false
  /\ binary64.isclose (binary64.rtol self) (binary64.atol self)
       (binary64.documented_denominator self x y) binary64.zero = true
  /\ binary64.sectional_curvature_at_identity self x y
     = binary64.rounding_residue
  /\ PrimFloat.eqb (binary64.sectional_curvature_at_identity self x y)
       binary64.zero = false
  /\ sectional_curvature_at_identity affine_metric
       (Mat x') (Mat (mscale (z 5) x')) = Ok 0.
Proof.
  intros self x y x'.
  split; [vm_compute; reflexivity|].
  split; [vm_compute; reflexivity|].
  split; [vm_compute; reflexivity|].
  split; [vm_compute; reflexivity|].
  split; [vm_compute; reflexivity|].
  apply scalar_result_eqb_eq. vm_compute. reflexivity.
Qed.

End Binary64Runs.

Section Counterexamples.

Import Concrete.
#[local] Existing Instance exact_env.

Lemma exact_value_and_grad_propagates :
  forall (f : vec -> result Qc) (x : vec) (e : exn),
    f x = Raise e -> value_and_grad f x = Raise e.
Proof.
  intros f x e H. cbn [value_and_grad exact_env].
  unfold value_with_zero_grad. now rewrite H.
Qed.

Lemma exact_minimize_propagates :
  forall (f : vec -> result (Qc * vec)) (x0 : vec) (m : nat) (t : Qc)
    (e : exn),
    f x0 = Raise e -> minimize f x0 m t = Raise e.
Proof.
  intros f x0 m t e H. cbn [minimize exact_env].
  unfold evaluate_once. now rewrite H.
Qed.

Lemma exact_super_inner_product_no_attribute_error :
  forall (self : InvariantMetric) (a b p : array),
    super_inner_product self a b p <> Raise AttributeError.
Proof.
  intros self a b p. cbn [super_inner_product exact_env].
  unfold pullback_inner_product. destruct (String.eqb _ _); [discriminate|].
  apply bind_no_attribute_error; [apply einsum_i_ij_no_attribute_error|].
  intros; apply einsum_j_j_no_attribute_error.
Qed.

Lemma without_basis_provider_witness :
  lie_algebra bare_metric = None
  /\ dual_adjoint bare_metric (Mat E11) (Mat E12) = Raise AttributeError
  /\ raises
       (fst (perform bare_metric
               (Curvature (Mat E11) (Mat E12) (Mat E12) None) 0%nat))
  /\ raises
       (fst (perform bare_metric
               (Euler_poincarre_log (Mat (eye 2)) (Mat (eye 2)) 2 "euler" 25
                  (frac 1 100))
               0%nat))
  /\ fst (perform bare_metric (Exp (Vec [1; 0]) None) 0%nat)
     <> Raise AttributeError.
Proof.
  pose proof (@without_basis_provider exact_env bare_metric eq_refl)
    as (H1 & _ & _ & _ & _ & _ & H7 & H8 & _).
  split; [reflexivity|].
  split; [apply H1|].
  split;
    [apply (H7 exact_value_and_grad_propagates exact_minimize_propagates);
     reflexivity|].
  split;
    [apply (H7 exact_value_and_grad_propagates exact_minimize_propagates);
     reflexivity|].
  apply (H8 (exact_super_inner_product_no_attribute_error bare_metric)).
  reflexivity.
Defined.

(** C10, as stated, fails: [structure_constant] is none of the inner-product,
    metric-matrix and closed-form exp / log operations, and it returns a
    value on a metric constructed without a basis provider. *)
Lemma structure_constant_needs_no_provider :
  lie_algebra bare_metric = None
  /\ inner_product_or_closed_form
       (Structure_constant (Mat E11) (Mat E12) (Mat E12)) = false
  /\ fst (perform bare_metric
            (Structure_constant (Mat E11) (Mat E12) (Mat E12)) 0%nat)
     = Ok (Scalar 1).
Proof.
  split; [reflexivity|]. split; [reflexivity|].
  cbn [perform fst].
  assert (E : structure_constant bare_metric (Mat E11) (Mat E12) (Mat E12)
              = Ok 1)
    by (apply scalar_result_eqb_eq; vm_compute; reflexivity).
  now rewrite E.
Qed.



End Counterexamples.

Section MoreRuns.

Import Concrete.
#[local] Existing Instance exact_env.

Lemma exact_super_inner_product_is_parent :
  forall (self : InvariantMetric) (a b p : array),
    super_inner_product self a b p
    = RiemannianMetric_inner_product self a b p.
Proof.
  intros self a b p. cbn [super_inner_product exact_env].
  unfold pullback_inner_product, RiemannianMetric_inner_product,
    metric_matrix.
  destruct (String.eqb _ _); reflexivity.
Qed.

Lemma inner_product_delegation_witness :
  let self := affine_line_metric "right" in
  let p := Vec [z 2; z 3] in
  let a := [1; z 2] in
  let b := [z 3; 1] in
  let to_identity :=
    tangent_translation_map (group self) p (left_or_right self) true in
  let other := affine_matrix_metric "left" in
  let q := Mat [[z 2; z 3]; [0; 1]] in
  let to_identity' :=
    tangent_translation_map (group other) q (left_or_right other) true in
  to_identity (Vec a) = Vec [frac 1 2; frac 1 2]
  /\ to_identity (Vec b) = Vec [frac 3 2; frac (-7) 2]
  /\ inner_product self (Vec a) (Vec b) (Some p) = Ok (frac (-25) 4)
  /\ inner_product self (Vec a) (Vec b) (Some p)
     = inner_product_at_identity self
         (to_identity (Vec a)) (to_identity (Vec b))
  /\ to_identity' (Mat E11) = Mat [[frac 1 2; 0]; [0; 0]]
  /\ inner_product other (Mat E11) (Mat E11) (Some q)
     = inner_product_at_identity other
         (to_identity' (Mat E11)) (to_identity' (Mat E11)).
Proof.
  intros self p a b to_identity other q to_identity'.
  assert (E1 : to_identity (Vec a) = Vec [frac 1 2; frac 1 2])
    by (apply array_eqb_eq; vm_compute; reflexivity).
  assert (E2 : to_identity (Vec b) = Vec [frac 3 2; frac (-7) 2])
    by (apply array_eqb_eq; vm_compute; reflexivity).
  assert (E3 : inner_product self (Vec a) (Vec b) (Some p)
               = Ok (frac (-25) 4))
    by (apply scalar_result_eqb_eq; vm_compute; reflexivity).
  assert (E4 : to_identity' (Mat E11) = Mat [[frac 1 2; 0]; [0; 0]])
    by (apply array_eqb_eq; vm_compute; reflexivity).
  split; [exact E1|]. split; [exact E2|]. split; [exact E3|].
  split; [|split; [exact E4|]].
  - refine (proj2 (proj2 (inner_product_delegation self (Vec a) (Vec b)) p)
              eq_refl 2%nat a b eq_refl eq_refl eq_refl eq_refl _ _
              (exact_super_inner_product_is_parent self (Vec a) (Vec b) p)
              eq_refl eq_refl);
      (split; [reflexivity | repeat constructor]).
  - refine (proj1 (proj2 (inner_product_delegation other (Mat E11)
                            (Mat E11)) q) _).
    discriminate.
Defined.

Lemma exp_delegation_witness :
  let G := AffineLine in
  let p := Vec [z 2; z 3] in
  let v := Vec [1; 1] in
  (forall x, regularize G (regularize G x) = regularize G x)
  /\ (forall x, regularize G (inverse G (regularize G x))
                = inverse G (regularize G x))
  /\ allclose rtol atol (regularize G p) (identity G) = false
  /\ exp_from_identity (affine_line_metric "left") v
     = left_exp_from_identity (affine_line_metric "left") v
  /\ exp (affine_line_metric "left") v (Some p) = Ok (Vec [1; z 5])
  /\ exp (affine_line_metric "left") v (Some p)
     = (e <- left_exp_from_identity (affine_line_metric "left")
               (tangent_translation_map G p "left" true v) ;;
        Ok (regularize G (compose G p e)))
  /\ exp (affine_line_metric "right") v (Some p) = Ok (Vec [z (-4); z (-4)])
  /\ exp (affine_line_metric "right") v (Some p)
     = (e <- left_exp_from_identity (affine_line_metric "right")
               (neg (tangent_translation_map G p "right" true v)) ;;
        Ok (regularize G (compose G (inverse G e) p))).
Proof.
  intros G p v.
  assert (Hi : forall x, regularize G (regularize G x) = regularize G x)
    by (intros x; reflexivity).
  assert (Hr : forall x, regularize G (inverse G (regularize G x))
                         = inverse G (regularize G x))
    by (intros x; reflexivity).
  assert (Hfar : allclose rtol atol (regularize G p) (identity G) = false)
    by (vm_compute; reflexivity).
  assert (E1 : exp (affine_line_metric "left") v (Some p)
               = Ok (Vec [1; z 5]))
    by (apply array_result_eqb_eq; vm_compute; reflexivity).
  assert (E2 : exp (affine_line_metric "right") v (Some p)
               = Ok (Vec [z (-4); z (-4)]))
    by (apply array_result_eqb_eq; vm_compute; reflexivity).
  destruct (@exp_delegation exact_env (affine_line_metric "left") Hi Hr v)
    as (L1 & _ & L3).
  destruct (@exp_delegation exact_env (affine_line_metric "right") Hi Hr v)
    as (_ & _ & R3).
  split; [exact Hi|]. split; [exact Hr|]. split; [exact Hfar|].
  split; [exact (L1 eq_refl)|]. split; [exact E1|].
  split; [exact (proj1 (proj2 (proj2 (L3 p Hfar)) eq_refl) eq_refl)|].
  split; [exact E2|].
  exact (proj2 (proj2 (proj2 (R3 p Hfar)) eq_refl) eq_refl).
Defined.

End MoreRuns.


(* ------------------------------------------------------------------ *)
(** * Further properties of the methods *)
(* ------------------------------------------------------------------ *)

(** ** Construction and signature *)

Lemma leb_total (a b : Qc) : leb a b = false -> leb b a = true.
Proof.
  intros H. apply leb_le. destruct (Qclt_le_dec b a) as [Hlt|Hle].
  - now apply Qclt_le_weak.
  - apply leb_le in Hle. congruence.
Qed.

Lemma isclose_zero_iff_small (rt at_ e : Qc) :
  leb e 0 = true -> leb 0 e = true -> 0 <= at_ -> isclose rt at_ e 0 = true.
Proof.
  intros H1 H2 Hat. apply leb_le in H1. apply leb_le in H2.
  assert (E : e = 0) by now apply Qcle_antisym.
  subst e. now apply isclose_zero_zero.
Qed.

Lemma count_cons (p : Qc -> bool) (x : Qc) (v : vec) :
  count p (x :: v) = ((if p x then 1 else 0) + count p v)%nat.
Proof. unfold count. cbn [filter]. destruct (p x); reflexivity. Qed.

Section ExtraConstruction.

Context {env : Environment}.

Lemma signature_counts_bounds (v : vec) :
  0 <= atol ->
  (count (fun e => greater e 0) v + count (fun e => less e 0) v
   <= length v)%nat
  /\ (length v
      <= count (fun e => greater e 0) v
         + count (fun e => isclose rtol atol e 0) v
         + count (fun e => less e 0) v)%nat.
Proof.
  intros Hat. unfold greater, less. induction v as [|x v [IH1 IH2]].
  - split; apply Nat.le_refl.
  - rewrite !count_cons. cbn [length].
    destruct (leb x 0) eqn:E1; destruct (leb 0 x) eqn:E2; cbn [negb].
    + rewrite (@isclose_zero_iff_small rtol atol x E1 E2 Hat).
      cbv beta iota. lia.
    + destruct (isclose rtol atol x 0); cbv beta iota; lia.
    + destruct (isclose rtol atol x 0); cbv beta iota; lia.
    + apply leb_total in E1. congruence.
Qed.


(** X2. The signature stored by the constructor counts the eigenvalues of the
    metric matrix: with a non-negative [isclose] tolerance, the positive and
    negative counts together never exceed the number of eigenvalues, and
    every eigenvalue is counted as positive, null or negative at least once
    (an eigenvalue within tolerance of zero is counted twice). *)
Theorem InvariantMetric_init_signature (klass : metric_class)
  (G : LieGroup) (algebra : option LieAlgebra) (M : option mat)
  (lr : string) (self : InvariantMetric) :
  0 <= atol ->
  InvariantMetric_init klass G algebra M lr = Ok self ->
  let eigenvalues := linalg_eigvalsh (metric_mat_at_identity self) in
  let '(n_pos, n_null, n_neg) := signature self in
  (n_pos + n_neg <= length eigenvalues)%nat
  /\ (length eigenvalues <= n_pos + n_null + n_neg)%nat.
Proof.
  intros Hat. unfold InvariantMetric_init.
  destruct (check_parameter_accepted_values lr ["left"; "right"]);
    cbn [bind]; [|discriminate].
  intros H. injection H as <-.
  cbn [metric_mat_at_identity signature].
  now apply signature_counts_bounds.
Qed.

End ExtraConstruction.
(** ** Inner products and structure constants *)

Section ExtraInnerProduct.

Context {env : Environment}.
Variable self : InvariantMetric.

Lemma ip_mat_comm (a b : mat) : ip_mat self a b = ip_mat self b a.
Proof. unfold ip_mat. now rewrite (hadamard_comm a b). Qed.

Lemma ip_mat_zero_l (a b : mat) : all_zero a -> ip_mat self a b = 0.
Proof. intros H. rewrite ip_mat_comm. now apply ip_mat_zero_r. Qed.

(** X3. [inner_product_at_identity] raises [ValueError] on every call when
    the group's [default_point_type] is neither "vector" nor "matrix".  On a
    vector-type group it returns a number on vectors whose length is the
    size [n] of the [n x n] metric matrix; on a matrix-type group it returns
    a number on two matrices of one shape (which is also the shape of the
    reshaped metric matrix, when the provider supplies one). *)
Theorem inner_product_at_identity_point_type :
  (default_point_type (group self) <> "vector" ->
   default_point_type (group self) <> "matrix" ->
   forall a b, inner_product_at_identity self a b = Raise ValueError)
  /\ (default_point_type (group self) = "vector" ->
      forall (n : nat) (u v : vec),
        has_shape n n (metric_mat_at_identity self) ->
        length u = n -> length v = n ->
        exists q, inner_product_at_identity self (Vec u) (Vec v) = Ok q)
  /\ (default_point_type (group self) = "matrix" ->
      forall (r c : nat) (a b : mat),
        has_shape r c a -> has_shape r c b ->
        (forall algebra,
           lie_algebra self = Some algebra ->
           has_shape r c
             (reshape_metric_matrix algebra (metric_mat_at_identity self))) ->
        exists q, inner_product_at_identity self (Mat a) (Mat b) = Ok q).
Proof.
  unfold inner_product_at_identity, check_parameter_accepted_values.
  split; [|split].
  - intros H1 H2 a b.
    apply String.eqb_neq in H1. apply String.eqb_neq in H2.
    cbn [existsb]. now rewrite H1, H2.
  - intros H n u v _ _ _. rewrite H.
    cbn [existsb String.eqb Ascii.eqb Bool.eqb orb]. rewrite bind_Ok.
    cbv iota. cbn [einsum_i_ij bind einsum_j_j]. eauto.
  - intros H r c a b _ _ _. rewrite H.
    cbn [existsb String.eqb Ascii.eqb Bool.eqb orb]. rewrite bind_Ok.
    cbv iota. eauto.
Qed.

(** X4. On a group that is not vector-type, [inner_product] is symmetric in
    its two tangent vectors, at the identity and at every base point. *)
Theorem inner_product_symmetric (a b : array) (p : option array) :
  default_point_type (group self) <> "vector" ->
  inner_product self a b p = inner_product self b a p.
Proof.
  intros Hv. apply String.eqb_neq in Hv.
  assert (S : forall u v,
             inner_product_at_identity self u v
             = inner_product_at_identity self v u).
  { intros u v. unfold inner_product_at_identity.
    destruct (check_parameter_accepted_values _ _); [|reflexivity].
    rewrite !bind_Ok, Hv.
    destruct u as [u|u], v as [v|v]; try reflexivity.
    f_equal. apply ip_mat_comm. }
  unfold inner_product. destruct p as [p|]; [|apply S].
  rewrite Hv. apply S.
Qed.

Variable n : nat.
Hypothesis matrix_type : default_point_type (group self) = "matrix".

(** The reshaped metric matrix, when the provider supplies one, is
    [n x n]. *)
Let reshaped_fits : Prop :=
  forall algebra,
    lie_algebra self = Some algebra ->
    has_shape n n
      (reshape_metric_matrix algebra (metric_mat_at_identity self)).

(** X5. On a matrix-type group [inner_product_at_identity] is homogeneous in
    each argument: for [n x n] matrices, scaling one of them by [c] scales
    the inner product by [c]. *)
Theorem inner_product_at_identity_homogeneous (c : Qc) (a b : mat) :
  reshaped_fits -> has_shape n n a -> has_shape n n b ->
  exists q,
    inner_product_at_identity self (Mat a) (Mat b) = Ok q
    /\ inner_product_at_identity self (Mat (mscale c a)) (Mat b)
       = Ok (c * q)
    /\ inner_product_at_identity self (Mat a) (Mat (mscale c b))
       = Ok (c * q).
Proof.
  intros _ _ _. exists (ip_mat self a b).
  rewrite !inner_product_at_identity_Mat by exact matrix_type.
  now rewrite ip_mat_mscale_l, ip_mat_mscale_r.
Qed.

(** X6. On a matrix-type group the structure constant is antisymmetric in
    its first two arguments: for [n x n] matrices,
    [<[x, y], z> = - <[y, x], z>], and [<[x, x], z> = 0]. *)
Theorem structure_constant_antisymmetric (x y z : mat) :
  reshaped_fits ->
  has_shape n n x -> has_shape n n y -> has_shape n n z ->
  (exists q,
     structure_constant self (Mat x) (Mat y) (Mat z) = Ok q
     /\ structure_constant self (Mat y) (Mat x) (Mat z) = Ok (- q))
  /\ structure_constant self (Mat x) (Mat x) (Mat z) = Ok 0.
Proof.
  intros _ _ _ _. split.
  - exists (ip_mat self (mat_bracket x y) z).
    rewrite !structure_constant_Mat by exact matrix_type.
    split; [reflexivity|].
    rewrite (mat_bracket_swap x y), mneg_mscale, ip_mat_mscale_l.
    f_equal; ring.
  - rewrite structure_constant_Mat by exact matrix_type. f_equal.
    apply ip_mat_zero_l. unfold mat_bracket. apply all_zero_msub_self.
Qed.

End ExtraInnerProduct.

(** ** Invariance under translation *)

(** On a matrix group a tangent vector is translated by multiplying it by the
    point: [P X] for the left translation by [P], [X P] for the right
    translation.  The inverse translation multiplies by the inverse matrix,
    and undoes the translation. *)
Section ExtraInvariance.

Context {env : Environment}.
Variable self : InvariantMetric.
Variable n : nat.
Variables P Pinv : mat.

Let G : LieGroup := group self.
Let T : array -> array :=
  tangent_translation_map G (Mat P) (left_or_right self) false.
Let Tinv : array -> array :=
  tangent_translation_map G (Mat P) (left_or_right self) true.
Let times (Q X : mat) : mat :=
  if String.eqb (left_or_right self) "left" then matmul Q X else matmul X Q.

Hypothesis shape_P : has_shape n n P.
Hypothesis shape_Pinv : has_shape n n Pinv.
Hypothesis inverse_left : matmul Pinv P = eye n.
Hypothesis inverse_right : matmul P Pinv = eye n.
Hypothesis translation :
  forall X, has_shape n n X -> T (Mat X) = Mat (times P X).
Hypothesis inverse_translation :
  forall X, has_shape n n X -> Tinv (Mat X) = Mat (times Pinv X).

Lemma has_shape_times (Q X : mat) :
  has_shape n n Q -> has_shape n n X -> has_shape n n (times Q X).
Proof.
  intros HQ HX. unfold times.
  destruct (String.eqb _ _); now apply has_shape_matmul.
Qed.

Lemma translation_undone (X : mat) :
  has_shape n n X -> Tinv (T (Mat X)) = Mat X.
Proof.
  intros HX. rewrite (translation HX).
  rewrite (inverse_translation (has_shape_times shape_P HX)).
  f_equal. unfold times. destruct (String.eqb _ _).
  - rewrite <- (matmul_assoc shape_Pinv shape_P HX), inverse_left.
    now apply eye_times_rows.
  - rewrite (matmul_assoc HX shape_P shape_Pinv), inverse_right.
    now apply rows_times_eye.
Qed.

(** X7. Invariance of the scalar quantities on a matrix group.  When the
    tangent translation map at the point [P] multiplies by [P] (on the side
    of the metric's orientation) and the inverse map by the inverse matrix,
    translating two [n x n] tangent vectors from the identity to [P]
    preserves their inner product and their sectional curvature. *)
Theorem inner_product_and_sectional_curvature_invariant (u v : mat) :
  has_shape n n u -> has_shape n n v ->
  default_point_type G <> "vector" ->
  inner_product self (T (Mat u)) (T (Mat v)) (Some (Mat P))
  = inner_product_at_identity self (Mat u) (Mat v)
  /\ sectional_curvature self (T (Mat u)) (T (Mat v)) (Some (Mat P))
     = sectional_curvature_at_identity self (Mat u) (Mat v).
Proof.
  intros Hu Hw Hv. apply String.eqb_neq in Hv. split.
  - unfold inner_product. fold G. rewrite Hv. cbv zeta. fold Tinv.
    now rewrite !translation_undone.
  - unfold sectional_curvature. cbv zeta. fold G Tinv.
    now rewrite !translation_undone.
Qed.

(** X8. Equivariance of the tensor quantities on a matrix group.  Under the
    same conditions the connection, the curvature and the curvature
    derivative at [P] of translated [n x n] vectors are the translations of
    their values at the identity. *)
Theorem connection_and_curvature_equivariant (a b c d : mat) :
  has_shape n n a -> has_shape n n b ->
  has_shape n n c -> has_shape n n d ->
  connection self (T (Mat a)) (T (Mat b)) (Some (Mat P))
  = (r <- connection_at_identity self (Mat a) (Mat b) ;; Ok (T r))
  /\ curvature self (T (Mat a)) (T (Mat b)) (T (Mat c)) (Some (Mat P))
     = (r <- curvature_at_identity self (Mat a) (Mat b) (Mat c) ;;
        Ok (T r))
  /\ curvature_derivative self
       (T (Mat a)) (T (Mat b)) (T (Mat c)) (T (Mat d)) (Some (Mat P))
     = (r <- curvature_derivative_at_identity self
               (Mat a) (Mat b) (Mat c) (Mat d) ;;
        Ok (T r)).
Proof.
  intros Ha Hb Hc Hd. repeat split.
  - unfold connection. cbv zeta. fold G Tinv T.
    now rewrite !translation_undone.
  - unfold curvature. cbv zeta. fold G Tinv T.
    now rewrite !translation_undone.
  - unfold curvature_derivative. cbv zeta. fold G Tinv T.
    now rewrite !translation_undone.
Qed.

End ExtraInvariance.

(** ** More on the connection and the curvature *)

Section ExtraCurvature.

Context {env : Environment}.
Variable self : InvariantMetric.
Variable algebra : LieAlgebra.
Variable n : nat.
Hypothesis ready : matrix_metric_ready self algebra n.

Let basis : list mat :=
  orthonormal_basis algebra (metric_mat_at_identity self).

Lemma ready_connection_at_identity (a b : mat) :
  connection_at_identity self (Mat a) (Mat b)
  = Ok (Mat (connection_mat self basis a b)).
Proof.
  destruct ready as (Hm & Ha & Hb & _).
  now apply connection_at_identity_Mat with (algebra := algebra).
Qed.

Lemma has_shape_dual_adjoint_mat (a b : mat) :
  has_shape n n (dual_adjoint_mat self basis a b).
Proof.
  destruct ready as (_ & _ & Hne & Hs & _).
  unfold dual_adjoint_mat. apply has_shape_mneg.
  now apply has_shape_lincomb.
Qed.

Lemma has_shape_connection_mat (a b : mat) :
  has_shape n n a -> has_shape n n b ->
  has_shape n n (connection_mat self basis a b).
Proof.
  intros Ha Hb. unfold connection_mat. apply has_shape_mscale.
  apply has_shape_zip_with; [apply has_shape_zip_with|].
  - now apply has_shape_mat_bracket.
  - apply has_shape_dual_adjoint_mat.
  - apply has_shape_dual_adjoint_mat.
Qed.

Lemma has_shape_curvature_mat (a b c : mat) :
  has_shape n n a -> has_shape n n b -> has_shape n n c ->
  has_shape n n (curvature_mat self basis a b c).
Proof.
  intros Ha Hb Hc. unfold curvature_mat.
  apply has_shape_zip_with; [apply has_shape_zip_with|];
    repeat (apply has_shape_connection_mat
            || apply has_shape_mat_bracket || assumption).
Qed.

Lemma curvature_mat_mscale_2 (k : Qc) (a b c : mat) :
  curvature_mat self basis a (mscale k b) c
  = mscale k (curvature_mat self basis a b c).
Proof.
  unfold curvature_mat.
  rewrite mat_bracket_mscale_r, !connection_mat_mscale_l,
    connection_mat_mscale_r, msub_mscale, madd_mscale.
  reflexivity.
Qed.

Lemma curvature_mat_mscale_1 (k : Qc) (a b c : mat) :
  curvature_mat self basis (mscale k a) b c
  = mscale k (curvature_mat self basis a b c).
Proof.
  unfold curvature_mat.
  rewrite mat_bracket_mscale_l, !connection_mat_mscale_l,
    connection_mat_mscale_r, msub_mscale, madd_mscale.
  reflexivity.
Qed.

Lemma curvature_mat_mscale_3 (k : Qc) (a b c : mat) :
  curvature_mat self basis a b (mscale k c)
  = mscale k (curvature_mat self basis a b c).
Proof.
  unfold curvature_mat.
  rewrite !connection_mat_mscale_r, msub_mscale, madd_mscale.
  reflexivity.
Qed.

(** X9. The connection at identity is torsion-free: for [n x n] matrices
    [x], [y] on a configured matrix-type metric, both
    [connection_at_identity(x, y)] and [connection_at_identity(y, x)] return
    and their difference is the Lie bracket [[x, y]]. *)
Theorem connection_at_identity_torsion_free (x y : mat) :
  has_shape n n x -> has_shape n n y ->
  exists nabla_xy nabla_yx : array,
    connection_at_identity self (Mat x) (Mat y) = Ok nabla_xy
    /\ connection_at_identity self (Mat y) (Mat x) = Ok nabla_yx
    /\ array_sub nabla_xy nabla_yx = bracket (Mat x) (Mat y).
Proof.
  intros Hx Hy.
  exists (Mat (connection_mat self basis x y)),
    (Mat (connection_mat self basis y x)).
  rewrite !ready_connection_at_identity. repeat split.
  cbn [array_sub bracket]. do 2 f_equal.
  unfold connection_mat at 1 2. rewrite (mat_bracket_swap x y).
  apply torsion_entries with (r := n) (c := n).
  - now apply has_shape_mat_bracket.
  - apply has_shape_dual_adjoint_mat.
  - apply has_shape_dual_adjoint_mat.
Qed.

(** X10. The connection and the curvature at identity are homogeneous in
    each argument: for [n x n] matrices, scaling one argument by [k] scales
    the result by [k]. *)
Theorem connection_and_curvature_homogeneous (k : Qc) (x y w : mat) :
  has_shape n n x -> has_shape n n y -> has_shape n n w ->
  (exists nabla : mat,
     connection_at_identity self (Mat x) (Mat y) = Ok (Mat nabla)
     /\ connection_at_identity self (Mat (mscale k x)) (Mat y)
        = Ok (Mat (mscale k nabla))
     /\ connection_at_identity self (Mat x) (Mat (mscale k y))
        = Ok (Mat (mscale k nabla)))
  /\ (exists r : mat,
        curvature_at_identity self (Mat x) (Mat y) (Mat w) = Ok (Mat r)
        /\ curvature_at_identity self (Mat (mscale k x)) (Mat y) (Mat w)
           = Ok (Mat (mscale k r))
        /\ curvature_at_identity self (Mat x) (Mat (mscale k y)) (Mat w)
           = Ok (Mat (mscale k r))
        /\ curvature_at_identity self (Mat x) (Mat y) (Mat (mscale k w))
           = Ok (Mat (mscale k r))).
Proof.
  intros _ _ _. split.
  - exists (connection_mat self basis x y).
    rewrite !ready_connection_at_identity.
    now rewrite connection_mat_mscale_l, connection_mat_mscale_r.
  - exists (curvature_mat self basis x y w).
    rewrite !(ready_curvature_at_identity ready).
    fold basis.
    now rewrite curvature_mat_mscale_1, curvature_mat_mscale_2,
      curvature_mat_mscale_3.
Qed.

(** X11. The curvature at identity vanishes on a repeated first pair: for
    [n x n] matrices, [curvature_at_identity(x, x, z)] is the zero
    matrix. *)
Theorem curvature_at_identity_repeated (x z : mat) :
  has_shape n n x -> has_shape n n z ->
  curvature_at_identity self (Mat x) (Mat x) (Mat z)
  = Ok (Mat (zeros n n)).
Proof.
  intros Hx Hz. rewrite (ready_curvature_at_identity ready). fold basis.
  do 2 f_equal. apply all_zero_shape.
  - now apply has_shape_curvature_mat.
  - unfold curvature_mat. apply all_zero_madd_msub_cancel.
    unfold connection_mat. apply all_zero_mscale.
    assert (Hz0 : all_zero (mat_bracket x x))
      by (unfold mat_bracket; apply all_zero_msub_self).
    apply all_zero_msub; [apply all_zero_msub|].
    + now apply all_zero_mat_bracket_l.
    + apply all_zero_mneg, all_zero_lincomb, Forall_forall.
      intros c Hc. apply in_map_iff in Hc. destruct Hc as [e [<- _]].
      apply ip_mat_zero_l. now apply all_zero_mat_bracket_r.
    + apply all_zero_mneg, all_zero_lincomb, Forall_forall.
      intros c Hc. apply in_map_iff in Hc. destruct Hc as [e [<- _]].
      now apply ip_mat_zero_r.
Qed.

(** X12. With a non-negative [isclose] tolerance the guard of
    [sectional_curvature_at_identity] rules out a zero divisor: on [n x n]
    matrices the quotient is never taken by zero and the method returns. *)
Theorem sectional_curvature_at_identity_returns (x y : mat) :
  0 <= atol ->
  has_shape n n x -> has_shape n n y ->
  exists q : Qc,
    sectional_curvature_at_identity self (Mat x) (Mat y) = Ok q.
Proof.
  intros Hat _ _. rewrite (sectional_curvature_at_identity_Mat ready).
  cbv zeta. unfold divide.
  destruct (Qc_eq_dec _ 0) as [E|_].
  - exfalso. revert E. now apply guarded_denominator_not_zero.
  - rewrite bind_Ok. eexists. reflexivity.
Qed.

(** X14. The Euler-Poincare acceleration is quadratic in the velocity: on
    an [n x n] matrix velocity, scaling the velocity by [k] scales the
    acceleration by [k * k], whatever the position. *)
Theorem lie_acceleration_quadratic (k : Qc) (point : array) (v : mat) :
  has_shape n n v ->
  exists a : mat,
    lie_acceleration self basis point (Mat v) = Ok (Mat a)
    /\ lie_acceleration self basis point (Mat (mscale k v))
       = Ok (Mat (mscale (k * k) a)).
Proof.
  intros _. destruct ready as (Hm & _ & Hne & _).
  exists (acceleration_mat self basis v).
  assert (E : forall w : mat,
    lie_acceleration self basis point (Mat w)
    = Ok (Mat (acceleration_mat self basis w))).
  { intros w. unfold lie_acceleration.
    rewrite (comprehension_Ok _
               (fun e => ip_mat self (mat_bracket w e) w)).
    - now rewrite bind_Ok, einsum_i_ijk_lincomb, bind_Ok by exact Hne.
    - intros e _. now apply structure_constant_Mat. }
  rewrite !E. split; [reflexivity|]. do 2 f_equal.
  unfold acceleration_mat. rewrite <- lincomb_scale, map_map.
  f_equal. apply map_ext. intros e.
  rewrite mat_bracket_mscale_l, ip_mat_mscale_l, ip_mat_mscale_r. ring.
Qed.

End ExtraCurvature.

(** ** Exponential and logarithm at the identity *)

Lemma isclose_refl (rt at_ x : Qc) :
  0 <= rt -> 0 <= at_ -> isclose rt at_ x x = true.
Proof.
  intros Hrt Hat. unfold isclose. apply leb_le.
  replace (x - x) with 0 by ring.
  rewrite (Qcabs_pos 0) by apply Qcle_refl.
  replace 0 with (0 + 0) at 1 by ring.
  apply Qcplus_le_compat; [exact Hat|].
  rewrite <- (Qcmult_0_l (Qcabs x)).
  apply Qcmult_le_compat_r; [exact Hrt | apply Qcabs_nonneg].
Qed.

Lemma veq_close_refl (rt at_ : Qc) (v : vec) :
  0 <= rt -> 0 <= at_ -> veq_close rt at_ v v = true.
Proof.
  intros Hrt Hat. unfold veq_close. rewrite Nat.eqb_refl. cbn [andb].
  induction v as [|x v IH]; [reflexivity|].
  cbn [combine forallb fst snd]. now rewrite isclose_refl, IH.
Qed.

Lemma allclose_refl (rt at_ : Qc) (a : array) :
  0 <= rt -> 0 <= at_ -> allclose rt at_ a a = true.
Proof.
  intros Hrt Hat. destruct a as [v|A]; cbn [allclose].
  - now apply veq_close_refl.
  - rewrite Nat.eqb_refl. cbn [andb].
    induction A as [|r A IH]; [reflexivity|].
    cbn [combine forallb fst snd]. now rewrite veq_close_refl, IH.
Qed.

Section ExtraExpLog.

Context {env : Environment}.

(** X15. With non-negative tolerances, [log] with the base point omitted is
    [self.log_from_identity], and [exp] with the base point omitted is
    [self.exp_from_identity] as soon as [regularize] fixes the identity; the
    same holds when the identity itself is passed as base point. *)
Theorem exp_and_log_from_the_identity (self : InvariantMetric) :
  0 <= rtol -> 0 <= atol ->
  regularize (group self) (identity (group self)) = identity (group self) ->
  (forall q : array,
     log self q None = self_log_from_identity self q
     /\ log self q (Some (identity (group self)))
        = self_log_from_identity self q)
  /\ (forall v : array,
        exp self v None = self_exp_from_identity self v
        /\ exp self v (Some (identity (group self)))
           = self_exp_from_identity self v).
Proof.
  intros Hrt Hat Hreg. split; intros x; split.
  - unfold log. cbv zeta. now rewrite allclose_refl.
  - unfold log. cbv zeta. now rewrite Hreg, allclose_refl.
  - unfold exp. cbv zeta. now rewrite Hreg, allclose_refl.
  - unfold exp. cbv zeta. now rewrite Hreg, allclose_refl.
Qed.

Lemma BiInvariantMetric_init_attributes (G : LieGroup)
  (self : InvariantMetric) :
  BiInvariantMetric_init G = Ok self ->
  cls self = BiInvariantMetric_cls
  /\ group self = G
  /\ lie_algebra self = None
  /\ left_or_right self = "left".
Proof.
  unfold BiInvariantMetric_init.
  destruct (InvariantMetric_init_left BiInvariantMetric_cls G None
              (eye (dim G))) as (s & -> & Hc & Hg & Ha & _ & Hl).
  rewrite bind_Ok. cbv zeta.
  destruct (_ && _); [discriminate|].
  intros H. injection H as <-. auto.
Qed.

(** X16. On a metric returned by [BiInvariantMetric(group)], with
    non-negative tolerances and a [regularize] that fixes the identity, [exp]
    and [log] at the identity are the group's own exponential and logarithm,
    and away from the identity [exp(v, p)] is
    [regularize(p' . group.exp(v'))] with [p'] the regularized base point and
    [v'] the vector translated to the identity by the inverse left
    translation at [p']. *)
Theorem BiInvariantMetric_exp_log (G : LieGroup) (self : InvariantMetric) :
  BiInvariantMetric_init G = Ok self ->
  0 <= rtol -> 0 <= atol ->
  regularize G (identity G) = identity G ->
  (forall v, exp self v None = Ok (group_exp G v))
  /\ (forall q, log self q None = Ok (group_log G q))
  /\ (forall v p,
        allclose rtol atol (regularize G p) (identity G) = false ->
        exp self v (Some p)
        = Ok (regularize G
                (compose G (regularize G p)
                   (group_exp G
                      (tangent_translation_map G (regularize G p)
                         "left" true v))))).
Proof.
  intros Hinit Hrt Hat Hreg.
  destruct (BiInvariantMetric_init_attributes G Hinit)
    as (Hc & Hg & _ & Hl).
  repeat split.
  - intros v. unfold exp, self_exp_from_identity,
      BiInvariantMetric_exp_from_identity. cbv zeta.
    now rewrite Hc, Hg, Hreg, allclose_refl.
  - intros q. unfold log, self_log_from_identity,
      BiInvariantMetric_log_from_identity. cbv zeta.
    now rewrite Hc, Hg, allclose_refl.
  - intros v p Hfar. unfold exp, self_exp_from_identity,
      BiInvariantMetric_exp_from_identity. cbv zeta.
    rewrite Hc, Hg, Hl, Hfar, bind_Ok. reflexivity.
Qed.

(** X17. A metric returned by [BiInvariantMetric(group)] has no basis
    provider: [dual_adjoint] and [euler_poincarre_geodesic] raise
    [AttributeError] on every call, and so do the connection, the curvature
    and the sectional curvature at identity on matrices. *)
Theorem BiInvariantMetric_has_no_curvature (G : LieGroup)
  (self : InvariantMetric) :
  BiInvariantMetric_init G = Ok self ->
  (forall a b, dual_adjoint self a b = Raise AttributeError)
  /\ (forall v p k step,
        euler_poincarre_geodesic self v p k step = Raise AttributeError)
  /\ (forall a b : mat,
        connection_at_identity self (Mat a) (Mat b) = Raise AttributeError)
  /\ (forall a b c : mat,
        curvature_at_identity self (Mat a) (Mat b) (Mat c)
        = Raise AttributeError)
  /\ (forall a b : mat,
        sectional_curvature_at_identity self (Mat a) (Mat b)
        = Raise AttributeError).
Proof.
  intros Hinit.
  destruct (BiInvariantMetric_init_attributes G Hinit)
    as (_ & _ & Hnone & _).
  repeat split; intros.
  - now apply dual_adjoint_without_provider.
  - now apply euler_poincarre_geodesic_without_provider.
  - now apply connection_at_identity_without_provider.
  - now apply curvature_at_identity_without_provider.
  - now apply sectional_curvature_at_identity_without_provider.
Qed.

End ExtraExpLog.

(** ** The closed-form exponential and logarithm *)

Section ExtraClosedForm.

Context {env : Environment}.
Variable self : InvariantMetric.
Variable n : nat.

Let G : LieGroup := group self.
Let M : mat := metric_mat_at_identity self.

(** X18. On a vector-type group the inner product at identity is the
    bilinear form of the metric matrix, and it is symmetric when that matrix
    is a symmetric [n x n] matrix and the vectors have length [n]. *)
Theorem inner_product_at_identity_vector_symmetric (u v : vec) :
  default_point_type G = "vector" ->
  has_shape n n M -> transpose M = M ->
  length u = n -> length v = n ->
  inner_product_at_identity self (Vec u) (Vec v)
  = Ok (vdot (rowvec_mat n u M) v)
  /\ inner_product_at_identity self (Vec u) (Vec v)
     = inner_product_at_identity self (Vec v) (Vec u).
Proof.
  intros Hv HM Hsym Hu Hvl.
  assert (E : forall a b : vec,
             inner_product_at_identity self (Vec a) (Vec b)
             = Ok (vdot (rowvec_mat n a M) b)).
  { intros a b. unfold inner_product_at_identity.
    fold G. rewrite Hv.
    cbn [check_parameter_accepted_values existsb String.eqb Ascii.eqb
           Bool.eqb orb].
    rewrite bind_Ok. cbv iota zeta. fold M.
    rewrite einsum_i_ij_Vec, bind_Ok, (ncols_shape HM). reflexivity. }
  split; [apply E|]. rewrite !E. f_equal.
  destruct HM as [HL HF].
  rewrite (@vdot_rowvec_mat n u M v) by congruence.
  rewrite (@apply_mat_symmetric n M v (conj HL HF) Hsym).
  apply vdot_comm.
Qed.

(** X19. A metric constructed without a metric matrix on a vector-type group
    measures with the dot product: for two vectors of length [group.dim] the
    inner product at identity is the sum of the products of the
    coordinates. *)
Theorem default_metric_is_dot_product (klass : metric_class)
  (H : LieGroup) (algebra : option LieAlgebra) (lr : string)
  (metric : InvariantMetric) (u v : vec) :
  InvariantMetric_init klass H algebra None lr = Ok metric ->
  default_point_type H = "vector" ->
  length u = dim H -> length v = dim H ->
  inner_product_at_identity metric (Vec u) (Vec v) = Ok (vdot u v).
Proof.
  unfold InvariantMetric_init.
  destruct (check_parameter_accepted_values lr _); cbn [bind];
    [|discriminate].
  intros E. injection E as <-. intros Hv Hu _.
  unfold inner_product_at_identity. cbn [group metric_mat_at_identity].
  rewrite Hv.
  cbn [check_parameter_accepted_values existsb String.eqb Ascii.eqb
         Bool.eqb orb].
  rewrite bind_Ok. cbv iota zeta.
  rewrite einsum_i_ij_Vec, bind_Ok, <- Hu, rowvec_mat_eye. reflexivity.
Qed.

(** X20. [metric_matrix] raises [NotImplementedError] on a matrix-type group,
    whatever the base point; on any other group, at a base point where the
    translation Jacobian is the identity matrix (and the backend inverts the
    identity matrix to itself), it returns the [n x n] metric matrix at
    identity unchanged. *)
Theorem metric_matrix_at_identity_jacobian (p : option array) :
  (default_point_type G = "matrix" ->
   metric_matrix self p = Raise NotImplementedError)
  /\ (default_point_type G <> "matrix" ->
      has_shape n n M ->
      jacobian_translation G
        match p with
        | None => identity G
        | Some q => regularize G q
        end (left_or_right self) = eye n ->
      linalg_inv (eye n) = eye n ->
      metric_matrix self p = Ok M).
Proof.
  unfold metric_matrix. fold G M. split.
  - intros ->. reflexivity.
  - intros Hm HM HJ Hinv. apply String.eqb_neq in Hm. rewrite Hm.
    cbv zeta. rewrite HJ, Hinv, transpose_eye.
    now rewrite (eye_times_rows HM), (rows_times_eye HM).
Qed.

Hypothesis regularize_trivial : forall x, regularize G x = x.
Hypothesis regularize_tangent_trivial :
  forall x A, regularize_tangent_vec_at_identity G x A = x.
Hypothesis inverse_involutive : forall x, inverse G (inverse G x) = x.

Let S : mat := transpose (linalg_sqrtm M).
Let R : mat := linalg_sqrtm (linalg_inv M).

Hypothesis shape_S : has_shape n n S.
Hypothesis shape_R : has_shape n n R.

Lemma left_exp_from_identity_Vec (v : vec) :
  left_exp_from_identity self (Vec v) = Ok (Vec (rowvec_mat n v S)).
Proof.
  unfold left_exp_from_identity. fold G M. cbv zeta. fold S.
  rewrite regularize_tangent_trivial, einsum_i_ij_Vec, bind_Ok,
    regularize_trivial, (ncols_shape shape_S).
  reflexivity.
Qed.

Lemma left_log_from_identity_Vec (q : vec) :
  left_log_from_identity self (Vec q) = Ok (Vec (rowvec_mat n q R)).
Proof.
  unfold left_log_from_identity. fold G M. cbv zeta. fold R.
  rewrite regularize_trivial, einsum_i_ij_Vec, bind_Ok,
    regularize_tangent_trivial, (ncols_shape shape_R).
  reflexivity.
Qed.

Lemma rowvec_mat_product (v : vec) (A B : mat) :
  length v = n -> has_shape n n A -> has_shape n n B ->
  matmul A B = eye n ->
  rowvec_mat n (rowvec_mat n v A) B = v.
Proof.
  intros Hv HA HB HAB.
  pose proof (@rowvec_mat_assoc n v A B Hv HA HB) as E.
  rewrite (@ncols_shape n A HA), (@ncols_shape n B HB), HAB in E.
  rewrite E. subst n. apply rowvec_mat_eye.
Qed.

(** X21. Round trip of the closed-form maps at the identity.  On a group
    whose regularizations are trivial and whose inverse is an involution
    that maps vectors of length [n] to vectors of length [n], when the
    transposed square root of the metric matrix and the square root of its
    inverse are [n x n] matrices inverse to each other,
    [log_from_identity(exp_from_identity(v)) = v] and
    [exp_from_identity(log_from_identity(v)) = v] for every vector of length
    [n], for a left- as for a right-invariant metric. *)
Theorem closed_form_exp_log_round_trip (v : vec) :
  length v = n ->
  (forall u, length u = n ->
             exists w, inverse G (Vec u) = Vec w /\ length w = n) ->
  matmul S R = eye n -> matmul R S = eye n ->
  (e <- exp_from_identity self (Vec v) ;; log_from_identity self e)
  = Ok (Vec v)
  /\ (l <- log_from_identity self (Vec v) ;; exp_from_identity self l)
     = Ok (Vec v).
Proof.
  intros Hv Hinv HSR HRS.
  assert (Hn : length (vneg v) = n)
    by (unfold vneg; now rewrite length_map).
  unfold exp_from_identity, log_from_identity. fold G. cbv zeta.
  destruct (String.eqb (left_or_right self) "left").
  - rewrite !regularize_trivial, left_exp_from_identity_Vec,
      left_log_from_identity_Vec, !bind_Ok, !regularize_trivial.
    rewrite left_exp_from_identity_Vec, left_log_from_identity_Vec, !bind_Ok.
    rewrite regularize_trivial.
    rewrite (@rowvec_mat_product v S R Hv shape_S shape_R HSR).
    now rewrite (@rowvec_mat_product v R S Hv shape_R shape_S HRS).
  - cbn [neg]. rewrite !regularize_trivial.
    rewrite left_exp_from_identity_Vec, !bind_Ok, !regularize_trivial.
    rewrite inverse_involutive, left_log_from_identity_Vec, bind_Ok.
    rewrite (@rowvec_mat_product (vneg v) S R Hn shape_S shape_R HSR).
    cbn [neg]. rewrite vneg_involutive. split; [reflexivity|].
    destruct (Hinv v Hv) as (w & Ew & Hw).
    rewrite <- (inverse_involutive (Vec v)), Ew at 2.
    rewrite Ew, left_log_from_identity_Vec, bind_Ok. cbn [neg].
    rewrite bind_Ok. cbn [neg].
    rewrite vneg_involutive, left_exp_from_identity_Vec, !bind_Ok.
    rewrite regularize_trivial.
    now rewrite (@rowvec_mat_product w R S Hw shape_R shape_S HRS).
Qed.

End ExtraClosedForm.

(** ** Logarithm followed by exponential at a base point *)

Section ExtraExpOfLog.

Context {env : Environment}.
Variable self : InvariantMetric.
Variables p q : array.

Let G : LieGroup := group self.
Let base : array := regularize G p.
Let left : bool := String.eqb (left_or_right self) "left".
Let near : array :=
  if left then compose G (inverse G base) q else compose G q (inverse G base).

(** X22. [exp(log(q, p), p) = q] away from the identity.  Let [p'] be the
    regularized base point, not within tolerance of the identity, and [q] a
    regularized point.  When [self.log_from_identity] returns [l] at
    [p'^-1 . q] (at [q . p'^-1] for a right-invariant metric),
    [self.exp_from_identity] maps [l] back to that point, the inverse
    translation map at [p'] undoes the translation of [l], and composing with
    [p'] undoes the composition with [p'^-1], then [log(q, p)] returns a
    vector that [exp(., p)] maps to [q]. *)
Theorem exp_of_log_at_base_point (l : array) :
  allclose rtol atol base (identity G) = false ->
  regularize G q = q ->
  self_log_from_identity self near = Ok l ->
  self_exp_from_identity self l = Ok near ->
  tangent_translation_map G base (left_or_right self) true
    (tangent_translation_map G base (left_or_right self) false l) = l ->
  (if left then compose G base near else compose G near base) = q ->
  (v <- log self q (Some p) ;; exp self v (Some p)) = Ok q.
Proof.
  intros Hfar Hq Hlog Hexp Hundone Hlaw.
  unfold log. fold G. cbv zeta. fold base. rewrite Hfar, Hq.
  fold left. fold near. rewrite Hlog, !bind_Ok.
  unfold exp. fold G. cbv zeta. fold base. rewrite Hfar.
  rewrite Hundone, Hexp, bind_Ok. fold left.
  now rewrite Hlaw, Hq.
Qed.

End ExtraExpOfLog.

(** ** Runs of the further properties *)

Lemma mneg_involutive (A : mat) : mneg (mneg A) = A.
Proof.
  unfold mneg. rewrite map_map.
  transitivity (map (fun r : vec => r) A); [|apply map_id].
  apply map_ext. intros r. apply vneg_involutive.
Qed.

Lemma neg_involutive (a : array) : neg (neg a) = a.
Proof.
  destruct a as [v|A]; cbn [neg]; f_equal;
    [apply vneg_involutive | apply mneg_involutive].
Qed.

Section ExtraRuns.

Import Concrete.
#[local] Existing Instance exact_env.

Lemma exact_rtol_nonneg : 0 <= rtol.
Proof. vm_compute. discriminate. Qed.


Lemma InvariantMetric_init_signature_witness :
  0 <= atol
  /\ exists self,
       InvariantMetric_init InvariantMetric_cls (Euclidean 2) None
         (Some diag14) "left" = Ok self
       /\ let '(n_pos, n_null, n_neg) := signature self in
          (n_pos + n_neg
           <= length (linalg_eigvalsh (metric_mat_at_identity self)))%nat
          /\ (length (linalg_eigvalsh (metric_mat_at_identity self))
              <= n_pos + n_null + n_neg)%nat.
Proof.
  split; [exact exact_atol_nonneg|].
  eexists. split; [reflexivity|].
  exact (@InvariantMetric_init_signature exact_env InvariantMetric_cls
           (Euclidean 2) None (Some diag14) "left" _ exact_atol_nonneg
           eq_refl).
Defined.

Lemma inner_product_at_identity_point_type_witness :
  (default_point_type (group untyped_metric) <> "vector"
   /\ default_point_type (group untyped_metric) <> "matrix"
   /\ inner_product_at_identity untyped_metric (Vec [1; 0]) (Vec [1; 0])
      = Raise ValueError)
  /\ (default_point_type (group flat_metric) = "vector"
      /\ has_shape 2 2 (metric_mat_at_identity flat_metric)
      /\ exists q,
           inner_product_at_identity flat_metric
             (Vec [1; z 2]) (Vec [z 3; 1]) = Ok q)
  /\ (default_point_type (group affine_metric) = "matrix"
      /\ has_shape 2 2 E11 /\ has_shape 2 2 ones2
      /\ exists q,
           inner_product_at_identity affine_metric (Mat E11) (Mat ones2)
           = Ok q).
Proof.
  assert (N1 : default_point_type (group untyped_metric) <> "vector")
    by discriminate.
  assert (N2 : default_point_type (group untyped_metric) <> "matrix")
    by discriminate.
  assert (S1 : has_shape 2 2 (metric_mat_at_identity flat_metric))
    by (split; [reflexivity | repeat constructor]).
  assert (S2 : has_shape 2 2 E11) by (split; [reflexivity | repeat constructor]).
  assert (S3 : has_shape 2 2 ones2)
    by (split; [reflexivity | repeat constructor]).
  split; [|split].
  - split; [exact N1|]. split; [exact N2|].
    exact (proj1 (inner_product_at_identity_point_type untyped_metric)
             N1 N2 (Vec [1; 0]) (Vec [1; 0])).
  - split; [reflexivity|]. split; [exact S1|].
    exact (proj1 (proj2 (inner_product_at_identity_point_type flat_metric))
             eq_refl 2%nat [1; z 2] [z 3; 1] S1 eq_refl eq_refl).
  - split; [reflexivity|]. split; [exact S2|]. split; [exact S3|].
    refine (proj2 (proj2 (inner_product_at_identity_point_type
                            affine_metric))
              eq_refl 2%nat 2%nat E11 ones2 S2 S3 _).
    intros algebra H. injection H as <-.
    split; [reflexivity | repeat constructor].
Defined.

Lemma inner_product_symmetric_witness :
  default_point_type (group affine_metric) <> "vector"
  /\ inner_product affine_metric (Mat E11) (Mat ones2) (Some (Mat (eye 2)))
     = inner_product affine_metric (Mat ones2) (Mat E11)
         (Some (Mat (eye 2))).
Proof.
  assert (H : default_point_type (group affine_metric) <> "vector")
    by discriminate.
  split; [exact H|].
  exact (inner_product_symmetric affine_metric (Mat E11) (Mat ones2)
           (Some (Mat (eye 2))) H).
Defined.

Lemma affine_weights_fit :
  forall algebra,
    lie_algebra affine_metric = Some algebra ->
    has_shape 2 2
      (reshape_metric_matrix algebra (metric_mat_at_identity affine_metric)).
Proof.
  intros algebra H. injection H as <-.
  split; [reflexivity | repeat constructor].
Qed.

Lemma inner_product_at_identity_homogeneous_witness :
  default_point_type (group affine_metric) = "matrix"
  /\ has_shape 2 2 E11 /\ has_shape 2 2 ones2
  /\ inner_product_at_identity affine_metric (Mat E11) (Mat ones2) = Ok 1
  /\ exists q,
       inner_product_at_identity affine_metric (Mat E11) (Mat ones2) = Ok q
       /\ inner_product_at_identity affine_metric
            (Mat (mscale (z 3) E11)) (Mat ones2) = Ok (z 3 * q)
       /\ inner_product_at_identity affine_metric
            (Mat E11) (Mat (mscale (z 3) ones2)) = Ok (z 3 * q).
Proof.
  assert (S2 : has_shape 2 2 E11) by (split; [reflexivity | repeat constructor]).
  assert (S3 : has_shape 2 2 ones2)
    by (split; [reflexivity | repeat constructor]).
  split; [reflexivity|]. split; [exact S2|]. split; [exact S3|].
  split; [apply scalar_result_eqb_eq; vm_compute; reflexivity|].
  exact (@inner_product_at_identity_homogeneous exact_env affine_metric
           2 eq_refl (z 3) E11 ones2 affine_weights_fit S2 S3).
Defined.

Lemma structure_constant_antisymmetric_witness :
  default_point_type (group affine_metric) = "matrix"
  /\ has_shape 2 2 E11 /\ has_shape 2 2 E12
  /\ structure_constant affine_metric (Mat E11) (Mat E12) (Mat E12) = Ok 1
  /\ (exists q,
        structure_constant affine_metric (Mat E11) (Mat E12) (Mat E12)
        = Ok q
        /\ structure_constant affine_metric (Mat E12) (Mat E11) (Mat E12)
           = Ok (- q))
  /\ structure_constant affine_metric (Mat E11) (Mat E11) (Mat E12) = Ok 0.
Proof.
  assert (S2 : has_shape 2 2 E11) by (split; [reflexivity | repeat constructor]).
  assert (S3 : has_shape 2 2 E12) by (split; [reflexivity | repeat constructor]).
  split; [reflexivity|]. split; [exact S2|]. split; [exact S3|].
  split; [apply scalar_result_eqb_eq; vm_compute; reflexivity|].
  exact (@structure_constant_antisymmetric exact_env affine_metric 2 eq_refl
           E11 E12 E12 affine_weights_fit S2 S3 S3).
Defined.

Lemma inner_product_and_sectional_curvature_invariant_witness :
  let self := affine_matrix_metric "left" in
  let P := [[z 2; z 3]; [0; 1]] in
  let Pinv := inv_small P in
  let T := tangent_translation_map (group self) (Mat P) "left" false in
  let u := E11 in
  let v := [[1; 1]; [0; 0]] in
  matmul Pinv P = eye 2 /\ matmul P Pinv = eye 2
  /\ T (Mat u) = Mat [[z 2; 0]; [0; 0]]
  /\ T (Mat v) = Mat [[z 2; z 2]; [0; 0]]
  /\ inner_product self (T (Mat u)) (T (Mat v)) (Some (Mat P)) = Ok 1
  /\ inner_product self (T (Mat u)) (T (Mat v)) (Some (Mat P))
     = inner_product_at_identity self (Mat u) (Mat v)
  /\ sectional_curvature self (T (Mat u)) (T (Mat v)) (Some (Mat P))
     = sectional_curvature_at_identity self (Mat u) (Mat v).
Proof.
  intros self P Pinv T u v.
  assert (SP : has_shape 2 2 P) by (split; [reflexivity | repeat constructor]).
  assert (SQ : has_shape 2 2 Pinv)
    by (split; [reflexivity | repeat constructor]).
  assert (Su : has_shape 2 2 u) by (split; [reflexivity | repeat constructor]).
  assert (Sv : has_shape 2 2 v) by (split; [reflexivity | repeat constructor]).
  assert (I1 : matmul Pinv P = eye 2)
    by (apply mat_eqb_eq; vm_compute; reflexivity).
  assert (I2 : matmul P Pinv = eye 2)
    by (apply mat_eqb_eq; vm_compute; reflexivity).
  assert (E1 : T (Mat u) = Mat [[z 2; 0]; [0; 0]])
    by (apply array_eqb_eq; vm_compute; reflexivity).
  assert (E2 : T (Mat v) = Mat [[z 2; z 2]; [0; 0]])
    by (apply array_eqb_eq; vm_compute; reflexivity).
  assert (E3 : inner_product self (T (Mat u)) (T (Mat v)) (Some (Mat P))
               = Ok 1)
    by (apply scalar_result_eqb_eq; vm_compute; reflexivity).
  assert (N : default_point_type (group self) <> "vector") by discriminate.
  split; [exact I1|]. split; [exact I2|]. split; [exact E1|].
  split; [exact E2|]. split; [exact E3|].
  exact (@inner_product_and_sectional_curvature_invariant exact_env self 2
           P Pinv SP SQ I1 I2 (fun X _ => eq_refl) (fun X _ => eq_refl)
           u v Su Sv N).
Defined.

Lemma connection_and_curvature_equivariant_witness :
  let self := affine_matrix_metric "right" in
  let P := [[z 2; z 3]; [0; 1]] in
  let Pinv := inv_small P in
  let T := tangent_translation_map (group self) (Mat P) "right" false in
  matmul Pinv P = eye 2 /\ matmul P Pinv = eye 2
  /\ T (Mat E12) = Mat E12
  /\ T (Mat E11) = Mat [[z 2; z 3]; [0; 0]]
  /\ connection self (T (Mat E12)) (T (Mat E11)) (Some (Mat P))
     = Ok (Mat [[0; z (-1)]; [0; 0]])
  /\ connection self (T (Mat E12)) (T (Mat E11)) (Some (Mat P))
     = (r <- connection_at_identity self (Mat E12) (Mat E11) ;; Ok (T r))
  /\ curvature self (T (Mat E11)) (T (Mat E12)) (T (Mat E11))
       (Some (Mat P))
     = (r <- curvature_at_identity self (Mat E11) (Mat E12) (Mat E11) ;;
        Ok (T r))
  /\ curvature_derivative self
       (T (Mat E11)) (T (Mat E12)) (T (Mat E11)) (T (Mat E12))
       (Some (Mat P))
     = (r <- curvature_derivative_at_identity self
               (Mat E11) (Mat E12) (Mat E11) (Mat E12) ;;
        Ok (T r)).
Proof.
  intros self P Pinv T.
  assert (SP : has_shape 2 2 P) by (split; [reflexivity | repeat constructor]).
  assert (SQ : has_shape 2 2 Pinv)
    by (split; [reflexivity | repeat constructor]).
  assert (S1 : has_shape 2 2 E11) by (split; [reflexivity | repeat constructor]).
  assert (S2 : has_shape 2 2 E12) by (split; [reflexivity | repeat constructor]).
  assert (I1 : matmul Pinv P = eye 2)
    by (apply mat_eqb_eq; vm_compute; reflexivity).
  assert (I2 : matmul P Pinv = eye 2)
    by (apply mat_eqb_eq; vm_compute; reflexivity).
  assert (E1 : T (Mat E12) = Mat E12)
    by (apply array_eqb_eq; vm_compute; reflexivity).
  assert (E2 : T (Mat E11) = Mat [[z 2; z 3]; [0; 0]])
    by (apply array_eqb_eq; vm_compute; reflexivity).
  assert (E3 : connection self (T (Mat E12)) (T (Mat E11)) (Some (Mat P))
               = Ok (Mat [[0; z (-1)]; [0; 0]]))
    by (apply array_result_eqb_eq; vm_compute; reflexivity).
  pose proof (@connection_and_curvature_equivariant exact_env self 2
                P Pinv SP SQ I1 I2 (fun X _ => eq_refl)
                (fun X _ => eq_refl)) as H.
  split; [exact I1|]. split; [exact I2|]. split; [exact E1|].
  split; [exact E2|]. split; [exact E3|].
  split; [exact (proj1 (H E12 E11 E11 E11 S2 S1 S1 S1))|].
  split; [exact (proj1 (proj2 (H E11 E12 E11 E11 S1 S2 S1 S1)))|].
  exact (proj2 (proj2 (H E11 E12 E11 E12 S1 S2 S1 S2))).
Defined.

Lemma connection_at_identity_torsion_free_witness :
  matrix_metric_ready affine_metric affine_algebra 2
  /\ has_shape 2 2 E11 /\ has_shape 2 2 E12
  /\ exists nabla_xy nabla_yx : array,
       connection_at_identity affine_metric (Mat E11) (Mat E12)
       = Ok nabla_xy
       /\ connection_at_identity affine_metric (Mat E12) (Mat E11)
          = Ok nabla_yx
       /\ array_sub nabla_xy nabla_yx = bracket (Mat E11) (Mat E12).
Proof.
  split; [exact affine_metric_ready|].
  split; [repeat constructor|].
  split; [repeat constructor|].
  apply (@connection_at_identity_torsion_free exact_env affine_metric
           affine_algebra 2 affine_metric_ready);
    repeat constructor.
Defined.

Lemma connection_and_curvature_homogeneous_witness :
  matrix_metric_ready affine_metric affine_algebra 2
  /\ has_shape 2 2 E11 /\ has_shape 2 2 E12
  /\ connection_at_identity affine_metric (Mat E12) (Mat E11)
     = Ok (Mat [[0; z (-1)]; [0; 0]])
  /\ curvature_at_identity affine_metric (Mat E12) (Mat E11) (Mat E12)
     = Ok (Mat [[z (-1); 0]; [0; 0]])
  /\ (exists nabla : mat,
        connection_at_identity affine_metric (Mat E12) (Mat E11)
        = Ok (Mat nabla)
        /\ connection_at_identity affine_metric
             (Mat (mscale (z 3) E12)) (Mat E11)
           = Ok (Mat (mscale (z 3) nabla))
        /\ connection_at_identity affine_metric
             (Mat E12) (Mat (mscale (z 3) E11))
           = Ok (Mat (mscale (z 3) nabla)))
  /\ (exists r : mat,
        curvature_at_identity affine_metric (Mat E12) (Mat E11) (Mat E12)
        = Ok (Mat r)
        /\ curvature_at_identity affine_metric
             (Mat (mscale (z 3) E12)) (Mat E11) (Mat E12)
           = Ok (Mat (mscale (z 3) r))
        /\ curvature_at_identity affine_metric
             (Mat E12) (Mat (mscale (z 3) E11)) (Mat E12)
           = Ok (Mat (mscale (z 3) r))
        /\ curvature_at_identity affine_metric
             (Mat E12) (Mat E11) (Mat (mscale (z 3) E12))
           = Ok (Mat (mscale (z 3) r))).
Proof.
  assert (S1 : has_shape 2 2 E11) by (split; [reflexivity | repeat constructor]).
  assert (S2 : has_shape 2 2 E12) by (split; [reflexivity | repeat constructor]).
  split; [exact affine_metric_ready|].
  split; [exact S1|]. split; [exact S2|].
  split; [apply array_result_eqb_eq; vm_compute; reflexivity|].
  split; [apply array_result_eqb_eq; vm_compute; reflexivity|].
  exact (@connection_and_curvature_homogeneous exact_env affine_metric
           affine_algebra 2 affine_metric_ready (z 3) E12 E11 E12
           S2 S1 S2).
Defined.

Lemma curvature_at_identity_repeated_witness :
  matrix_metric_ready affine_metric affine_algebra 2
  /\ has_shape 2 2 E11 /\ has_shape 2 2 E12
  /\ curvature_at_identity affine_metric (Mat E11) (Mat E11) (Mat E12)
     = Ok (Mat (zeros 2 2)).
Proof.
  split; [exact affine_metric_ready|].
  split; [repeat constructor|].
  split; [repeat constructor|].
  apply (@curvature_at_identity_repeated exact_env affine_metric
           affine_algebra 2 affine_metric_ready);
    repeat constructor.
Defined.

Lemma sectional_curvature_at_identity_returns_witness :
  matrix_metric_ready affine_metric affine_algebra 2
  /\ 0 <= atol
  /\ has_shape 2 2 E11 /\ has_shape 2 2 ones2
  /\ exists q : Qc,
       sectional_curvature_at_identity affine_metric (Mat E11) (Mat ones2)
       = Ok q.
Proof.
  assert (S1 : has_shape 2 2 E11) by (split; [reflexivity | repeat constructor]).
  assert (S2 : has_shape 2 2 ones2)
    by (split; [reflexivity | repeat constructor]).
  split; [exact affine_metric_ready|].
  split; [exact exact_atol_nonneg|].
  split; [exact S1|]. split; [exact S2|].
  exact (@sectional_curvature_at_identity_returns exact_env affine_metric
           affine_algebra 2 affine_metric_ready E11 ones2
           exact_atol_nonneg S1 S2).
Defined.

Lemma lie_acceleration_quadratic_witness :
  let v := [[1; 1]; [0; 0]] in
  matrix_metric_ready affine_metric affine_algebra 2
  /\ has_shape 2 2 v
  /\ lie_acceleration affine_metric [E11; E12] (Mat (eye 2)) (Mat v)
     = Ok (Mat [[z (-1); 1]; [0; 0]])
  /\ exists a : mat,
       lie_acceleration affine_metric [E11; E12] (Mat (eye 2)) (Mat v)
       = Ok (Mat a)
       /\ lie_acceleration affine_metric [E11; E12] (Mat (eye 2))
            (Mat (mscale (z 3) v))
          = Ok (Mat (mscale (z 3 * z 3) a)).
Proof.
  intros v.
  assert (Sv : has_shape 2 2 v) by (split; [reflexivity | repeat constructor]).
  split; [exact affine_metric_ready|]. split; [exact Sv|].
  split; [apply array_result_eqb_eq; vm_compute; reflexivity|].
  exact (@lie_acceleration_quadratic exact_env affine_metric affine_algebra
           2 affine_metric_ready (z 3) (Mat (eye 2)) v Sv).
Defined.

Lemma exp_and_log_from_the_identity_witness :
  0 <= rtol /\ 0 <= atol
  /\ regularize (group flat_metric) (identity (group flat_metric))
     = identity (group flat_metric)
  /\ log flat_metric (Vec [z 2; z 4]) (Some (identity (group flat_metric)))
     = self_log_from_identity flat_metric (Vec [z 2; z 4])
  /\ exp flat_metric (Vec [z 2; z 4]) (Some (identity (group flat_metric)))
     = self_exp_from_identity flat_metric (Vec [z 2; z 4]).
Proof.
  split; [exact exact_rtol_nonneg|].
  split; [exact exact_atol_nonneg|].
  split; [reflexivity|].
  destruct (@exp_and_log_from_the_identity exact_env flat_metric
              exact_rtol_nonneg exact_atol_nonneg eq_refl) as [Hl He].
  split; [exact (proj2 (Hl _)) | exact (proj2 (He _))].
Defined.

Lemma BiInvariantMetric_exp_log_witness :
  let G := named_matrix_group SO3_name 3 in
  0 <= rtol /\ 0 <= atol
  /\ regularize G (identity G) = identity G
  /\ exists self,
       BiInvariantMetric_init G = Ok self
       /\ (forall v, exp self v None = Ok (group_exp G v))
       /\ (forall q, log self q None = Ok (group_log G q)).
Proof.
  intros G.
  split; [exact exact_rtol_nonneg|].
  split; [exact exact_atol_nonneg|].
  split; [reflexivity|].
  eexists. split; [reflexivity|].
  destruct (@BiInvariantMetric_exp_log exact_env G _ eq_refl
              exact_rtol_nonneg exact_atol_nonneg eq_refl)
    as (H1 & H2 & _).
  split; [exact H1 | exact H2].
Defined.

Lemma BiInvariantMetric_has_no_curvature_witness :
  let G := named_matrix_group SO3_name 3 in
  exists self,
    BiInvariantMetric_init G = Ok self
    /\ (forall a b, dual_adjoint self a b = Raise AttributeError)
    /\ (forall a b c : mat,
          curvature_at_identity self (Mat a) (Mat b) (Mat c)
          = Raise AttributeError).
Proof.
  intros G.
  eexists. split; [reflexivity|].
  destruct (@BiInvariantMetric_has_no_curvature exact_env G _ eq_refl)
    as (H1 & _ & _ & H4 & _).
  split; [exact H1 | exact H4].
Defined.

Lemma inner_product_at_identity_vector_symmetric_witness :
  let self := euclidean_metric "left" in
  let u := [1; z 2] in
  let v := [z 3; 1] in
  default_point_type (group self) = "vector"
  /\ has_shape 2 2 (metric_mat_at_identity self)
  /\ transpose (metric_mat_at_identity self) = metric_mat_at_identity self
  /\ inner_product_at_identity self (Vec u) (Vec v)
     = inner_product_at_identity self (Vec v) (Vec u).
Proof.
  intros self u v.
  assert (Hs : has_shape 2 2 (metric_mat_at_identity self))
    by (split; [reflexivity | repeat constructor]).
  assert (Ht : transpose (metric_mat_at_identity self)
               = metric_mat_at_identity self)
    by (apply mat_eqb_eq; vm_compute; reflexivity).
  split; [reflexivity|]. split; [exact Hs|]. split; [exact Ht|].
  exact (proj2 (@inner_product_at_identity_vector_symmetric exact_env self
                  2 u v eq_refl Hs Ht eq_refl eq_refl)).
Defined.

Lemma default_metric_is_dot_product_witness :
  let u := [1; z 2] in
  let v := [z 3; 1] in
  default_point_type (Euclidean 2) = "vector"
  /\ length u = dim (Euclidean 2) /\ length v = dim (Euclidean 2)
  /\ exists metric,
       InvariantMetric_init InvariantMetric_cls (Euclidean 2) None None
         "right" = Ok metric
       /\ inner_product_at_identity metric (Vec u) (Vec v) = Ok (vdot u v).
Proof.
  intros u v.
  split; [reflexivity|]. split; [reflexivity|]. split; [reflexivity|].
  eexists. split; [reflexivity|].
  exact (@default_metric_is_dot_product exact_env InvariantMetric_cls
           (Euclidean 2) None "right" _ u v eq_refl eq_refl eq_refl
           eq_refl).
Defined.

Lemma metric_matrix_at_identity_jacobian_witness :
  let self := euclidean_metric "right" in
  let p := Some (Vec [z 5; z 7]) in
  default_point_type (group self) <> "matrix"
  /\ has_shape 2 2 (metric_mat_at_identity self)
  /\ linalg_inv (eye 2) = eye 2
  /\ metric_matrix self p = Ok diag14.
Proof.
  intros self p.
  assert (Hm : default_point_type (group self) <> "matrix")
    by discriminate.
  assert (Hs : has_shape 2 2 (metric_mat_at_identity self))
    by (split; [reflexivity | repeat constructor]).
  assert (Hi : linalg_inv (eye 2) = eye 2)
    by (apply mat_eqb_eq; vm_compute; reflexivity).
  split; [exact Hm|]. split; [exact Hs|]. split; [exact Hi|].
  exact (proj2 (@metric_matrix_at_identity_jacobian exact_env self 2 p)
           Hm Hs eq_refl Hi).
Defined.

Lemma closed_form_exp_log_round_trip_witness :
  let self := euclidean_metric "right" in
  let S := transpose (linalg_sqrtm (metric_mat_at_identity self)) in
  let R := linalg_sqrtm (linalg_inv (metric_mat_at_identity self)) in
  let v := [z 2; z 4] in
  has_shape 2 2 S /\ has_shape 2 2 R
  /\ matmul S R = eye 2 /\ matmul R S = eye 2
  /\ (e <- exp_from_identity self (Vec v) ;; log_from_identity self e)
     = Ok (Vec v)
  /\ (l <- log_from_identity self (Vec v) ;; exp_from_identity self l)
     = Ok (Vec v).
Proof.
  intros self S R v.
  assert (HS : has_shape 2 2 S) by (split; [reflexivity | repeat constructor]).
  assert (HR : has_shape 2 2 R) by (split; [reflexivity | repeat constructor]).
  assert (HSR : matmul S R = eye 2)
    by (apply mat_eqb_eq; vm_compute; reflexivity).
  assert (HRS : matmul R S = eye 2)
    by (apply mat_eqb_eq; vm_compute; reflexivity).
  assert (Hinv : forall u : vec,
             length u = 2%nat ->
             exists w : vec,
               inverse (group self) (Vec u) = Vec w /\ length w = 2%nat).
  { intros u Hu. exists (vneg u). split; [reflexivity|].
    unfold vneg. now rewrite length_map. }
  split; [exact HS|]. split; [exact HR|].
  split; [exact HSR|]. split; [exact HRS|].
  exact (@closed_form_exp_log_round_trip exact_env self 2
           (fun x => eq_refl) (fun x A => eq_refl) neg_involutive HS HR
           v eq_refl Hinv HSR HRS).
Defined.

Lemma exp_of_log_at_base_point_witness :
  let self := euclidean_metric "right" in
  let p := Vec [1; 1] in
  let q := Vec [z 3; z 5] in
  let l := Vec [z 2; z 2] in
  allclose rtol atol (regularize (group self) p) (identity (group self))
  = false
  /\ (v <- log self q (Some p) ;; exp self v (Some p)) = Ok q.
Proof.
  intros self p q l.
  assert (Hfar : allclose rtol atol (regularize (group self) p)
                   (identity (group self)) = false)
    by (vm_compute; reflexivity).
  split; [exact Hfar|].
  apply (@exp_of_log_at_base_point exact_env self p q l Hfar eq_refl).
  - apply array_result_eqb_eq. vm_compute. reflexivity.
  - apply array_result_eqb_eq. vm_compute. reflexivity.
  - reflexivity.
  - apply array_eqb_eq. vm_compute. reflexivity.
Defined.

End ExtraRuns.
